(** * NotationParts: the part / instrument / staff editor of a notation

    A shallow embedding of [src/notation/internal/notationparts.cpp].

    The editor works on the score engine ([libmscore]) through pointers.
    The engine is not part of the sources at hand; the first half of this
    file models the few primitives the editor calls, each one marked
    [Modelled from the spec:].  The second half translates the editor's own
    functions one by one, keeping their names and the order of their
    statements.

    Conventions.
    - An identifier ([ID], a [QString]) is a [string].
    - A tick is an integer: a [Ms::Fraction] is represented by the tick count
      that [Fraction::ticks] returns, and C++ [int] arithmetic on ticks wraps
      at 32 bits.
    - A [QMap<Fraction, T>] (and the [std::map] behind [Part::instruments])
      is an association list sorted by strictly increasing key: [keys()] and
      [values()] enumerate in that order, which the editor relies on.
    - Heap objects that the editor holds by pointer while it changes the
      score (staves, annotation elements) carry an address; parts are held
      through their identifier, which is how the editor resolves them
      ([NotationParts::part]).
    - An editor operation maps a [World] to a [World]; operations that can
      dereference a null pointer or trip an assertion return an [Outcome].
    - Every call on the undo stack and on a notifier is appended to the
      world's [trace]. *)

From Stdlib Require Import List ZArith Ascii String Bool Arith Lia Permutation Sorted.
Import ListNotations.


(** ** Identifiers and lists (Qt containers) *)

Definition ID := string.
Bind Scope string_scope with ID.
Definition IDList := list ID.

(** [QList<ID>::contains] *)
Definition contains (l : IDList) (x : ID) : bool :=
  existsb (String.eqb x) l.

(** [QList<T>::insert(i, v)]: an index at or below zero prepends, an index at
    or beyond the size appends. *)
Fixpoint insertAt {A : Type} (i : nat) (x : A) (l : list A) : list A :=
  match i, l with
  | O, _ => x :: l
  | S _, [] => [x]
  | S i', y :: l' => y :: insertAt i' x l'
  end.

(** [QList<T>::insert] with a C++ [int] index. *)
Definition insertAtZ {A : Type} (i : Z) (x : A) (l : list A) : list A :=
  insertAt (Z.to_nat i) x l.

(** Replace the element at an index; out of range the list is unchanged. *)
Fixpoint replaceAt {A : Type} (i : nat) (x : A) (l : list A) : list A :=
  match i, l with
  | _, [] => []
  | O, _ :: l' => x :: l'
  | S i', y :: l' => y :: replaceAt i' x l'
  end.

(** ** Ticks *)

(** Modelled from the spec: a Tick is "an absolute musical time position used
    as the ordering key for time-indexed instrument assignments".  A
    [Ms::Fraction] is represented by its tick count, so [Fraction::fromTicks]
    and [Fraction::ticks] are the identity. *)
Definition Fraction := Z.
Definition fromTicks (t : Z) : Fraction := t.
Definition ticks (f : Fraction) : Z := f.

Definition INT_MIN : Z := - 2 ^ 31.
Definition INT_MAX : Z := 2 ^ 31 - 1.

(** The value a 32-bit two's complement [int] holds after an operation whose
    mathematical result is [z]. *)
Definition wrap_int (z : Z) : Z := ((z + 2 ^ 31) mod 2 ^ 32 - 2 ^ 31)%Z.

(** [static const Ms::Fraction DEFAULT_TICK = Ms::Fraction(0, 1)] *)
Definition DEFAULT_TICK : Fraction := 0%Z.

(** ** Ordered maps *)

Definition QMap (V : Type) := list (Fraction * V).

Definition keys {V : Type} (m : QMap V) : list Fraction := map fst m.
Definition values {V : Type} (m : QMap V) : list V := map snd m.

(** [QMap::insert] / [InstrumentList::setInstrument]: a new key is placed in
    key order, an existing key has its value overwritten. *)
Fixpoint qmap_insert {V : Type} (k : Fraction) (v : V) (m : QMap V) : QMap V :=
  match m with
  | [] => [(k, v)]
  | (k', v') :: m' =>
      if (k <? k')%Z then (k, v) :: m
      else if (k =? k')%Z then (k, v) :: m'
      else (k', v') :: qmap_insert k v m'
  end.

(** [QMap::value(key)] / [QMap::contains(key)] *)
Fixpoint qmap_value {V : Type} (k : Fraction) (m : QMap V) : option V :=
  match m with
  | [] => None
  | (k', v) :: m' => if (k =? k')%Z then Some v else qmap_value k m'
  end.

(** [QList<Fraction>::contains] *)
Definition containsTick (l : list Fraction) (f : Fraction) : bool :=
  existsb (Z.eqb f) l.

(** [std::sort] of a list of ticks with [l < r]: insertion sort. *)
Fixpoint insertSorted (x : Z) (l : list Z) : list Z :=
  match l with
  | [] => [x]
  | y :: l' => if (x <=? y)%Z then x :: l else y :: insertSorted x l'
  end.

Definition sortTicks (l : list Z) : list Z := fold_right insertSorted [] l.

(** ** The score model *)

(** [Ms::Instrument], as far as the editor reads it. *)
Record MsInstrument := mkMsInstrument {
  instrumentId : ID;
  trackName : string
}.

(** [mu::instruments::Instrument], the editor's own description of an
    instrument: identifier, name, number of staves and per-staff defaults. *)
Record Instrument := mkInstrument {
  instrument_id : ID;
  instrument_name : string;
  instrument_staves : nat;
  instrument_smallStaff : list bool;
  instrument_barlineSpan : list nat
}.

(** [InstrumentsConverter::convertInstrument], in both directions.  The
    conversion from the score's instrument fills the editor-only fields of
    the result with defaults. *)
Definition convertInstrument (i : Instrument) : MsInstrument :=
  mkMsInstrument (instrument_id i) (instrument_name i).

Definition convertMsInstrument (i : MsInstrument) : Instrument :=
  mkInstrument (instrumentId i) (trackName i) 0 [] [].

(** A default-constructed [Ms::Instrument]. *)
Definition defaultInstrument : MsInstrument := mkMsInstrument EmptyString EmptyString.

(** [Ms::StaffType], as far as the editor writes it. *)
Record StaffType := mkStaffType {
  small : bool
}.

(** Musical content of a staff: items at ticks. *)
Definition Content := list (Fraction * string).

(** [Ms::Staff].  [staffAddr] is the identity of the object: a clone has the
    identifier of its original and a new address. *)
Record Staff := mkStaff {
  staffAddr : nat;
  staffId : ID;
  staffInvisible : bool;
  staffCutaway : bool;
  staffType : option StaffType;
  staffBarLineSpan : nat;
  staffLinked : bool;
  staffContent : Content
}.

(** [Ms::Part]: identifier, name, visibility, the time-indexed instrument
    mapping and the part's own staves in order. *)
Record Part := mkPart {
  partId : ID;
  partName : string;
  partShow : bool;
  partInstruments : QMap MsInstrument;
  partStaves : list Staff
}.

(** Elements found in a ChordRest segment. *)
Inductive ElementKind :=
| ChordRestKind
| InstrumentChangeKind (instrument : MsInstrument) (init : bool)
| OtherKind.

Record Element := mkElement {
  elAddr : nat;
  elPart : ID;
  elTrack : nat;
  elKind : ElementKind
}.

(** A segment of type ChordRest: its tick, its element list (one slot per
    track, possibly null) and its annotations. *)
Record Segment := mkSegment {
  segTick : Fraction;
  elist : list (option Element);
  annotations : list (option Element)
}.

(** A [Ms::ChordRest*] as the editor uses it: the part it belongs to, the
    tick of its segment and its track. *)
Record ChordRest := mkChordRest {
  crPart : ID;
  crTick : Fraction;
  crTrack : nat
}.

(** [Ms::Score]: parts in score order, start ticks of the measures, ChordRest
    segments in time order and the selected chord or rest, if any. *)
Record Score := mkScore {
  parts : list Part;
  measures : list Fraction;
  segments : list Segment;
  selection : option ChordRest
}.

(** [Ms::Excerpt]: the parts it lists and the address of its part score. *)
Record Excerpt := mkExcerpt {
  Excerpt_parts : list Part;
  Excerpt_partScore : nat
}.

(** [Ms::MsError], the values the editor tests. *)
Inductive MsError :=
| MS_NO_ERROR
| NO_NOTE_REST_SELECTED
| OTHER_ERROR (code : nat).

(** Calls on the undo stack, on the notifiers and on the log. *)
Inductive Event :=
| StartEdit
| Apply
| PartsNotifierChanged
| PartsNotifierItemChanged (part : ID)
| PartsChangedNotify
| PartNotifierItemAdded (part instrument : ID)
| PartNotifierItemChanged (part instrument : ID)
| InstrumentNotifierItemChanged (part instrument staff : ID)
| LogError (message : string).

(** The editor's world: the store of scores (address [0] is the master
    score, the others are part scores of excerpts), the address that
    [score()] returns, the master's excerpts, the global [MScore::_error],
    the next free object address and the trace. *)
Record World := mkWorld {
  scores : list Score;
  current : nat;
  excerpts : list Excerpt;
  error : MsError;
  nextAddr : nat;
  trace : list Event
}.

Inductive Fault :=
| NullDereference
| AssertionFailed.

Inductive Outcome :=
| Done (w : World)
| Crashed (f : Fault).

(** Sequencing of an operation after one that may crash. *)
Definition andThen (o : Outcome) (k : World -> Outcome) : Outcome :=
  match o with
  | Done w => k w
  | Crashed f => Crashed f
  end.

(** *** Field updates *)

Definition set_partName (n : string) (p : Part) : Part :=
  mkPart (partId p) n (partShow p) (partInstruments p) (partStaves p).
Definition set_partShow (b : bool) (p : Part) : Part :=
  mkPart (partId p) (partName p) b (partInstruments p) (partStaves p).
Definition set_partInstruments (m : QMap MsInstrument) (p : Part) : Part :=
  mkPart (partId p) (partName p) (partShow p) m (partStaves p).
Definition set_partStaves (l : list Staff) (p : Part) : Part :=
  mkPart (partId p) (partName p) (partShow p) (partInstruments p) l.

Definition set_staffCutaway (b : bool) (s : Staff) : Staff :=
  mkStaff (staffAddr s) (staffId s) (staffInvisible s) b (staffType s)
    (staffBarLineSpan s) (staffLinked s) (staffContent s).
Definition set_staffType (t : option StaffType) (s : Staff) : Staff :=
  mkStaff (staffAddr s) (staffId s) (staffInvisible s) (staffCutaway s) t
    (staffBarLineSpan s) (staffLinked s) (staffContent s).
Definition set_staffBarLineSpan (n : nat) (s : Staff) : Staff :=
  mkStaff (staffAddr s) (staffId s) (staffInvisible s) (staffCutaway s)
    (staffType s) n (staffLinked s) (staffContent s).
Definition set_staffLinked (b : bool) (s : Staff) : Staff :=
  mkStaff (staffAddr s) (staffId s) (staffInvisible s) (staffCutaway s)
    (staffType s) (staffBarLineSpan s) b (staffContent s).
Definition set_staffContent (c : Content) (s : Staff) : Staff :=
  mkStaff (staffAddr s) (staffId s) (staffInvisible s) (staffCutaway s)
    (staffType s) (staffBarLineSpan s) (staffLinked s) c.

Definition set_parts (l : list Part) (s : Score) : Score :=
  mkScore l (measures s) (segments s) (selection s).
Definition set_measures (l : list Fraction) (s : Score) : Score :=
  mkScore (parts s) l (segments s) (selection s).
Definition set_segments (l : list Segment) (s : Score) : Score :=
  mkScore (parts s) (measures s) l (selection s).

Definition set_annotations (l : list (option Element)) (g : Segment) : Segment :=
  mkSegment (segTick g) (elist g) l.

Definition set_scores (l : list Score) (w : World) : World :=
  mkWorld l (current w) (excerpts w) (error w) (nextAddr w) (trace w).
Definition set_excerpts (l : list Excerpt) (w : World) : World :=
  mkWorld (scores w) (current w) l (error w) (nextAddr w) (trace w).
Definition set_error (e : MsError) (w : World) : World :=
  mkWorld (scores w) (current w) (excerpts w) e (nextAddr w) (trace w).
Definition set_nextAddr (n : nat) (w : World) : World :=
  mkWorld (scores w) (current w) (excerpts w) (error w) n (trace w).
Definition set_trace (t : list Event) (w : World) : World :=
  mkWorld (scores w) (current w) (excerpts w) (error w) (nextAddr w) t.

Definition emptyScore : Score := mkScore [] [] [] None.

(** The score at an address of the store. *)
Definition scoreAt (k : nat) (w : World) : Score := nth k (scores w) emptyScore.

Definition modifyScoreAt (k : nat) (f : Score -> Score) (w : World) : World :=
  set_scores (replaceAt k (f (scoreAt k w)) (scores w)) w.

(** [NotationParts::score], [NotationParts::masterScore] and
    [Score::isMaster] *)
Definition score (w : World) : Score := scoreAt (current w) w.
Definition masterScore (w : World) : Score := scoreAt 0 w.
Definition isMasterAt (k : nat) : bool := Nat.eqb k 0.
Definition isMaster (w : World) : bool := isMasterAt (current w).

Definition modifyScore (f : Score -> Score) (w : World) : World :=
  modifyScoreAt (current w) f w.

Definition emit (e : Event) (w : World) : World :=
  set_trace (trace w ++ [e]) w.

(** The structure of a world: everything but the trace. *)
Definition structure (w : World) : World := set_trace [] w.

(** ** Score-model primitives *)

(** Modelled from the spec: "Part: identified by a stable identifier (ID),
    unique within a score's lifetime".  The identifier given to a newly
    constructed part or staff is derived from the address counter: a marker
    followed by as many letters as the counter says, so it is longer than
    every identifier made before it. *)
Fixpoint makeId (n : nat) : ID :=
  match n with
  | O => String "#"%char EmptyString
  | S n' => String "i"%char (makeId n')
  end.

(** Modelled from the spec: "exactly one Instrument is active at tick 0":
    [Part::setInstrument(instrument)] without a tick sets the entry of the
    primary instrument, at tick 0. *)
Definition PRIMARY_TICK : Fraction := 0%Z.

(** Modelled from the spec: the part's primary instrument
    ([Part::instrument()]) is the entry of the mapping at the primary tick;
    a part whose mapping has no entry there answers with a
    default-constructed instrument. *)
Definition instrument (p : Part) : MsInstrument :=
  match qmap_value PRIMARY_TICK (partInstruments p) with
  | Some i => i
  | None => defaultInstrument
  end.

(** [Part::instrumentId()] *)
Definition Part_instrumentId (p : Part) : ID := instrumentId (instrument p).

(** The key invariant of a part, "exactly one Instrument is active at tick
    0": the mapping begins with the entry of the primary instrument, at the
    primary tick. *)
Definition primaryFirst (p : Part) : Prop :=
  hd_error (keys (partInstruments p)) = Some PRIMARY_TICK.

(** Modelled from the spec: [Part::setInstrument(instrument, tick)] on the
    "time-position-indexed mapping from musical tick position to
    Instrument". *)
Definition Part_setInstrument (i : MsInstrument) (tick : Fraction) (p : Part) : Part :=
  set_partInstruments (qmap_insert (ticks tick) i (partInstruments p)) p.

(** Modelled from the spec: [Part::removeInstrument(instrumentId)], which
    "removes the instrument from wherever the part currently tracks it": the
    first entry in tick order that carries the identifier is erased. *)
Fixpoint qmap_removeInstrument (iid : ID) (m : QMap MsInstrument) : QMap MsInstrument :=
  match m with
  | [] => []
  | (k, i) :: m' =>
      if String.eqb (instrumentId i) iid then m'
      else (k, i) :: qmap_removeInstrument iid m'
  end.

Definition Part_removeInstrument (iid : ID) (p : Part) : Part :=
  set_partInstruments (qmap_removeInstrument iid (partInstruments p)) p.

(** [Part::nstaves()] *)
Definition nstaves (p : Part) : nat := List.length (partStaves p).

(** Modelled from the spec: "Score: owns an ordered sequence of Parts";
    "Part: owns an ordered sequence of Staves".  [Score::staves()] is the
    staves of the parts in score order. *)
Definition scoreStaves (s : Score) : list Staff := flat_map partStaves (parts s).

(** [Score::staffIdx(part)]: the number of staves before the part. *)
Fixpoint staffIdx (pid : ID) (ps : list Part) : nat :=
  match ps with
  | [] => 0
  | p :: ps' =>
      if String.eqb (partId p) pid then 0 else nstaves p + staffIdx pid ps'
  end.

(** [Score::staff(id)]: part/staff lookup by identifier. *)
Definition Score_staff (sid : ID) (s : Score) : option Staff :=
  find (fun st => String.eqb (staffId st) sid) (scoreStaves s).

(** The staff object at an address. *)
Definition findStaff (a : nat) (s : Score) : option Staff :=
  find (fun st => Nat.eqb (staffAddr st) a) (scoreStaves s).

(** [Staff::idx()]: the position of the staff among the staves of the score. *)
Fixpoint indexOfAddr (a : nat) (l : list Staff) : nat :=
  match l with
  | [] => 0
  | st :: l' => if Nat.eqb (staffAddr st) a then 0 else S (indexOfAddr a l')
  end.

Definition Staff_idx (a : nat) (s : Score) : nat := indexOfAddr a (scoreStaves s).

(** [Staff::part()]: "Staff: belongs to exactly one Part". *)
Fixpoint ownerOf (a : nat) (ps : list Part) : option ID :=
  match ps with
  | [] => None
  | p :: ps' =>
      if existsb (fun st => Nat.eqb (staffAddr st) a) (partStaves p)
      then Some (partId p) else ownerOf a ps'
  end.

Definition hasPart (pid : ID) (ps : list Part) : bool :=
  existsb (fun p => String.eqb (partId p) pid) ps.

(** A change made through a [Part*]: it reaches the first part of the list
    that carries the identifier. *)
Fixpoint modifyFirst (pid : ID) (f : Part -> Part) (ps : list Part) : list Part :=
  match ps with
  | [] => []
  | p :: ps' =>
      if String.eqb (partId p) pid then f p :: ps' else p :: modifyFirst pid f ps'
  end.

(** [QList<Part*>::indexOf]: the position of the part, or -1. *)
Fixpoint indexOfPart (pid : ID) (ps : list Part) : Z :=
  match ps with
  | [] => (-1)%Z
  | p :: ps' =>
      if String.eqb (partId p) pid then 0%Z
      else let r := indexOfPart pid ps' in
           if (r <? 0)%Z then (-1)%Z else (r + 1)%Z
  end.

(** Removal of the first part that carries the identifier. *)
Fixpoint removeFirst (pid : ID) (ps : list Part) : list Part :=
  match ps with
  | [] => []
  | p :: ps' =>
      if String.eqb (partId p) pid then ps' else p :: removeFirst pid ps'
  end.

(** A change made through a [Staff*]. *)
Definition modifyStaff (a : nat) (f : Staff -> Staff) (s : Score) : Score :=
  set_parts
    (map (fun p =>
            set_partStaves
              (map (fun st => if Nat.eqb (staffAddr st) a then f st else st)
                   (partStaves p)) p)
         (parts s)) s.

(** Modelled from the spec: the staff-insertion primitive
    ([Score::undoInsertStaff(staff, ridx)]).  The staff enters its own part
    at the relative index; an index outside the part's staff range means the
    end of the range. *)
Definition Part_insertStaff (st : Staff) (ridx : Z) (p : Part) : Part :=
  let n := Z.of_nat (nstaves p) in
  let idx := if ((ridx <? 0) || (n <? ridx))%Z then n else ridx in
  set_partStaves (insertAtZ idx st (partStaves p)) p.

Definition undoInsertStaff (owner : ID) (st : Staff) (ridx : Z) (s : Score) : Score :=
  set_parts (modifyFirst owner (Part_insertStaff st ridx) (parts s)) s.

(** Modelled from the spec: the staff-removal primitive
    ([Score::undoRemoveStaff(staff)]): the staff object leaves its part. *)
Definition undoRemoveStaff (a : nat) (s : Score) : Score :=
  set_parts
    (map (fun p =>
            set_partStaves
              (filter (fun st => negb (Nat.eqb (staffAddr st) a)) (partStaves p)) p)
         (parts s)) s.

(** [Staff::clone()]: a new object with the identifier and the layout
    configuration of the original; links and content are not part of the
    copy. *)
Definition clone (a : nat) (st : Staff) : Staff :=
  mkStaff a (staffId st) (staffInvisible st) (staffCutaway st) (staffType st)
    (staffBarLineSpan st) false [].

(** Modelled from the spec: "staff cloning (content-range and full)" and
    "Linked staff: a staff sharing musical content with another staff".
    [Excerpt::cloneStaff(src, dst)] gives the destination the whole content
    of the source and links it to the source. *)
Definition cloneStaff (src dst : nat) (s : Score) : Score :=
  match findStaff src s with
  | Some from =>
      modifyStaff dst (fun st => set_staffLinked true (set_staffContent (staffContent from) st)) s
  | None => s
  end.

(** Modelled from the spec: "cloning musical content from the first to the
    last measure": the items of a content whose tick lies in the range. *)
Definition cloneRange (startTick endTick : Fraction) (c : Content) : Content :=
  filter (fun it => ((startTick <=? fst it) && (fst it <=? endTick))%Z) c.

(** [Staff::undoUnlink()] *)
Definition undoUnlink (a : nat) (s : Score) : Score :=
  modifyStaff a (set_staffLinked false) s.

(** Modelled from the spec: the part-removal primitive
    ([Score::undoRemovePart(part)]): the part leaves the part list. *)
Definition undoRemovePart (pid : ID) (s : Score) : Score :=
  set_parts (removeFirst pid (parts s)) s.

Definition notOfPart (pid : ID) (e : option Element) : bool :=
  match e with
  | Some el => negb (String.eqb (elPart el) pid)
  | None => true
  end.

(** Modelled from the spec: [Score::cmdRemovePart(part)], the removal of a
    part with its staves and the elements on them.  Removing a part that the
    score does not hold changes nothing. *)
Definition cmdRemovePart (pid : ID) (s : Score) : Score :=
  if hasPart pid (parts s) then
    set_segments
      (map (fun g => mkSegment (segTick g)
                       (filter (notOfPart pid) (elist g))
                       (filter (notOfPart pid) (annotations g)))
           (segments s))
      (set_parts (removeFirst pid (parts s)) s)
  else s.

(** Modelled from the spec: the part-insertion primitive
    ([Ms::InsertPart(part, staffIdx)]): the part goes in front of the first
    part whose first staff is at or after the given staff index, or to the
    end. *)
Fixpoint insertPart (part : Part) (idx staff : nat) (ps : list Part) : list Part :=
  match ps with
  | [] => [part]
  | p :: ps' =>
      if idx <=? staff then part :: ps
      else p :: insertPart part idx (staff + nstaves p) ps'
  end.

(** Modelled from the spec: "ensures the score has at least one measure of
    music" ([Score::insertMeasure]): a measure is added at the end; the first
    measure of a score starts at tick 0. *)
Definition insertMeasure (s : Score) : Score :=
  set_measures (measures s ++ [last (measures s) 0%Z]) s.

(** [Score::firstMeasure()->tick()] and [Score::lastMeasure()->tick()];
    [None] stands for the null measure of a score without measures. *)
Definition firstMeasure (s : Score) : option Fraction := hd_error (measures s).
Definition lastMeasure (s : Score) : option Fraction :=
  match measures s with
  | [] => None
  | m :: l => Some (last l m)
  end.

(** Modelled from the spec: the element primitives
    ([Score::undoAddElement], [Score::undoRemoveElement]) for annotations.
    An added element joins the annotations of its parent segment, which is
    addressed by its tick. *)
Fixpoint addAnnotation (tick : Fraction) (el : Element) (gs : list Segment) : list Segment :=
  match gs with
  | [] => []
  | g :: gs' =>
      if (segTick g =? tick)%Z
      then set_annotations (annotations g ++ [Some el]) g :: gs'
      else g :: addAnnotation tick el gs'
  end.

Definition undoAddElement (tick : Fraction) (el : Element) (s : Score) : Score :=
  set_segments (addAnnotation tick el (segments s)) s.

Definition notAt (a : nat) (e : option Element) : bool :=
  match e with
  | Some el => negb (Nat.eqb (elAddr el) a)
  | None => true
  end.

Definition undoRemoveElement (a : nat) (s : Score) : Score :=
  set_segments
    (map (fun g => set_annotations (filter (notAt a) (annotations g)) g) (segments s)) s.

(** Modelled from the spec: the "global score-wide error flag read/cleared as
    a side effect of querying selection state".
    [Score::getSelectedChordRest] answers with the selected chord or rest;
    without one it raises [NO_NOTE_REST_SELECTED] and answers null. *)
Definition getSelectedChordRest (w : World) : option ChordRest * World :=
  match selection (scoreAt (current w) w) with
  | Some c => (Some c, w)
  | None => (None, set_error NO_NOTE_REST_SELECTED w)
  end.

(** Modelled from the spec: the number of voices of a staff ("per-voice
    visibility bitset"); the engine's constant [VOICES]. *)
Definition VOICES : nat := 4.

(** Modelled from the spec: the engine's constant [MAX_STAVES], the length
    of the per-staff arrays of an instrument ("bracket/barline span per staff
    index, small-staff flags"). *)
Definition MAX_STAVES : nat := 4.

(** [new Staff(score())]: a staff with the standard staff type, a new
    identifier and nothing else. *)
Definition newStaff (a : nat) : Staff :=
  mkStaff a (makeId a) false false (Some (mkStaffType false)) 0 false [].

(** [Staff::init(staff)]: the layout configuration of another staff. *)
Definition Staff_init (from st : Staff) : Staff :=
  mkStaff (staffAddr st) (staffId st) (staffInvisible from) (staffCutaway from)
    (staffType from) (staffBarLineSpan from) (staffLinked st) (staffContent st).

Definition Staff_setId (sid : ID) (st : Staff) : Staff :=
  mkStaff (staffAddr st) sid (staffInvisible st) (staffCutaway st)
    (staffType st) (staffBarLineSpan st) (staffLinked st) (staffContent st).

Definition Staff_setInvisible (b : bool) (st : Staff) : Staff :=
  mkStaff (staffAddr st) (staffId st) b (staffCutaway st)
    (staffType st) (staffBarLineSpan st) (staffLinked st) (staffContent st).

(** Modelled from the spec: [Excerpt::cloneStaff2(src, dst, start, end)],
    the content-range clone: the destination receives the items of the source
    in the tick range and is linked to the source. *)
Definition cloneStaff2 (from : Staff) (dst : nat) (startTick endTick : Fraction)
  (s : Score) : Score :=
  modifyStaff dst
    (fun st => set_staffLinked true
                 (set_staffContent (cloneRange startTick endTick (staffContent from)) st)) s.

(** ** The editor: [NotationParts] *)

Inductive InsertMode := Before | After.

(** Modelled from the spec: the insert mode that [doMovePart] takes when the
    caller gives none (the default argument is declared in the header): the
    sort phase is to "find and relocate the part that belongs there", that
    is, in front of the misplaced part. *)
Definition doMovePart_defaultMode : InsertMode := Before.

Definition isEmpty {A : Type} (l : list A) : bool :=
  match l with [] => true | _ => false end.

Definition startEdit (w : World) : World := emit StartEdit w.

Definition apply (w : World) : World := emit Apply w.

Definition scoreParts (s : Score) : list Part := parts s.

Definition excerptParts (k : nat) (w : World) : list Part :=
  if negb (isMasterAt k) then []
  else flat_map Excerpt_parts (excerpts w).

Definition availableParts (k : nat) (w : World) : list Part :=
  scoreParts (scoreAt k w) ++ excerptParts k w.

(** [NotationParts::part(partId, score)] *)
Definition partIn (pid : ID) (k : nat) (w : World) : option Part :=
  find (fun p => String.eqb (partId p) pid) (availableParts k w).

(** [NotationParts::part(partId)], on [score()] *)
Definition part (pid : ID) (w : World) : option Part := partIn pid (current w) w.

(** The loop of [partList]; [partIds] is the [QSet<ID>] of identifiers
    already taken. *)
Fixpoint partList_loop (partIds : IDList) (parts_ : list Part) : list Part :=
  match parts_ with
  | [] => []
  | p :: rest =>
      if contains partIds (partId p) then partList_loop partIds rest
      else p :: partList_loop (partId p :: partIds) rest
  end.

Definition partList (w : World) : list Part :=
  partList_loop [] (availableParts (current w) w).

(** A change made through a [Part*] that [part] returned: it reaches the
    first available part with the identifier, in the score or else (for the
    master score) in the part list of an excerpt. *)
Fixpoint modifyFirstExcerpt (pid : ID) (f : Part -> Part) (es : list Excerpt) : list Excerpt :=
  match es with
  | [] => []
  | e :: es' =>
      if hasPart pid (Excerpt_parts e)
      then mkExcerpt (modifyFirst pid f (Excerpt_parts e)) (Excerpt_partScore e) :: es'
      else e :: modifyFirstExcerpt pid f es'
  end.

Definition modifyPart (pid : ID) (f : Part -> Part) (w : World) : World :=
  if hasPart pid (parts (score w))
  then modifyScore (fun s => set_parts (modifyFirst pid f (parts s)) s) w
  else if isMaster w then set_excerpts (modifyFirstExcerpt pid f (excerpts w)) w
  else w.

(** [NotationParts::instruments(fromPart, filterInstrumentsIds)] *)
Definition instruments (fromPart : Part) (filterInstrumentsIds : IDList) : QMap MsInstrument :=
  filter
    (fun e =>
       if negb (isEmpty filterInstrumentsIds)
       then contains filterInstrumentsIds (instrumentId (snd e))
       else true)
    (partInstruments fromPart).

(** [NotationParts::instrumentInfo(instrumentId, fromPart)]; an invalid
    [InstrumentInfo] is [None]. *)
Definition instrumentInfo (iid : ID) (fromPart : option Part) : option (Fraction * MsInstrument) :=
  match fromPart with
  | None => None
  | Some p =>
      find (fun e => String.eqb (instrumentId (snd e)) iid) (instruments p [])
  end.

(** [NotationParts::staff(staffId)] *)
Definition staff (sid : ID) (w : World) : option Staff := Score_staff sid (score w).

(** [NotationParts::staves(part, instrumentId)] *)
Definition stavesOfPart (p : Part) (iid : ID) : list Staff := partStaves p.

(** [NotationParts::staves(stavesIds)]: the staves that resolve, as pointers *)
Fixpoint stavesByIds (stavesIds : IDList) (w : World) : list nat :=
  match stavesIds with
  | [] => []
  | sid :: rest =>
      match staff sid w with
      | Some st => staffAddr st :: stavesByIds rest w
      | None => stavesByIds rest w
      end
  end.

(** [NotationParts::formatPartName] *)
Definition formatPartName (p : Part) : string :=
  String.concat " & " (map trackName (values (instruments p []))).

(** Modelled from the spec: the undo command [Ms::ChangePart(part,
    instrument, name)]: the part receives the instrument as its primary
    instrument and the name. *)
Definition ChangePart (i : MsInstrument) (name : string) (p : Part) : Part :=
  set_partName name (Part_setInstrument i PRIMARY_TICK p).

(** [NotationParts::doSetPartName]: [ChangePart] with a copy of the part's
    own instrument, the one that [part->instrument()] answers, and the new
    name. *)
Definition doSetPartName (pid : ID) (name : string) (w : World) : World :=
  modifyPart pid (fun p => ChangePart (instrument p) name p) w.

Definition renamePart (pid : ID) (w : World) : World :=
  match part pid w with
  | Some p => doSetPartName pid (formatPartName p) w
  | None => w
  end.

(** [NotationParts::instrumentChangeElements(partId)] *)
Definition instrumentChangeElements (pid : ID) (s : Score) : QMap Element :=
  fold_left
    (fun result g =>
       fold_left
         (fun result e =>
            match e with
            | None => result
            | Some el =>
                if negb (String.eqb (elPart el) pid) then result
                else match elKind el with
                     | InstrumentChangeKind _ _ => qmap_insert (segTick g) el result
                     | _ => result
                     end
            end)
         (annotations g) result)
    (segments s) [].

Definition isChordRestOf (pid : ID) (e : option Element) : bool :=
  match e with
  | Some el =>
      String.eqb (elPart el) pid &&
      match elKind el with ChordRestKind => true | _ => false end
  | None => false
  end.

(** [NotationParts::chordRest(fraction, fromPart)] *)
Fixpoint chordRest_loop (fraction : Fraction) (pid : ID) (gs : list Segment) : option ChordRest :=
  match gs with
  | [] => None
  | g :: gs' =>
      match find (isChordRestOf pid) (elist g) with
      | Some (Some el) =>
          if (segTick g =? fraction)%Z
          then Some (mkChordRest (elPart el) (segTick g) (elTrack el))
          else chordRest_loop fraction pid gs'
      | _ => chordRest_loop fraction pid gs'
      end
  end.

Definition chordRest (fraction : Fraction) (pid : ID) (s : Score) : option ChordRest :=
  chordRest_loop fraction pid (segments s).

(** [NotationParts::selectedChord] *)
Definition selectedChord (w : World) : option ChordRest * World :=
  let (chord, w) := getSelectedChordRest w in
  let w :=
    match error w with
    | NO_NOTE_REST_SELECTED => set_error MS_NO_ERROR w
    | _ => w
    end in
  (chord, w).

(** [NotationParts::needAssignInstrumentToChord] *)
Definition needAssignInstrumentToChord (iid fromPartId : ID) (w : World) : bool :=
  match part fromPartId w with
  | None => false
  | Some p =>
      let isMainInstrument := String.eqb (Part_instrumentId p) iid in
      if isMainInstrument then false
      else
        negb (existsb
                (fun instrumentChange =>
                   match elKind instrumentChange with
                   | InstrumentChangeKind i _ => String.eqb (instrumentId i) iid
                   | _ => false
                   end)
                (values (instrumentChangeElements fromPartId (score w))))
  end.

(** [NotationParts::resolveCanChangeInstrumentVisibility] *)
Definition resolveCanChangeInstrumentVisibility (iid fromPartId : ID) (w : World)
  : bool * World :=
  if negb (needAssignInstrumentToChord iid fromPartId w) then (true, w)
  else
    let (chord, w) := selectedChord w in
    (match chord with
     | Some c => String.eqb (crPart c) fromPartId
     | None => false
     end, w).

(** [NotationParts::assignIstrumentToSelectedChord] *)
Definition assignIstrumentToSelectedChord (i : MsInstrument) (w : World) : World :=
  let (chord, w) := selectedChord w in
  match chord with
  | None => w
  | Some chord =>
      let w := startEdit w in
      let part_ := crPart chord in
      let w := modifyPart part_ (Part_removeInstrument (instrumentId i)) w in
      let w := modifyPart part_ (Part_setInstrument i (crTick chord)) w in
      let instrumentChange :=
        mkElement (nextAddr w) part_ ((crTrack chord / VOICES) * VOICES)
          (InstrumentChangeKind i true) in
      let w := set_nextAddr (S (nextAddr w)) w in
      let w := modifyScore (undoAddElement (crTick chord) instrumentChange) w in
      let w := apply w in
      let w := emit (PartNotifierItemChanged part_ (instrumentId i)) w in
      emit PartsChangedNotify w
  end.

(** [NotationParts::doSetStaffVisible] *)
Definition doSetStaffVisible (a : nat) (visible : bool) (w : World) : World :=
  modifyScore (modifyStaff a (Staff_setInvisible (negb visible))) w.

(** [NotationParts::setInstrumentVisible] *)
Definition setInstrumentVisible (iid fromPartId : ID) (visible : bool) (w : World) : World :=
  match part fromPartId w with
  | None => w
  | Some p =>
      if Bool.eqb (partShow p) visible then w
      else
        match instrumentInfo iid (Some p) with
        | None => w
        | Some (_, i) =>
            if needAssignInstrumentToChord iid fromPartId w
            then assignIstrumentToSelectedChord i w
            else
              let w := startEdit w in
              let w :=
                fold_left (fun w st => doSetStaffVisible (staffAddr st) visible w)
                  (stavesOfPart p iid) w in
              let w := apply w in
              let w := emit (PartNotifierItemChanged fromPartId (instrumentId i)) w in
              emit PartsChangedNotify w
        end
  end.

(** The first loop of [doMoveStaves]: one staff is cloned into its
    destination.  [destinationPart] is the optional [Part*] argument. *)
Definition doMoveStaves_clone (destinationPart : option ID) (acc : World * Z) (a : nat)
  : World * Z :=
  let (w, destinationStaffIndex) := acc in
  match findStaff a (score w), ownerOf a (parts (score w)) with
  | Some staff_, Some owner =>
      let movedStaff := clone (nextAddr w) staff_ in
      let w := set_nextAddr (S (nextAddr w)) w in
      let movedPart :=
        match destinationPart with
        | Some d => d
        | None => owner
        end in
      let needUnlink := negb (staffLinked staff_) in
      let w := modifyScore (undoInsertStaff movedPart movedStaff destinationStaffIndex) w in
      let w := modifyScore (cloneStaff a (staffAddr movedStaff)) w in
      let w :=
        if needUnlink then modifyScore (undoUnlink (staffAddr movedStaff)) w else w in
      (w, (destinationStaffIndex + 1)%Z)
  | _, _ => acc
  end.

(** [NotationParts::doMoveStaves] *)
Definition doMoveStaves (staves : list nat) (destinationStaffIndex : Z)
  (destinationPart : option ID) (w : World) : World :=
  let w := fst (fold_left (doMoveStaves_clone destinationPart) staves (w, destinationStaffIndex)) in
  fold_left (fun w a => modifyScore (undoRemoveStaff a) w) staves w.

(** [NotationParts::doMovePart] *)
Definition doMovePart (sourcePartId destinationPartId : ID) (mode : InsertMode) (w : World)
  : World :=
  match part sourcePartId w, part destinationPartId w with
  | Some part_, Some _ =>
      let partIsBefore :=
        staffIdx sourcePartId (parts (score w)) <? staffIdx destinationPartId (parts (score w)) in
      let staves := map staffAddr (partStaves part_) in
      let destinationStaffIndex :=
        if partIsBefore then Z.of_nat (List.length staves) else 0%Z in
      let w := modifyScore (undoRemovePart sourcePartId) w in
      let toPartIndex := indexOfPart destinationPartId (parts (score w)) in
      let newPartIndex :=
        match mode with
        | Before => toPartIndex
        | After => (toPartIndex + 1)%Z
        end in
      let w := modifyScore (fun s => set_parts (insertAtZ newPartIndex part_ (parts s)) s) w in
      let instruments_ := partInstruments part_ in
      let w := doMoveStaves staves destinationStaffIndex None w in
      modifyPart sourcePartId (set_partInstruments instruments_) w
  | _, _ => w
  end.

(** [NotationParts::moveParts] *)
Definition moveParts (sourcePartsIds : IDList) (destinationPartId : ID) (mode : InsertMode)
  (w : World) : World :=
  let w := startEdit w in
  let w :=
    fold_left (fun w sourcePartId => doMovePart sourcePartId destinationPartId mode w)
      sourcePartsIds w in
  let w := apply w in
  emit PartsChangedNotify w.

(** [NotationParts::moveStaves] *)
Definition moveStaves (sourceStavesIds : IDList) (destinationStaffId : ID) (mode : InsertMode)
  (w : World) : World :=
  if isEmpty sourceStavesIds then w
  else
    match staff destinationStaffId w with
    | None => w
    | Some destinationStaff =>
        let staves := stavesByIds sourceStavesIds w in
        match ownerOf (staffAddr destinationStaff) (parts (score w)) with
        | None => w
        | Some destinationPart =>
            let idx := Z.of_nat (Staff_idx (staffAddr destinationStaff) (score w)) in
            let destinationStaffIndex :=
              match mode with
              | Before => idx
              | After => (idx + 1)%Z
              end in
            let destinationStaffIndex :=
              (destinationStaffIndex - Z.of_nat (staffIdx destinationPart (parts (score w))))%Z in
            let w := startEdit w in
            let w := doMoveStaves staves destinationStaffIndex (Some destinationPart) w in
            let w := apply w in
            emit PartsChangedNotify w
        end
    end.

(** [NotationParts::notifyAboutStaffChanged] *)
Definition notifyAboutStaffChanged (sid : ID) (w : World) : World :=
  match staff sid w with
  | None => w
  | Some st =>
      match ownerOf (staffAddr st) (parts (score w)) with
      | None => w
      | Some owner =>
          match part owner w with
          | None => w
          | Some p => emit (InstrumentNotifierItemChanged owner (Part_instrumentId p) sid) w
          end
      end
  end.

(** [NotationParts::setCutawayEnabled] *)
Definition setCutawayEnabled (sid : ID) (enabled : bool) (w : World) : World :=
  match staff sid w with
  | None => w
  | Some st =>
      let w := startEdit w in
      let w := modifyScore (modifyStaff (staffAddr st) (set_staffCutaway enabled)) w in
      let w := apply w in
      let w := notifyAboutStaffChanged sid w in
      emit PartsChangedNotify w
  end.

(** [NotationParts::setSmallStaff].  The staff type is read through the
    staff pointer before the pointer is tested. *)
Definition setSmallStaff (sid : ID) (smallStaff : bool) (w : World) : Outcome :=
  match staff sid w with
  | None => Crashed NullDereference
  | Some st =>
      match staffType st with
      | None => Done w
      | Some _ =>
          let w := startEdit w in
          let w :=
            modifyScore
              (modifyStaff (staffAddr st) (set_staffType (Some (mkStaffType smallStaff)))) w in
          let w := apply w in
          let w := notifyAboutStaffChanged sid w in
          Done (emit PartsChangedNotify w)
      end
  end.

(** [NotationParts::setPartName] *)
Definition setPartName (pid : ID) (name : string) (w : World) : World :=
  match part pid w with
  | None => w
  | Some p =>
      if String.eqb (partName p) name then w
      else
        let w := startEdit w in
        let w := doSetPartName pid name w in
        let w := apply w in
        let w := emit (PartsNotifierItemChanged pid) w in
        emit PartsChangedNotify w
  end.

(** [NotationParts::appendDoublingInstrument] *)
Definition appendDoublingInstrument (i : Instrument) (destinationPartId : ID) (w : World)
  : World :=
  match part destinationPartId w with
  | None => w
  | Some p =>
      let lastTick :=
        fold_left (fun lastTick fraction => Z.max (ticks fraction) lastTick)
          (keys (instruments p [])) 1%Z in
      let w := startEdit w in
      let w :=
        modifyPart destinationPartId
          (Part_setInstrument (convertInstrument i) (fromTicks (wrap_int (lastTick + 1)))) w in
      let w := renamePart destinationPartId w in
      let w := apply w in
      let w := emit (PartNotifierItemAdded destinationPartId (instrument_id i)) w in
      let w := emit (PartsNotifierItemChanged destinationPartId) w in
      emit PartsChangedNotify w
  end.

(** [score()->scoreList()]: the master score and the part scores of its
    excerpts. *)
Definition scoreList (w : World) : list nat := 0 :: map Excerpt_partScore (excerpts w).

(** [NotationParts::doRemoveParts] *)
Definition doRemoveParts (partsIds : IDList) (w : World) : World :=
  fold_left
    (fun w pid =>
       let w := modifyScore (cmdRemovePart pid) w in
       if negb (isMaster w) then w
       else
         fold_left
           (fun w k =>
              if Nat.eqb k (current w) then w
              else modifyScoreAt k (cmdRemovePart pid) w)
           (scoreList w) w)
    partsIds w.

(** [NotationParts::removeParts] *)
Definition removeParts (partsIds : IDList) (w : World) : World :=
  if isEmpty partsIds then w
  else
    let w := startEdit w in
    let w := doRemoveParts partsIds w in
    let w := apply w in
    emit PartsChangedNotify w.

(** [NotationParts::doRemoveInstruments]; [fromPart] is the identifier behind
    the [Part*]. *)
Definition doRemoveInstruments (instrumentIds : IDList) (fromPart : ID) (w : World) : World :=
  let instrumentChangeElements_ := instrumentChangeElements fromPart (score w) in
  fold_left
    (fun w iid =>
       match instrumentInfo iid (part fromPart w) with
       | None => w
       | Some (fraction, _) =>
           let w :=
             match qmap_value fraction instrumentChangeElements_ with
             | Some instrumentChange =>
                 modifyScore (undoRemoveElement (elAddr instrumentChange)) w
             | None => w
             end in
           modifyPart fromPart (Part_removeInstrument iid) w
       end)
    instrumentIds w.

(** [NotationParts::notifyAboutInstrumentsChanged] *)
Definition notifyAboutInstrumentsChanged (pid : ID) (w : World) : World :=
  match part pid w with
  | None => w
  | Some p =>
      fold_left (fun w i => emit (PartNotifierItemChanged pid (instrumentId i)) w)
        (values (instruments p [])) w
  end.

(** The search for the destination instrument in [doInsertInstruments]:
    the index of the first instrument with the identifier, 0 without one. *)
Fixpoint destinationIndexOf (iid : ID) (l : list MsInstrument) : option nat :=
  match l with
  | [] => None
  | i :: l' =>
      if String.eqb (instrumentId i) iid then Some 0
      else option_map S (destinationIndexOf iid l')
  end.

(** [partInstruments.insert(newInstrumentIndex++, ...)] for each moved
    instrument. *)
Fixpoint insertAll {A : Type} (i : nat) (xs l : list A) : list A :=
  match xs with
  | [] => l
  | x :: xs' => insertAll (S i) xs' (insertAt i x l)
  end.

(** The loop over the moved ticks in [doInsertInstruments]. *)
Definition appendFraction (partInstrumentsFractions : list Fraction) (fraction : Fraction)
  : list Fraction :=
  if containsTick partInstrumentsFractions fraction
  then partInstrumentsFractions ++
         [fromTicks (wrap_int (ticks (last partInstrumentsFractions 0%Z) + 1))]
  else partInstrumentsFractions ++ [fraction].

(** [InstrumentChange::setupInstrument] *)
Definition setupInstrument (i : MsInstrument) (el : Element) : Element :=
  match elKind el with
  | InstrumentChangeKind _ init => mkElement (elAddr el) (elPart el) (elTrack el)
                                     (InstrumentChangeKind i init)
  | _ => el
  end.

(** The body of the last loop of [doInsertInstruments]. *)
Definition doInsertInstruments_assign (destinationPart : ID)
  (instrumentChangeElements_ : QMap Element) (w : World) (e : MsInstrument * Fraction)
  : World :=
  let (instrument_, fraction) := e in
  let (instrumentChange, w) :=
    match qmap_value fraction instrumentChangeElements_ with
    | Some ic => (Some ic, modifyScore (undoRemoveElement (elAddr ic)) w)
    | None =>
        match chordRest fraction destinationPart (score w) with
        | Some chordRest_ =>
            (Some (mkElement (nextAddr w) destinationPart
                     ((crTrack chordRest_ / VOICES) * VOICES)
                     (InstrumentChangeKind instrument_ true)),
             set_nextAddr (S (nextAddr w)) w)
        | None => (None, emit (LogError "Not found chord rest for instrument") w)
        end
    end in
  let w := modifyPart destinationPart (Part_setInstrument instrument_ fraction) w in
  match instrumentChange with
  | Some ic => modifyScore (undoAddElement fraction (setupInstrument instrument_ ic)) w
  | None => w
  end.

(** [NotationParts::doInsertInstruments] *)
Definition doInsertInstruments (instruments_ : QMap MsInstrument)
  (destinationPartId destinationInstrumentId : ID) (mode : InsertMode) (w : World) : World :=
  match part destinationPartId w with
  | None => w
  | Some destinationPart =>
      let partInstrumentsMap := instruments destinationPart [] in
      let partInstrumentsFractions := keys partInstrumentsMap in
      let partInstruments := values partInstrumentsMap in
      let destinationIndex :=
        match destinationIndexOf destinationInstrumentId partInstruments with
        | Some i => i
        | None => 0
        end in
      let newInstrumentIndex :=
        match mode with
        | Before => destinationIndex
        | After => destinationIndex + 1
        end in
      let partInstruments := insertAll newInstrumentIndex (values instruments_) partInstruments in
      let partInstrumentsFractions :=
        fold_left appendFraction (keys instruments_) partInstrumentsFractions in
      let partInstrumentsFractions := sortTicks partInstrumentsFractions in
      let w :=
        if 0 <? List.length partInstrumentsFractions
        then modifyPart destinationPartId
               (Part_setInstrument (nth 0 partInstruments defaultInstrument) PRIMARY_TICK) w
        else w in
      let instrumentChangeElements_ := instrumentChangeElements destinationPartId (score w) in
      let w :=
        fold_left (doInsertInstruments_assign destinationPartId instrumentChangeElements_)
          (combine (tl partInstruments) (tl partInstrumentsFractions)) w in
      renamePart destinationPartId w
  end.

(** [NotationParts::moveInstruments] *)
Definition moveInstruments (sourceInstrumentsIds : IDList)
  (sourcePartId destinationPartId destinationInstrumentId : ID) (mode : InsertMode)
  (w : World) : World :=
  match part sourcePartId w, part destinationPartId w with
  | Some fromPart, Some _ =>
      let samePart := String.eqb sourcePartId destinationPartId in
      let movingInstruments := instruments fromPart sourceInstrumentsIds in
      let w := startEdit w in
      let w := doRemoveInstruments sourceInstrumentsIds sourcePartId w in
      let w :=
        doInsertInstruments movingInstruments destinationPartId destinationInstrumentId mode w in
      let w := renamePart sourcePartId w in
      let w := if negb samePart then renamePart destinationPartId w else w in
      let w := apply w in
      let w := emit (PartsNotifierItemChanged sourcePartId) w in
      let w := notifyAboutInstrumentsChanged sourcePartId w in
      let w :=
        if negb samePart
        then emit (PartsNotifierItemChanged destinationPartId)
               (notifyAboutInstrumentsChanged destinationPartId w)
        else w in
      emit PartsChangedNotify w
  | _, _ => w
  end.

(** The master-index lookup of [resolvePartIndex]. *)
Definition findMasterPartIndex (pid : ID) (w : World) : Z :=
  indexOfPart pid (parts (masterScore w)).

Fixpoint resolvePartIndex_loop (originPartIndex : Z) (w : World) (scoreParts_ : list Part)
  (i : nat) : option nat :=
  match scoreParts_ with
  | [] => None
  | scorePart :: rest =>
      if (findMasterPartIndex (partId scorePart) w <? originPartIndex)%Z
      then resolvePartIndex_loop originPartIndex w rest (S i)
      else Some i
  end.

(** [NotationParts::resolvePartIndex] *)
Definition resolvePartIndex (p : Part) (w : World) : nat :=
  let scoreParts_ := parts (score w) in
  let originPartIndex := findMasterPartIndex (partId p) w in
  match resolvePartIndex_loop originPartIndex w scoreParts_ 0 with
  | Some i => i
  | None => List.length scoreParts_
  end.

(** The copy of one staff in [appendPart]. *)
Definition staffCopyOf (a : nat) (st : Staff) : Staff :=
  Staff_init st (Staff_setId (staffId st) (newStaff a)).

(** The loop over the staves in [appendPart]; [partCopy] is the identifier
    of the copy. *)
Fixpoint appendPart_staves (partCopy : ID) (staffIndex : nat) (staves : list Staff)
  (w : World) : Outcome :=
  match staves with
  | [] => Done w
  | staff_ :: rest =>
      let staffCopy := staffCopyOf (nextAddr w) staff_ in
      let w := set_nextAddr (S (nextAddr w)) w in
      let w := modifyScore (undoInsertStaff partCopy staffCopy (Z.of_nat staffIndex)) w in
      match firstMeasure (score w), lastMeasure (score w) with
      | Some startTick, Some endTick =>
          let w :=
            modifyScore (cloneStaff2 staff_ (staffAddr staffCopy) startTick endTick) w in
          appendPart_staves partCopy (S staffIndex) rest w
      | _, _ => Crashed NullDereference
      end
  end.

(** [NotationParts::appendPart] *)
Definition appendPart (p : Part) (w : World) : Outcome :=
  let w := startEdit w in
  let partCopy := set_partStaves [] p in
  let partIndex := resolvePartIndex p w in
  let w := modifyScore (fun s => set_parts (insertAt partIndex partCopy (parts s)) s) w in
  andThen (appendPart_staves (partId partCopy) 0 (partStaves p) w) (fun w =>
  let w := apply w in
  let w := emit (PartsNotifierItemChanged (partId p)) w in
  Done (emit PartsChangedNotify w)).

(** [NotationParts::setPartVisible] *)
Definition setPartVisible (pid : ID) (visible : bool) (w : World) : Outcome :=
  match part pid w with
  | Some p =>
      if Bool.eqb (partShow p) visible then Done w
      else
        let w := startEdit w in
        let w := modifyPart pid (set_partShow visible) w in
        let w := apply w in
        let w := emit (PartsNotifierItemChanged pid) w in
        Done (emit PartsChangedNotify w)
  | None =>
      if negb visible then Done w
      else
        match partIn pid 0 w with
        | None => Done w
        | Some p => appendPart p w
        end
  end.

(** [NotationParts::lastStaffIndex] *)
Definition lastStaffIndex (w : World) : nat :=
  match scoreStaves (score w) with
  | [] => 0
  | st :: l => Staff_idx (staffAddr (last l st)) (score w)
  end.

(** [NotationParts::initStaff], with the standard staff type preset; the
    bracket and clef defaults of the instrument are not modelled. *)
Definition initStaff (st : Staff) (i : Instrument) (cleffIndex : nat) : Staff :=
  if MAX_STAVES <=? cleffIndex
  then set_staffType (Some (mkStaffType false)) st
  else
    set_staffBarLineSpan (nth cleffIndex (instrument_barlineSpan i) 0)
      (set_staffType (Some (mkStaffType (nth cleffIndex (instrument_smallStaff i) false))) st).

(** [NotationParts::appendStaves]; [n] counts the staves still to append. *)
Fixpoint appendStaves_loop (n staffIndex : nat) (part_ : ID) (i : Instrument) (w : World)
  : World :=
  match n with
  | O => w
  | S n' =>
      let lastStaffIndex_ := lastStaffIndex w in
      let staff_ := newStaff (nextAddr w) in
      let w := set_nextAddr (S (nextAddr w)) w in
      let staff_ := initStaff staff_ i staffIndex in
      let staff_ :=
        if 0 <? lastStaffIndex_
        then match nth_error (scoreStaves (score w)) (lastStaffIndex_ - 1) with
             | Some prev => set_staffBarLineSpan (staffBarLineSpan prev) staff_
             | None => staff_
             end
        else staff_ in
      let w := modifyScore (undoInsertStaff part_ staff_ (Z.of_nat staffIndex)) w in
      appendStaves_loop n' (S staffIndex) part_ i w
  end.

Definition appendStaves (part_ : ID) (i : Instrument) (w : World) : World :=
  appendStaves_loop (instrument_staves i) 0 part_ i w.

(** The identifiers of the instruments of a part that the new list lacks. *)
Definition instrumentsToRemoveOf (newInstrumentIds : IDList) (p : Part) : IDList :=
  filter (fun iid => negb (contains newInstrumentIds iid))
    (map instrumentId (values (instruments p []))).

(** The body of the loop of [removeMissingInstruments]; the loop runs over
    the pointers that [partList] returned, here the identifiers behind
    them. *)
Definition removeMissingInstruments_step (newInstrumentIds : IDList)
  (acc : IDList * World) (pid : ID) : IDList * World :=
  let (partsToRemove, w) := acc in
  match part pid w with
  | None => acc
  | Some p =>
      let partInstruments_ := instruments p [] in
      let instrumentsToRemove := instrumentsToRemoveOf newInstrumentIds p in
      let removeAllInstruments :=
        List.length instrumentsToRemove =? List.length partInstruments_ in
      if removeAllInstruments then (partsToRemove ++ [partId p], w)
      else (partsToRemove, doRemoveInstruments instrumentsToRemove pid w)
  end.

(** [NotationParts::removeMissingInstruments] *)
Definition removeMissingInstruments (newInstrumentIds : IDList) (w : World) : World :=
  let (partsToRemove, w) :=
    fold_left (removeMissingInstruments_step newInstrumentIds)
      (map partId (partList w)) ([], w) in
  doRemoveParts partsToRemove w.

(** [NotationParts::allInstrumentsIds] *)
Definition allInstrumentsIds (w : World) : IDList :=
  flat_map (fun p => map instrumentId (values (instruments p []))) (partList w).

(** [NotationParts::removeEmptyExcerpts] *)
Definition removeEmptyExcerpts (w : World) : World :=
  set_excerpts
    (filter (fun e => negb (isEmpty (scoreStaves (scoreAt (Excerpt_partScore e) w))))
       (excerpts w)) w.

(** The lambda [mainInstrumentId] of [sortParts]. *)
Definition mainInstrumentId (p : Part) : ID := instrumentId (instrument p).

(** The loop of [sortParts]; [i] is the index of the identifier at the head
    of [instrumentIds]. *)
Fixpoint sortParts_loop (i : nat) (instrumentIds : IDList) (w : World) : Outcome :=
  match instrumentIds with
  | [] => Done w
  | iid :: rest =>
      match nth_error (parts (score w)) i with
      | None => Crashed AssertionFailed
      | Some currentPart =>
          if String.eqb (mainInstrumentId currentPart) iid
          then sortParts_loop (S i) rest w
          else
            match find (fun p => String.eqb (mainInstrumentId p) iid)
                    (skipn i (parts (score w))) with
            | Some part_ =>
                sortParts_loop (S i) rest
                  (doMovePart (partId part_) (partId currentPart) doMovePart_defaultMode w)
            | None => sortParts_loop (S i) rest w
            end
      end
  end.

(** [NotationParts::sortParts] *)
Definition sortParts (instrumentIds : IDList) (w : World) : Outcome :=
  if List.length (parts (score w)) =? List.length instrumentIds
  then sortParts_loop 0 instrumentIds w
  else Crashed AssertionFailed.

(** The body of the creation loop of [setInstruments]. *)
Definition setInstruments_create (existedInstrumentIds : IDList) (w : World) (i : Instrument)
  : World :=
  let isInstrumentExist :=
    negb (isEmpty existedInstrumentIds) && contains existedInstrumentIds (instrument_id i) in
  if isInstrumentExist then w
  else
    let part_ := mkPart (makeId (nextAddr w)) EmptyString true [] [] in
    let w := set_nextAddr (S (nextAddr w)) w in
    let part_ := set_partName (instrument_name i) part_ in
    let part_ := Part_setInstrument (convertInstrument i) PRIMARY_TICK part_ in
    let w :=
      modifyScore (fun s => set_parts (insertPart part_ (lastStaffIndex w) 0 (parts s)) s) w in
    appendStaves (partId part_) i w.

(** [NotationParts::setInstruments] *)
Definition setInstruments (instruments_ : list Instrument) (w : World) : Outcome :=
  let instrumentIds := map instrument_id instruments_ in
  let w := startEdit w in
  let w := removeMissingInstruments instrumentIds w in
  let existedInstrumentIds := allInstrumentsIds w in
  let w := fold_left (setInstruments_create existedInstrumentIds) instruments_ w in
  let w := if isEmpty (measures (score w)) then modifyScore insertMeasure w else w in
  andThen (sortParts instrumentIds w) (fun w =>
  let w := removeEmptyExcerpts w in
  let w := apply w in
  let w := emit PartsNotifierChanged w in
  Done (emit PartsChangedNotify w)).

(** ** Statements in the words of the specification *)

(** "Listing operations must de-duplicate by identifier while preserving
    first-seen order": the first part is kept, and the later parts with its
    identifier are dropped from the listing of the rest. *)
Fixpoint firstSeen (ps : list Part) : list Part :=
  match ps with
  | [] => []
  | p :: rest =>
      p :: filter (fun q => negb (String.eqb (partId q) (partId p))) (firstSeen rest)
  end.

(** "Tick = max existing tick + 1": the greatest key of a mapping, and the
    statement that a call of [appendDoublingInstrument] on an existing part
    adds one entry exactly one tick after it. *)
Definition greatestTick (l : list Fraction) : Z :=
  match l with
  | [] => 0%Z
  | k :: l' => fold_right Z.max k l'
  end.

Definition appendedAfterGreatestTick (i : Instrument) (pid : ID) (w : World) : Prop :=
  forall p, part pid w = Some p ->
  exists p',
    part pid (appendDoublingInstrument i pid w) = Some p' /\
    partInstruments p' =
      partInstruments p ++
        [((greatestTick (keys (partInstruments p)) + 1)%Z, convertInstrument i)].

(** What [appendDoublingInstrument] computes as [lastTick]: the greatest
    tick, but at least 1. *)
Definition lastTickOf (l : list Fraction) : Z := fold_right Z.max 1%Z l.

(** ** Example scores *)

Definition violin : MsInstrument := mkMsInstrument "violin" "Violin".
Definition viola : MsInstrument := mkMsInstrument "viola" "Viola".
Definition flute : MsInstrument := mkMsInstrument "flute" "Flute".

Definition violinSpec : Instrument := mkInstrument "violin" "Violin" 1 [false] [1].
Definition violaSpec : Instrument := mkInstrument "viola" "Viola" 1 [false] [1].

Definition exampleStaff (a : nat) (sid : ID) (c : Content) : Staff :=
  mkStaff a sid false false (Some (mkStaffType false)) 1 false c.

(** A master score with the single part "Violin" on one staff, one measure
    and one chord at tick 0; nothing is selected. *)
Definition violinPart : Part :=
  mkPart "Violin" "Violin" true [(0%Z, violin)]
    [exampleStaff 1 "staff-1" [(0%Z, "c4"%string)]].

Definition violinScore : Score :=
  mkScore [violinPart] [0%Z]
    [mkSegment 0%Z [Some (mkElement 2 "Violin" 0 ChordRestKind)] []] None.

Definition violinWorld : World :=
  mkWorld [violinScore] 0 [] MS_NO_ERROR 10 [].

(** A score with two parts.  "Violin" carries the doubling instrument viola
    at tick 2, which no InstrumentChange activates yet; the selected chord
    belongs to the other part, "Flute". *)
Definition violinViolaPart : Part :=
  mkPart "Violin" "Violin & Viola" true [(0%Z, violin); (2%Z, viola)]
    [exampleStaff 1 "staff-1" [(0%Z, "c4"%string)]].

Definition flutePart : Part :=
  mkPart "Flute" "Flute" true [(0%Z, flute)]
    [exampleStaff 2 "staff-2" [(0%Z, "e5"%string)]].

Definition duoScore : Score :=
  mkScore [violinViolaPart; flutePart] [0%Z]
    [mkSegment 0%Z
       [Some (mkElement 3 "Violin" 0 ChordRestKind);
        Some (mkElement 4 "Flute" 4 ChordRestKind)] []]
    (Some (mkChordRest "Flute" 0%Z 4)).

Definition duoWorld : World := mkWorld [duoScore] 0 [] MS_NO_ERROR 10 [].

(** A score with the parts "A" (violin, then oboe at tick 2 and horn at
    tick 3) and "B" (flute, then viola at tick 3). *)
Definition oboe : MsInstrument := mkMsInstrument "oboe" "Oboe".
Definition horn : MsInstrument := mkMsInstrument "horn" "Horn".

Definition partA : Part :=
  mkPart "A" "Violin & Oboe & Horn" true [(0%Z, violin); (2%Z, oboe); (3%Z, horn)]
    [exampleStaff 1 "staff-1" []].

Definition partB : Part :=
  mkPart "B" "Flute & Viola" true [(0%Z, flute); (3%Z, viola)]
    [exampleStaff 2 "staff-2" []].

Definition abWorld : World :=
  mkWorld [mkScore [partA; partB] [0%Z] [] None] 0 [] MS_NO_ERROR 10 [].

(** "If the target tick already has an occupant, the incoming entry's tick
    is bumped by one to avoid the collision rather than replacing anything
    ... with no tick collision in the result": after a move in Before mode
    the destination holds every entry it had and one entry per moved
    instrument, and every tick of the result is an old tick of the
    destination, an incoming tick, or an incoming tick plus one. *)
Definition movedWithoutCollision (ids : IDList) (a b y : ID) (w : World) : Prop :=
  forall A B, part a w = Some A -> part b w = Some B ->
  exists B',
    part b (moveInstruments ids a b y Before w) = Some B' /\
    List.length (partInstruments B') =
      List.length (partInstruments B) + List.length (instruments A ids) /\
    forall t, In t (keys (partInstruments B')) ->
      In t (keys (partInstruments B)) \/
      exists t0, In t0 (keys (instruments A ids)) /\ (t = t0 \/ t = (t0 + 1)%Z).

(** "The part and its staves are deep-cloned into the current score, cloning
    musical content from the first to the last measure": the copies of the
    staves of a part, at consecutive new addresses, each with the identifier
    and layout of its original and the original's content in the tick
    range. *)
Fixpoint materializedStaves (a : nat) (startTick endTick : Fraction) (staves : list Staff)
  : list Staff :=
  match staves with
  | [] => []
  | st :: rest =>
      set_staffLinked true
        (set_staffContent (cloneRange startTick endTick (staffContent st))
           (staffCopyOf a st))
      :: materializedStaves (S a) startTick endTick rest
  end.


(** The score at [score()] replaced as a whole. *)
Definition putScore (s : Score) (w : World) : World := modifyScore (fun _ => s) w.

(** Parts over two measures: the "Violin" of a master score and the "Flute"
    of a part score. *)
Definition twoMeasureViolin : Part :=
  mkPart "Violin" "Violin" true [(0%Z, violin)]
    [exampleStaff 1 "staff-1" [(0%Z, "c4"%string); (1920%Z, "d4"%string); (4000%Z, "e4"%string)]].

Definition excerptFlute : Part :=
  mkPart "Flute" "Flute" true [(0%Z, flute)]
    [exampleStaff 5 "staff-2" [(0%Z, "e5"%string)]].




(** What [doMoveStaves] leaves at the destination for one staff: the clone
    at a new address, with the content and the link state of the original. *)
Definition movedCopy (a : nat) (st : Staff) : Staff :=
  mkStaff a (staffId st) (staffInvisible st) (staffCutaway st) (staffType st)
    (staffBarLineSpan st) (staffLinked st) (staffContent st).

Fixpoint movedCopies (a : nat) (srcs : list Staff) : list Staff :=
  match srcs with
  | [] => []
  | st :: rest => movedCopy a st :: movedCopies (S a) rest
  end.

(** The identifier of a staff together with its musical content. *)
Definition idContent (st : Staff) : ID * Content := (staffId st, staffContent st).

(** The staves whose address is not among the given ones. *)
Definition notAmong (l : list nat) (st : Staff) : bool :=
  negb (existsb (Nat.eqb (staffAddr st)) l).

Definition withoutStaves (l : list nat) (p : Part) : Part :=
  set_partStaves (filter (notAmong l) (partStaves p)) p.

(** The staves behind [NotationParts::staves(stavesIds)]. *)
Fixpoint resolveStaves (stavesIds : IDList) (w : World) : list Staff :=
  match stavesIds with
  | [] => []
  | sid :: rest =>
      match staff sid w with
      | Some st => st :: resolveStaves rest w
      | None => resolveStaves rest w
      end
  end.

(** "The total staff count across A and B together": the staves of the
    parts of a score whose identifier is in a given list. *)
Definition regionStaves (region : IDList) (s : Score) : list Staff :=
  flat_map partStaves (filter (fun p => contains region (partId p)) (parts s)).

(** A score with the parts "Strings" (two staves) and "Winds" (one
    staff). *)
Definition stringsPart : Part :=
  mkPart "Strings" "Violin" true [(0%Z, violin)]
    [exampleStaff 1 "staff-1" [(0%Z, "c4"%string)];
     exampleStaff 2 "staff-2" [(0%Z, "g3"%string); (480%Z, "a3"%string)]].

Definition windsPart : Part :=
  mkPart "Winds" "Flute" true [(0%Z, flute)]
    [exampleStaff 3 "staff-3" [(0%Z, "e5"%string)]].

Definition stringsWindsWorld : World :=
  mkWorld [mkScore [stringsPart; windsPart] [0%Z] [] None] 0 [] MS_NO_ERROR 10 [].

(** What the last loop of [doInsertInstruments] does to the mapping of the
    destination part: one [Part::setInstrument] per pair. *)
Definition assignAll (l : list (MsInstrument * Fraction)) (m : QMap MsInstrument)
  : QMap MsInstrument :=
  fold_left (fun m e => qmap_insert (ticks (snd e)) (fst e) m) l m.

(** The tick that [doInsertInstruments] adds to the tick list of the
    destination for an incoming tick: the incoming tick when it is free,
    the last tick of the list plus one when it is taken. *)
Definition incomingTick (K : list Fraction) (tx : Fraction) : Fraction :=
  if containsTick K tx then (last K 0 + 1)%Z else tx.

(** ** Repeating [setInstruments] *)

(** What [setInstruments] looks at in a part: its identifier and its
    instrument mapping. *)
Definition idAndInstruments (p : Part) : ID * QMap MsInstrument :=
  (partId p, partInstruments p).

(** The worlds the editor works on: [score()] is a score of the store; the
    parts of a score have distinct identifiers; an excerpt of the master
    lists parts of the master; and the identifiers of the parts are older
    than the address counter, so that the identifier of a new part is new. *)
Definition wellFormed (w : World) : Prop :=
  current w < List.length (scores w) /\
  Forall (fun s => NoDup (map partId (parts s))) (scores w) /\
  Forall (fun q => In q (parts (score w))) (excerptParts (current w) w) /\
  Forall (fun p => String.length (partId p) <= nextAddr w) (parts (score w)).

(** The test [removeAllInstruments] of [removeMissingInstruments]. *)
Definition allMissing (newInstrumentIds : IDList) (p : Part) : bool :=
  List.length (instrumentsToRemoveOf newInstrumentIds p) =? List.length (instruments p []).

(** No score that [doRemoveParts] visits holds a part with the identifier. *)
Definition absentEverywhere (pid : ID) (w : World) : Prop :=
  hasPart pid (parts (score w)) = false /\
  (isMaster w = true ->
   forall k, In k (scoreList w) -> hasPart pid (parts (scoreAt k w)) = false).

(** The loop of [sortParts] finds nothing to move from index [i] on: the
    part at each index has the wanted main instrument, or no part from that
    index on has it. *)
Fixpoint stable (i : nat) (instrumentIds : IDList) (mains : IDList) : Prop :=
  match instrumentIds with
  | [] => True
  | iid :: rest =>
      (exists m, nth_error mains i = Some m /\ (m = iid \/ ~ In iid (skipn i mains))) /\
      stable (S i) rest mains
  end.

(** A world in which [setInstruments] with the identifiers [ids] has nothing
    left to do. *)
Definition settled (ids : IDList) (w : World) : Prop :=
  (forall pid q, part pid w = Some q ->
     (instrumentsToRemoveOf ids q = [] /\ partInstruments q <> []) \/
     (allMissing ids q = true /\ absentEverywhere pid w)) /\
  (forall x, In x ids ->
     exists p, part (partId p) w = Some p /\
               In x (map instrumentId (values (instruments p [])))) /\
  measures (score w) <> [] /\
  List.length (parts (score w)) = List.length ids /\
  stable 0 ids (map mainInstrumentId (parts (score w))) /\
  Forall (fun e => isEmpty (scoreStaves (scoreAt (Excerpt_partScore e) w)) = false)
    (excerpts w).

(** The four calls every [setInstruments] makes on the undo stack and on the
    notifiers. *)
Definition setInstruments_events : list Event :=
  [StartEdit; Apply; PartsNotifierChanged; PartsChangedNotify].

(** What an operation on [score()] leaves alone: the address of [score()],
    the excerpts, the size of the store and the other scores. *)
Definition frame (w w' : World) : Prop :=
  current w' = current w /\
  excerpts w' = excerpts w /\
  List.length (scores w') = List.length (scores w) /\
  (forall k, k <> current w -> scoreAt k w' = scoreAt k w).

(** An operation that changes staves only. *)
Definition quiet (w w' : World) : Prop :=
  frame w w' /\
  map idAndInstruments (parts (score w')) = map idAndInstruments (parts (score w)) /\
  measures (score w') = measures (score w).

(** The main instrument, read from the identifier and mapping of a part. *)
Definition mainOf (sg : ID * QMap MsInstrument) : ID :=
  instrumentId (match qmap_value PRIMARY_TICK (snd sg) with
                | Some i => i
                | None => defaultInstrument
                end).

(** What the removal phase leaves of an instrument mapping: the entries
    whose instrument is in the new list. *)
Definition prune (ids : IDList) (m : QMap MsInstrument) : QMap MsInstrument :=
  filter (fun e => contains ids (instrumentId (snd e))) m.

Definition prunePart (ids : IDList) (p : Part) : Part :=
  set_partInstruments (prune ids (partInstruments p)) p.

(** A part after its turn in the loop of [removeMissingInstruments]: a part
    that is to be removed as a whole is not touched. *)
Definition afterRemovalStep (ids : IDList) (p : Part) : Part :=
  if allMissing ids p then p else prunePart ids p.

(** The parts of every score of the store have distinct identifiers. *)
Definition distinctIds (w : World) : Prop :=
  forall k, NoDup (map partId (parts (scoreAt k w))).

(** Every score of the second world holds a selection of the parts it holds
    in the first. *)
Definition shrunk (w w' : World) : Prop :=
  forall k, exists f, parts (scoreAt k w') = filter f (parts (scoreAt k w)).

(** What the removal of parts leaves alone. *)
Definition sameShape (w w' : World) : Prop :=
  current w' = current w /\
  excerpts w' = excerpts w /\
  nextAddr w' = nextAddr w /\
  List.length (scores w') = List.length (scores w).

(** A part that the removal phase would keep as it is: it has instruments,
    and all of them are in the new list. *)
Definition cleanEntry (ids : IDList) (sg : ID * QMap MsInstrument) : Prop :=
  snd sg <> [] /\
  Forall (fun e => contains ids (instrumentId (snd e)) = true) (snd sg).

(** A master score with the parts "Violin" and "Flute" and one excerpt that
    lists "Flute"; the current score is the master.  And the same world after
    [setInstruments] with a violin and a viola: the flute is gone from the
    master and from the part score, whose excerpt is removed with it, a part
    for the viola has been made, and the violin part has been moved in front
    of it. *)
Definition masterWorld : World :=
  mkWorld
    [mkScore [twoMeasureViolin; flutePart] [0%Z; 1920%Z] [] None;
     mkScore [excerptFlute] [0%Z; 1920%Z] [] None]
    0 [mkExcerpt [flutePart] 1] MS_NO_ERROR 10 [].

Definition masterWorldSettled : World :=
  mkWorld
    [mkScore
       [mkPart "Violin" "Violin" true [(0%Z, violin)]
          [exampleStaff 12 "staff-1"
             [(0%Z, "c4"%string); (1920%Z, "d4"%string); (4000%Z, "e4"%string)]];
        mkPart (makeId 10) "Viola" true [(0%Z, viola)]
          [exampleStaff 11 (makeId 11) []]]
       [0%Z; 1920%Z] [] None;
     mkScore [] [0%Z; 1920%Z] [] None]
    0 [] MS_NO_ERROR 13 setInstruments_events.

(** ** Further operations of the editor *)

(** [NotationParts::updatePartTitles] *)
Definition updatePartTitles (w : World) : World :=
  fold_left (fun w p => setPartName (partId p) (formatPartName p) w) (parts (score w)) w.

(** A part under the name that [formatPartName] gives it. *)
Definition retitled (p : Part) : Part := set_partName (formatPartName p) p.

(** [NotationParts::removeInstruments] *)
Definition removeInstruments (instrumentIds : IDList) (fromPartId : ID) (w : World) : World :=
  match part fromPartId w with
  | None => w
  | Some _ =>
      let w := startEdit w in
      let w := doRemoveInstruments instrumentIds fromPartId w in
      let w := renamePart fromPartId w in
      let w := apply w in
      let w := emit (PartsNotifierItemChanged fromPartId) w in
      emit PartsChangedNotify w
  end.

(** The key of [m_canChangeInstrumentsVisibilityHash]: part identifier and
    instrument identifier; and the hash itself, with the [val] of each entry
    (the newest entry first). *)
Definition InstrumentKey : Type := (ID * ID)%type.

Definition VisibilityHash : Type := list (InstrumentKey * bool).

Definition sameKey (a b : InstrumentKey) : bool :=
  String.eqb (fst a) (fst b) && String.eqb (snd a) (snd b).

Fixpoint hashValue (key : InstrumentKey) (h : VisibilityHash) : option bool :=
  match h with
  | [] => None
  | (k, v) :: h' => if sameKey k key then Some v else hashValue key h'
  end.

(** [NotationParts::canChangeInstrumentVisibility]: the value is computed
    when the key is not in the hash, with the arguments in the order in which
    the source passes them to [resolveCanChangeInstrumentVisibility]. *)
Definition canChangeInstrumentVisibility (iid fromPartId : ID) (h : VisibilityHash)
  (w : World) : bool * VisibilityHash * World :=
  let key : InstrumentKey := (fromPartId, iid) in
  match hashValue key h with
  | Some v => (v, h, w)
  | None =>
      let (v, w) := resolveCanChangeInstrumentVisibility fromPartId iid w in
      (v, (key, v) :: h, w)
  end.

(** A part with the invisible flag of each of its staves set. *)
Definition withStavesInvisible (b : bool) (p : Part) : Part :=
  set_partStaves (map (Staff_setInvisible b) (partStaves p)) p.

(** What [doSetStaffVisible], run over the staves at the addresses [addrs],
    makes of a part. *)
Definition hideAmong (addrs : list nat) (b : bool) (p : Part) : Part :=
  set_partStaves
    (map (fun st => if existsb (Nat.eqb (staffAddr st)) addrs
                    then Staff_setInvisible b st else st)
       (partStaves p)) p.

(** The layout of a part: its identifier, its visibility and its staves,
    that is, the part without its name and its instruments. *)
Definition layoutOf (p : Part) : ID * bool * list Staff :=
  (partId p, partShow p, partStaves p).

Definition excerptLayout (e : Excerpt) : list (ID * bool * list Staff) * nat :=
  (map layoutOf (Excerpt_parts e), Excerpt_partScore e).

(** An operation on names and instruments only: the parts of [score()] and
    of the excerpts keep their layout and their order, the measures stay, and
    the other scores of the store are not touched. *)
Definition keepsLayout (w w' : World) : Prop :=
  current w' = current w /\
  List.length (scores w') = List.length (scores w) /\
  (forall k, k <> current w -> scoreAt k w' = scoreAt k w) /\
  map layoutOf (parts (score w')) = map layoutOf (parts (score w)) /\
  measures (score w') = measures (score w) /\
  map excerptLayout (excerpts w') = map excerptLayout (excerpts w).

(* PROPERTIES *)

(** * Properties *)

(** ** Listing of parts *)

Lemma contains_In (l : IDList) (x : ID) : contains l x = true <-> In x l.
Proof.
  unfold contains. rewrite existsb_exists. split.
  - intros [y [Hy He]]. apply String.eqb_eq in He. now subst.
  - intros H. exists x. split; [assumption | apply String.eqb_refl].
Qed.

Lemma contains_false (l : IDList) (x : ID) : contains l x = false <-> ~ In x l.
Proof.
  rewrite <- contains_In. destruct (contains l x); split; intros; congruence.
Qed.

Lemma filter_filter {A : Type} (f g : A -> bool) (l : list A) :
  filter f (filter g l) = filter (fun x => g x && f x) l.
Proof.
  induction l as [|a l IH]; simpl; [reflexivity|].
  destruct (g a); simpl; [destruct (f a)|]; now rewrite IH.
Qed.

Lemma partList_loop_firstSeen (ps : list Part) :
  forall seen,
    partList_loop seen ps =
    filter (fun q => negb (contains seen (partId q))) (firstSeen ps).
Proof.
  induction ps as [|p rest IH]; intros seen; simpl; [reflexivity|].
  destruct (contains seen (partId p)) eqn:Hseen; simpl.
  - rewrite IH, filter_filter. apply filter_ext_in. intros q _.
    destruct (String.eqb_spec (partId q) (partId p)) as [E|N]; simpl.
    + now rewrite E, Hseen.
    + reflexivity.
  - f_equal. rewrite IH, filter_filter. apply filter_ext. intros q.
    simpl. rewrite (String.eqb_sym (partId q) (partId p)).
    destruct (String.eqb (partId p) (partId q)); simpl; [reflexivity|].
    reflexivity.
Qed.

Lemma firstSeen_ids_subset (ps : list Part) (x : ID) :
  In x (map partId (firstSeen ps)) <-> In x (map partId ps).
Proof.
  induction ps as [|p rest IH]; simpl; [tauto|].
  rewrite <- IH. rewrite !in_map_iff. split.
  - intros [E | [q [Hq Hin]]]; [now left|].
    apply filter_In in Hin. right. exists q. tauto.
  - intros [E | [q [Hq Hin]]]; [now left|].
    destruct (String.eqb_spec (partId q) (partId p)) as [E|N].
    + left. congruence.
    + right. exists q. split; [assumption|]. apply filter_In. split; [assumption|].
      apply Bool.negb_true_iff. now apply String.eqb_neq.
Qed.

Lemma filter_map_NoDup {A B : Type} (g : A -> B) (f : A -> bool) (l : list A) :
  NoDup (map g l) -> NoDup (map g (filter f l)).
Proof.
  induction l as [|a l IH]; simpl; intros H; [constructor|].
  inversion H as [|? ? Hn Hd]; subst.
  destruct (f a); simpl; [|now apply IH].
  constructor; [|now apply IH].
  intros Hin. apply Hn. apply in_map_iff in Hin. destruct Hin as [x [Hx Hin]].
  apply filter_In in Hin. apply in_map_iff. exists x. tauto.
Qed.

Lemma firstSeen_NoDup (ps : list Part) : NoDup (map partId (firstSeen ps)).
Proof.
  induction ps as [|p rest IH]; simpl; constructor.
  - intros Hin. apply in_map_iff in Hin. destruct Hin as [q [Hq Hin]].
    apply filter_In in Hin. destruct Hin as [_ Hne].
    apply Bool.negb_true_iff, String.eqb_neq in Hne. congruence.
  - now apply filter_map_NoDup.
Qed.

Lemma partList_firstSeen (w : World) :
  partList w = firstSeen (availableParts (current w) w).
Proof.
  unfold partList. rewrite partList_loop_firstSeen.
  apply forallb_filter_id. apply forallb_forall. reflexivity.
Qed.

(** C3.  [partList] never lists two parts with the same identifier, whatever
    the score's own parts and the parts of its excerpts are; it is the
    de-duplication by identifier that keeps first-seen order ([firstSeen]) of
    the available parts, and it drops no identifier. *)
Theorem partList_no_duplicate_ids (w : World) :
  NoDup (map partId (partList w)) /\
  partList w = firstSeen (availableParts (current w) w) /\
  (forall x, In x (map partId (availableParts (current w) w)) <->
             In x (map partId (partList w))).
Proof.
  rewrite partList_firstSeen. split; [apply firstSeen_NoDup|].
  split; [reflexivity|]. intros x. symmetry. apply firstSeen_ids_subset.
Qed.

(** ** The error flag after a selection query *)

(** C10.  After [selectedChord] the global error flag is never
    [NO_NOTE_REST_SELECTED].  With nothing selected the helper answers null
    and leaves the flag at [MS_NO_ERROR], the value of "no error"; with a
    selection it answers the selected chord or rest.  Nothing else of the
    world changes. *)
Theorem selectedChord_resets_error_flag (w : World) :
  error (snd (selectedChord w)) <> NO_NOTE_REST_SELECTED /\
  set_error (error w) (snd (selectedChord w)) = w /\
  match selection (score w) with
  | None =>
      fst (selectedChord w) = None /\ error (snd (selectedChord w)) = MS_NO_ERROR
  | Some c => fst (selectedChord w) = Some c
  end.
Proof.
  unfold selectedChord, getSelectedChordRest, score.
  destruct (selection (scoreAt (current w) w)) as [c|]; simpl.
  - destruct w as [ss cur ex err na tr]; simpl.
    destruct err; simpl; repeat split; congruence.
  - destruct w as [ss cur ex err na tr]; simpl. repeat split; congruence.
Qed.

(** ** The store of scores and changes through a part pointer *)

Lemma length_replaceAt {A : Type} (k : nat) (x : A) (l : list A) :
  List.length (replaceAt k x l) = List.length l.
Proof.
  revert k. induction l as [|a l IH]; intros [|k]; simpl; auto.
Qed.

Lemma nth_replaceAt_same {A : Type} (k : nat) (x d : A) (l : list A) :
  k < List.length l -> nth k (replaceAt k x l) d = x.
Proof.
  revert k. induction l as [|a l IH]; intros [|k]; simpl; intros H; try lia; auto.
  apply IH. lia.
Qed.

Lemma nth_replaceAt_other {A : Type} (k j : nat) (x d : A) (l : list A) :
  k <> j -> nth j (replaceAt k x l) d = nth j l d.
Proof.
  revert k j. induction l as [|a l IH]; intros [|k] [|j]; simpl; intros H;
    try congruence; auto.
Qed.

Lemma replaceAt_nth {A : Type} (k : nat) (d : A) (l : list A) :
  replaceAt k (nth k l d) l = l.
Proof.
  revert k. induction l as [|a l IH]; intros [|k]; simpl; auto. now rewrite IH.
Qed.

Lemma replaceAt_beyond {A : Type} (k : nat) (x : A) (l : list A) :
  List.length l <= k -> replaceAt k x l = l.
Proof.
  revert k. induction l as [|a l IH]; intros [|k]; simpl; intros H; auto; try lia.
  rewrite IH; [reflexivity | lia].
Qed.

Lemma scoreAt_beyond (k : nat) (w : World) :
  List.length (scores w) <= k -> scoreAt k w = emptyScore.
Proof. intros H. unfold scoreAt. now apply nth_overflow. Qed.

Lemma scoreAt_modifyScoreAt_same (k : nat) (f : Score -> Score) (w : World) :
  k < List.length (scores w) -> scoreAt k (modifyScoreAt k f w) = f (scoreAt k w).
Proof. intros H. unfold scoreAt, modifyScoreAt. simpl. now apply nth_replaceAt_same. Qed.

Lemma scoreAt_modifyScoreAt_other (k j : nat) (f : Score -> Score) (w : World) :
  k <> j -> scoreAt j (modifyScoreAt k f w) = scoreAt j w.
Proof. intros H. unfold scoreAt, modifyScoreAt. simpl. now apply nth_replaceAt_other. Qed.

Lemma modifyScoreAt_id (k : nat) (f : Score -> Score) (w : World) :
  f (scoreAt k w) = scoreAt k w -> modifyScoreAt k f w = w.
Proof.
  intros H. unfold modifyScoreAt. rewrite H. unfold scoreAt.
  rewrite replaceAt_nth. now destruct w.
Qed.

Lemma modifyScoreAt_beyond (k : nat) (f : Score -> Score) (w : World) :
  List.length (scores w) <= k -> modifyScoreAt k f w = w.
Proof.
  intros H. unfold modifyScoreAt. rewrite replaceAt_beyond by assumption. now destruct w.
Qed.

Lemma hasPart_In (pid : ID) (ps : list Part) :
  hasPart pid ps = true <-> In pid (map partId ps).
Proof.
  unfold hasPart. rewrite existsb_exists, in_map_iff. split.
  - intros [p [Hin He]]. apply String.eqb_eq in He. now exists p.
  - intros [p [He Hin]]. exists p. split; [assumption|]. now apply String.eqb_eq.
Qed.

Lemma hasPart_find (pid : ID) (ps : list Part) :
  hasPart pid ps = true <->
  exists p, find (fun p => String.eqb (partId p) pid) ps = Some p.
Proof.
  induction ps as [|q ps IH]; simpl.
  - split; [discriminate | intros [p H]; discriminate].
  - destruct (String.eqb (partId q) pid); simpl; [|exact IH].
    split; [intros _; now exists q | reflexivity].
Qed.

Lemma hasPart_false_find (pid : ID) (ps : list Part) :
  hasPart pid ps = false <-> find (fun p => String.eqb (partId p) pid) ps = None.
Proof.
  induction ps as [|q ps IH]; simpl; [tauto|].
  destruct (String.eqb (partId q) pid); simpl; [|exact IH].
  split; discriminate.
Qed.

Lemma find_partId (pid : ID) (ps : list Part) (p : Part) :
  find (fun p => String.eqb (partId p) pid) ps = Some p -> partId p = pid.
Proof. intros H. apply find_some in H. now apply String.eqb_eq. Qed.

Lemma find_app {A : Type} (f : A -> bool) (l1 l2 : list A) :
  find f (l1 ++ l2) = match find f l1 with Some x => Some x | None => find f l2 end.
Proof.
  induction l1 as [|a l1 IH]; simpl; [reflexivity|]. now destruct (f a).
Qed.

Lemma hasPart_current_in_range (pid : ID) (w : World) :
  hasPart pid (parts (score w)) = true -> current w < List.length (scores w).
Proof.
  intros H. destruct (Nat.lt_ge_cases (current w) (List.length (scores w))) as [L|G];
    [assumption|].
  unfold score in H. rewrite scoreAt_beyond in H by assumption. discriminate.
Qed.

Lemma find_modifyFirst_same (pid : ID) (f : Part -> Part) (ps : list Part) (p : Part) :
  find (fun p => String.eqb (partId p) pid) ps = Some p ->
  partId (f p) = pid ->
  find (fun p => String.eqb (partId p) pid) (modifyFirst pid f ps) = Some (f p).
Proof.
  intros Hf Hid. induction ps as [|q ps IH]; simpl in *; [discriminate|].
  destruct (String.eqb (partId q) pid) eqn:E; simpl.
  - injection Hf as ->. now rewrite Hid, String.eqb_refl.
  - rewrite E. now apply IH.
Qed.

Lemma find_modifyFirst_other (pid pid' : ID) (f : Part -> Part) (ps : list Part) :
  pid <> pid' ->
  (forall p, partId (f p) = partId p) ->
  find (fun p => String.eqb (partId p) pid') (modifyFirst pid f ps) =
  find (fun p => String.eqb (partId p) pid') ps.
Proof.
  intros Hne Hid. induction ps as [|q ps IH]; simpl; [reflexivity|].
  destruct (String.eqb_spec (partId q) pid) as [E|N]; simpl.
  - rewrite Hid. destruct (String.eqb_spec (partId q) pid'); [congruence | reflexivity].
  - now rewrite IH.
Qed.

Lemma map_partId_modifyFirst (pid : ID) (f : Part -> Part) (ps : list Part) :
  (forall p, partId (f p) = partId p) ->
  map partId (modifyFirst pid f ps) = map partId ps.
Proof.
  intros Hid. induction ps as [|q ps IH]; simpl; [reflexivity|].
  destruct (String.eqb (partId q) pid); simpl; [now rewrite Hid | now rewrite IH].
Qed.

Lemma modifyFirst_absent (pid : ID) (f : Part -> Part) (ps : list Part) :
  hasPart pid ps = false -> modifyFirst pid f ps = ps.
Proof.
  induction ps as [|q ps IH]; simpl; [reflexivity|].
  destruct (String.eqb (partId q) pid); simpl; [discriminate|].
  intros H. now rewrite IH.
Qed.

Lemma hasPart_flat_map (pid : ID) (es : list Excerpt) :
  hasPart pid (flat_map Excerpt_parts es) =
  existsb (fun e => hasPart pid (Excerpt_parts e)) es.
Proof.
  induction es as [|e es IH]; simpl; [reflexivity|].
  unfold hasPart in *. now rewrite existsb_app, IH.
Qed.

Lemma find_modifyFirstExcerpt_same (pid : ID) (f : Part -> Part) (es : list Excerpt)
  (p : Part) :
  find (fun p => String.eqb (partId p) pid) (flat_map Excerpt_parts es) = Some p ->
  partId (f p) = pid ->
  find (fun p => String.eqb (partId p) pid)
    (flat_map Excerpt_parts (modifyFirstExcerpt pid f es)) = Some (f p).
Proof.
  intros Hf Hid. induction es as [|e es IH]; simpl in *; [discriminate|].
  rewrite find_app in Hf.
  destruct (hasPart pid (Excerpt_parts e)) eqn:E; simpl.
  - apply hasPart_find in E. destruct E as [q Hq]. rewrite Hq in Hf.
    injection Hf as ->. rewrite find_app.
    now rewrite (find_modifyFirst_same _ _ _ _ Hq Hid).
  - apply hasPart_false_find in E. rewrite E in Hf. rewrite find_app, E. now apply IH.
Qed.

Lemma find_modifyFirstExcerpt_other (pid pid' : ID) (f : Part -> Part) (es : list Excerpt) :
  pid <> pid' ->
  (forall p, partId (f p) = partId p) ->
  find (fun p => String.eqb (partId p) pid')
    (flat_map Excerpt_parts (modifyFirstExcerpt pid f es)) =
  find (fun p => String.eqb (partId p) pid') (flat_map Excerpt_parts es).
Proof.
  intros Hne Hid. induction es as [|e es IH]; simpl; [reflexivity|].
  destruct (hasPart pid (Excerpt_parts e)); simpl.
  - rewrite !find_app. now rewrite find_modifyFirst_other.
  - rewrite !find_app. now rewrite IH.
Qed.

Lemma part_unfold (pid : ID) (w : World) :
  part pid w =
  match find (fun p => String.eqb (partId p) pid) (parts (score w)) with
  | Some p => Some p
  | None => find (fun p => String.eqb (partId p) pid) (excerptParts (current w) w)
  end.
Proof. unfold part, partIn, availableParts, scoreParts, score. apply find_app. Qed.

Lemma score_modifyScore (f : Score -> Score) (w : World) :
  current w < List.length (scores w) -> score (modifyScore f w) = f (score w).
Proof.
  intros H. unfold score, modifyScore. simpl. now apply scoreAt_modifyScoreAt_same.
Qed.

(** A change through the pointer that [part] returned is seen by the next
    [part] with the same identifier. *)
Lemma part_modifyPart_same (pid : ID) (f : Part -> Part) (w : World) (p : Part) :
  part pid w = Some p ->
  partId (f p) = pid ->
  part pid (modifyPart pid f w) = Some (f p).
Proof.
  intros Hp Hid. rewrite part_unfold in Hp. unfold modifyPart.
  destruct (hasPart pid (parts (score w))) eqn:E.
  - pose proof (hasPart_current_in_range _ _ E) as Hr.
    apply hasPart_find in E. destruct E as [q Hq]. rewrite Hq in Hp. injection Hp as ->.
    rewrite part_unfold, score_modifyScore by assumption. simpl.
    now rewrite (find_modifyFirst_same _ _ _ _ Hq Hid).
  - apply hasPart_false_find in E. rewrite E in Hp.
    unfold excerptParts, isMaster in *.
    destruct (isMasterAt (current w)) eqn:M; simpl in *; [|discriminate].
    rewrite part_unfold. unfold score, excerptParts. simpl. fold (score w).
    unfold scoreAt in *. simpl. unfold score, scoreAt in E. rewrite E, M. simpl.
    now apply find_modifyFirstExcerpt_same.
Qed.

(** It leaves the parts with other identifiers as they are. *)
Lemma part_modifyPart_other (pid pid' : ID) (f : Part -> Part) (w : World) :
  pid <> pid' ->
  (forall p, partId (f p) = partId p) ->
  part pid' (modifyPart pid f w) = part pid' w.
Proof.
  intros Hne Hid. unfold modifyPart.
  destruct (hasPart pid (parts (score w))) eqn:E.
  - pose proof (hasPart_current_in_range _ _ E) as Hr.
    rewrite !part_unfold, score_modifyScore by assumption. simpl.
    now rewrite find_modifyFirst_other.
  - destruct (isMaster w) eqn:M; [|reflexivity].
    rewrite !part_unfold. unfold score, scoreAt, excerptParts. simpl.
    unfold isMaster in M. rewrite M. simpl.
    now rewrite find_modifyFirstExcerpt_other.
Qed.

Lemma part_emit (pid : ID) (e : Event) (w : World) : part pid (emit e w) = part pid w.
Proof. reflexivity. Qed.

Lemma instruments_all (p : Part) : instruments p [] = partInstruments p.
Proof.
  unfold instruments. simpl. apply forallb_filter_id. apply forallb_forall. reflexivity.
Qed.

(** ** Appending a doubling instrument *)

Lemma fold_right_max_init (l : list Z) (a k : Z) :
  fold_right Z.max (Z.max k a) l = Z.max k (fold_right Z.max a l).
Proof. induction l as [|x l IH]; simpl; [reflexivity|]. rewrite IH. lia. Qed.

Lemma lastTick_fold (l : list Fraction) :
  forall a,
    fold_left (fun lastTick fraction => Z.max (ticks fraction) lastTick) l a =
    fold_right Z.max a l.
Proof.
  induction l as [|k l IH]; intros a; simpl; [reflexivity|].
  rewrite IH. unfold ticks. apply fold_right_max_init.
Qed.

Lemma lastTickOf_ge (l : list Fraction) :
  (1 <= lastTickOf l)%Z /\ Forall (fun k => (k <= lastTickOf l)%Z) l.
Proof.
  unfold lastTickOf. induction l as [|k l [IH1 IH2]]; simpl.
  - split; [lia | constructor].
  - split; [lia|]. constructor; [lia|].
    eapply Forall_impl; [|exact IH2]. simpl. intros; lia.
Qed.

Lemma lastTickOf_lt (l : list Fraction) (b : Z) :
  (1 < b)%Z -> Forall (fun k => (k < b)%Z) l -> (lastTickOf l < b)%Z.
Proof.
  intros Hb H. unfold lastTickOf. induction H as [|k l Hk _ IH]; simpl; lia.
Qed.

Lemma wrap_int_in_range (z : Z) : (INT_MIN <= z <= INT_MAX)%Z -> wrap_int z = z.
Proof.
  unfold INT_MIN, INT_MAX, wrap_int. intros H.
  rewrite Z.mod_small; lia.
Qed.

Lemma qmap_insert_last {V : Type} (k : Fraction) (v : V) (m : QMap V) :
  Forall (fun k' => (k' < k)%Z) (keys m) -> qmap_insert k v m = m ++ [(k, v)].
Proof.
  induction m as [|[k' v'] m IH]; simpl; intros H; [reflexivity|].
  inversion H as [|? ? Hk Hm]; subst.
  destruct (Z.ltb_spec k k'); [lia|]. destruct (Z.eqb_spec k k'); [lia|].
  now rewrite IH.
Qed.

(** A part that has its primary instrument in place is given the same
    instrument again by [ChangePart]: only the name changes. *)
Lemma instrument_primaryFirst (p : Part) (i : MsInstrument) (m : QMap MsInstrument) :
  partInstruments p = (PRIMARY_TICK, i) :: m -> instrument p = i.
Proof. intros E. unfold instrument. now rewrite E. Qed.

Lemma primaryFirst_inv (p : Part) :
  primaryFirst p -> exists i m, partInstruments p = (PRIMARY_TICK, i) :: m.
Proof.
  unfold primaryFirst. destruct (partInstruments p) as [|[k i] m]; simpl; [discriminate|].
  intros H. injection H as ->. now exists i, m.
Qed.

Lemma ChangePart_primaryFirst (name : string) (p : Part) :
  primaryFirst p -> ChangePart (instrument p) name p = set_partName name p.
Proof.
  intros H. destruct (primaryFirst_inv p H) as [i [m E]].
  rewrite (instrument_primaryFirst p i m E).
  unfold ChangePart, Part_setInstrument. rewrite E. simpl.
  unfold set_partName, set_partInstruments. simpl. now rewrite E.
Qed.

Lemma primaryFirst_set_partName (name : string) (p : Part) :
  primaryFirst p -> primaryFirst (set_partName name p).
Proof. intros H. exact H. Qed.

Lemma part_doSetPartName_same (pid : ID) (name : string) (w : World) (p : Part) :
  part pid w = Some p ->
  partId p = pid ->
  part pid (doSetPartName pid name w) = Some (ChangePart (instrument p) name p).
Proof.
  intros Hp Hid. unfold doSetPartName.
  now apply (part_modifyPart_same pid (fun q => ChangePart (instrument q) name q)).
Qed.

(** C4, as the code has it.  On an existing part that has its primary
    instrument in place and whose ticks are below the largest [int],
    [appendDoublingInstrument] adds exactly one entry, after all the others,
    at [lastTick + 1] where [lastTick] is the greatest tick of the mapping
    but at least 1; the new tick is strictly greater than every tick the
    mapping had. *)
Theorem appendDoublingInstrument_after_last_tick
  (i : Instrument) (pid : ID) (w : World) (p : Part) :
  part pid w = Some p ->
  primaryFirst p ->
  Forall (fun k => (INT_MIN <= k < INT_MAX)%Z) (keys (partInstruments p)) ->
  exists p',
    part pid (appendDoublingInstrument i pid w) = Some p' /\
    partInstruments p' =
      partInstruments p ++
        [((lastTickOf (keys (partInstruments p)) + 1)%Z, convertInstrument i)] /\
    Forall (fun k => (k < lastTickOf (keys (partInstruments p)) + 1)%Z)
      (keys (partInstruments p)).
Proof.
  intros Hp Hprim Hr.
  assert (Hid : partId p = pid).
  { unfold part, partIn in Hp. now apply find_partId in Hp. }
  set (t := (lastTickOf (keys (partInstruments p)) + 1)%Z).
  assert (Hlt : Forall (fun k => (k < t)%Z) (keys (partInstruments p))).
  { destruct (lastTickOf_ge (keys (partInstruments p))) as [_ H].
    eapply Forall_impl; [|exact H]. unfold t. simpl. intros; lia. }
  assert (Hw : wrap_int t = t).
  { apply wrap_int_in_range. unfold t.
    destruct (lastTickOf_ge (keys (partInstruments p))) as [H1 _].
    assert (lastTickOf (keys (partInstruments p)) < INT_MAX)%Z.
    { apply lastTickOf_lt; [reflexivity|].
      eapply Forall_impl; [|exact Hr]. simpl. intros; lia. }
    unfold INT_MIN, INT_MAX in *. lia. }
  set (p1 := Part_setInstrument (convertInstrument i) t p).
  assert (Hm1 : partInstruments p1 = partInstruments p ++ [(t, convertInstrument i)]).
  { simpl. unfold ticks. now apply qmap_insert_last. }
  assert (Hprim1 : primaryFirst p1).
  { unfold primaryFirst. rewrite Hm1.
    destruct (primaryFirst_inv p Hprim) as [i0 [m E]]. now rewrite E. }
  exists (set_partName (formatPartName p1) p1).
  split; [|split; [|exact Hlt]].
  - unfold appendDoublingInstrument. rewrite Hp.
    rewrite instruments_all, lastTick_fold. fold (lastTickOf (keys (partInstruments p))).
    fold t. rewrite Hw. unfold fromTicks. rewrite !part_emit. unfold apply.
    rewrite part_emit. unfold renamePart, startEdit.
    assert (H1 : part pid (modifyPart pid (Part_setInstrument (convertInstrument i) t)
                             (emit StartEdit w)) = Some p1).
    { apply part_modifyPart_same; [now rewrite part_emit | exact Hid]. }
    rewrite H1. rewrite (part_doSetPartName_same pid _ _ p1 H1 Hid).
    now rewrite ChangePart_primaryFirst.
  - exact Hm1.
Qed.

Lemma appendDoublingInstrument_after_last_tick_witness :
  exists p',
    part "Violin" (appendDoublingInstrument violaSpec "Violin" violinWorld) = Some p' /\
    partInstruments p' =
      partInstruments violinPart ++
        [((lastTickOf (keys (partInstruments violinPart)) + 1)%Z,
          convertInstrument violaSpec)] /\
    Forall (fun k => (k < lastTickOf (keys (partInstruments violinPart)) + 1)%Z)
      (keys (partInstruments violinPart)).
Proof.
  apply (appendDoublingInstrument_after_last_tick violaSpec "Violin" violinWorld violinPart).
  - reflexivity.
  - reflexivity.
  - repeat constructor; vm_compute; discriminate.
Defined.

(** C4, as stated, fails on the part "Violin" whose only instrument sits at
    tick 0: the doubling instrument arrives at tick 2, not at 0 + 1. *)
Lemma appendDoublingInstrument_not_greatest_plus_one :
  ~ appendedAfterGreatestTick violaSpec "Violin" violinWorld.
Proof.
  intros H. destruct (H violinPart eq_refl) as [p' [Hp Hm]].
  vm_compute in Hp. injection Hp as <-. vm_compute in Hm. discriminate.
Qed.

(** On a part without an entry at the primary tick the rename at the end of
    [appendDoublingInstrument] stores the instrument that [part->instrument()]
    answers, a default one, as the primary instrument: part "A", holding the
    oboe at tick 2 only, receives two entries. *)
Lemma appendDoublingInstrument_without_primary_instrument :
  let oboeOnly := mkPart "A" "Oboe" true [(2%Z, oboe)] [] in
  let w := mkWorld [mkScore [oboeOnly] [0%Z] [] None] 0 [] MS_NO_ERROR 10 [] in
  option_map partInstruments (part "A" (appendDoublingInstrument violaSpec "A" w)) =
  Some [(PRIMARY_TICK, defaultInstrument); (2%Z, oboe); (3%Z, viola)].
Proof. reflexivity. Qed.

(** ** The sort-phase assertion of [setInstruments] *)

(** C6, at a failing input.  The score holds the single part "Violin" and
    the list asks for the violin twice.  No part is removed and, the violin
    being present already, none is created: the score has one part for two
    identifiers when the sort phase starts, and the assertion of [sortParts]
    fails. *)
Theorem setInstruments_repeated_instrument_trips_assertion :
  let instrumentIds := map instrument_id [violinSpec; violinSpec] in
  let w1 := removeMissingInstruments instrumentIds (startEdit violinWorld) in
  let w2 :=
    fold_left (setInstruments_create (allInstrumentsIds w1)) [violinSpec; violinSpec] w1 in
  List.length (parts (score w2)) = 1 /\
  List.length instrumentIds = 2 /\
  setInstruments [violinSpec; violinSpec] violinWorld = Crashed AssertionFailed.
Proof. vm_compute. repeat split. Qed.

(** ** Precondition misses *)

Lemma setCutawayEnabled_missing_staff (sid : ID) (enabled : bool) (w : World) :
  staff sid w = None -> setCutawayEnabled sid enabled w = w.
Proof. intros H. unfold setCutawayEnabled. now rewrite H. Qed.

Lemma setPartName_missing_part (pid : ID) (name : string) (w : World) :
  part pid w = None -> setPartName pid name w = w.
Proof. intros H. unfold setPartName. now rewrite H. Qed.

Lemma removeParts_empty (w : World) : removeParts [] w = w.
Proof. reflexivity. Qed.

Lemma moveStaves_empty (sid : ID) (mode : InsertMode) (w : World) :
  moveStaves [] sid mode w = w.
Proof. reflexivity. Qed.

Lemma moveStaves_missing_destination (ids : IDList) (sid : ID) (mode : InsertMode)
  (w : World) :
  staff sid w = None -> moveStaves ids sid mode w = w.
Proof. intros H. unfold moveStaves. rewrite H. now destruct (isEmpty ids). Qed.

Lemma setSmallStaff_missing_staff (sid : ID) (smallStaff : bool) (w : World) :
  staff sid w = None -> setSmallStaff sid smallStaff w = Crashed NullDereference.
Proof. intros H. unfold setSmallStaff. now rewrite H. Qed.

Lemma moveParts_empty (pid : ID) (mode : InsertMode) (w : World) :
  moveParts [] pid mode w = emit PartsChangedNotify (apply (startEdit w)).
Proof. reflexivity. Qed.

(** C2, at two failing inputs.  A staff identifier that resolves to nothing
    makes [setSmallStaff] dereference the null staff; an empty list of source
    parts (with a destination that resolves to nothing) makes [moveParts]
    open and commit a transaction and fire the parts-changed notification. *)
Theorem precondition_miss_not_silent :
  staff "no-such-staff" violinWorld = None /\
  setSmallStaff "no-such-staff" true violinWorld = Crashed NullDereference /\
  part "no-such-part" violinWorld = None /\
  trace (moveParts [] "no-such-part" Before violinWorld) =
    [StartEdit; Apply; PartsChangedNotify].
Proof. vm_compute. repeat split. Qed.

(** ** Assigning an instrument to the selected chord *)

Lemma assignIstrumentToSelectedChord_no_selection (i : MsInstrument) (w : World) :
  selection (score w) = None ->
  assignIstrumentToSelectedChord i w = set_error MS_NO_ERROR w.
Proof.
  intros H. unfold assignIstrumentToSelectedChord, selectedChord, getSelectedChordRest.
  unfold score in H. now rewrite H.
Qed.

(** C5, at a failing input.  The viola of part "Violin" needs a chord to be
    assigned to and the selected chord belongs to part "Flute":
    [resolveCanChangeInstrumentVisibility] answers false, yet
    [setInstrumentVisible] goes on to [assignIstrumentToSelectedChord], which
    opens a transaction, puts the viola into the mapping of "Flute" at the
    chord's tick (in place of the flute) and notifies. *)
Theorem assignIstrumentToSelectedChord_other_part :
  let w' := setInstrumentVisible "viola" "Violin" false duoWorld in
  fst (resolveCanChangeInstrumentVisibility "viola" "Violin" duoWorld) = false /\
  option_map partInstruments (part "Flute" duoWorld) = Some [(0%Z, flute)] /\
  option_map partInstruments (part "Flute" w') = Some [(0%Z, viola)] /\
  trace w' =
    [StartEdit; Apply; PartNotifierItemChanged "Flute" "viola"; PartsChangedNotify].
Proof. vm_compute. repeat split. Qed.

(** ** Moving instruments between parts *)

(** C7, as stated, fails twice on the parts "A" (violin at 0, oboe at 2,
    horn at 3) and "B" (flute at 0, viola at 3).
    When oboe and horn move in front of the flute, the oboe's tick is free
    and is appended, the horn's tick is taken and is replaced by the last
    tick of the list plus one, which is 3 again: "B" ends with three entries
    for four instruments, the flute is gone.
    When the violin moves in front of the flute, its tick 0 is taken and the
    new tick is 4, the last tick of "B" plus one, not 0 + 1. *)
Lemma moveInstruments_collision :
  ~ movedWithoutCollision ["oboe"%string; "horn"%string] "A" "B" "flute" abWorld /\
  ~ movedWithoutCollision ["violin"%string] "A" "B" "flute" abWorld.
Proof.
  split; intros H; destruct (H partA partB eq_refl eq_refl) as [B' [Hp [Hl Ht]]];
    vm_compute in Hp; injection Hp as <-.
  - vm_compute in Hl. discriminate.
  - specialize (Ht 4%Z). simpl in Ht.
    destruct Ht as [[E|[E|[]]]|[t0 [[<-|[]] [E|E]]]]; try discriminate. tauto.
Qed.

(** ** Materialising a part of the master score *)

Lemma modifyScore_put (f : Score -> Score) (w : World) :
  modifyScore f w = putScore (f (score w)) w.
Proof. reflexivity. Qed.

Lemma replaceAt_replaceAt {A : Type} (k : nat) (x y : A) (l : list A) :
  replaceAt k x (replaceAt k y l) = replaceAt k x l.
Proof. revert k. induction l as [|a l IH]; intros [|k]; simpl; auto. now rewrite IH. Qed.

Lemma putScore_putScore (s s' : Score) (w : World) :
  putScore s (putScore s' w) = putScore s w.
Proof.
  unfold putScore, modifyScore, modifyScoreAt. simpl. now rewrite replaceAt_replaceAt.
Qed.

Lemma score_putScore (s : Score) (w : World) :
  current w < List.length (scores w) -> score (putScore s w) = s.
Proof. intros H. unfold putScore. now rewrite score_modifyScore. Qed.

Lemma putScore_in_range (s : Score) (w : World) :
  current w < List.length (scores w) ->
  current (putScore s w) < List.length (scores (putScore s w)).
Proof. intros H. simpl. now rewrite length_replaceAt. Qed.




Lemma map_unchanged {A : Type} (f : A -> A) (l : list A) :
  Forall (fun x => f x = x) l -> map f l = l.
Proof. induction 1; simpl; congruence. Qed.

Lemma scoreStaves_Forall (P : Staff -> Prop) (ps : list Part) :
  Forall P (flat_map partStaves ps) <-> Forall (fun p => Forall P (partStaves p)) ps.
Proof.
  induction ps as [|p ps IH]; simpl.
  - split; constructor.
  - rewrite Forall_app, IH. split.
    + intros [H1 H2]. now constructor.
    + intros H. inversion H. now split.
Qed.



Lemma materializedStaves_addr (a : nat) (s e : Fraction) (staves : list Staff) :
  Forall (fun st => a <= staffAddr st < a + List.length staves)
    (materializedStaves a s e staves).
Proof.
  revert a. induction staves as [|st rest IH]; intros a; simpl; constructor.
  - simpl. lia.
  - eapply Forall_impl; [|apply IH]. simpl. intros; lia.
Qed.










(** ** Moving staves *)

Lemma modifyFirst_split (pid : ID) (f : Part -> Part) (pre post : list Part) (q : Part) :
  hasPart pid pre = false -> partId q = pid ->
  modifyFirst pid f (pre ++ q :: post) = pre ++ f q :: post.
Proof.
  intros Hn Hid. induction pre as [|x pre IH]; simpl in *.
  - now rewrite Hid, String.eqb_refl.
  - destruct (String.eqb (partId x) pid); [discriminate|]. simpl in Hn. now rewrite IH.
Qed.

Lemma insertAt_middle {A : Type} (x : A) (l1 l2 : list A) :
  insertAt (List.length l1) x (l1 ++ l2) = l1 ++ x :: l2.
Proof.
  induction l1 as [|a l1 IH]; simpl.
  - now destruct l2.
  - now rewrite IH.
Qed.

Lemma Part_insertStaff_middle (c : Staff) (l1 l2 : list Staff) (p : Part) :
  Part_insertStaff c (Z.of_nat (List.length l1)) (set_partStaves (l1 ++ l2) p) =
  set_partStaves (l1 ++ c :: l2) p.
Proof.
  unfold Part_insertStaff, nstaves. simpl. rewrite length_app.
  destruct (Z.ltb_spec (Z.of_nat (List.length l1)) 0); [lia|].
  destruct (Z.ltb_spec (Z.of_nat (List.length l1 + List.length l2))
              (Z.of_nat (List.length l1))); [lia|].
  simpl. unfold insertAtZ, set_partStaves. simpl.
  now rewrite Nat2Z.id, insertAt_middle.
Qed.

Lemma scoreStaves_split (pre post : list Part) (q : Part) :
  flat_map partStaves (pre ++ q :: post) =
  flat_map partStaves pre ++ partStaves q ++ flat_map partStaves post.
Proof. now rewrite flat_map_app. Qed.

Lemma modifyStaff_staves_other (a : nat) (f : Staff -> Staff) (l : list Staff) :
  Forall (fun st => staffAddr st <> a) l ->
  map (fun st => if Nat.eqb (staffAddr st) a then f st else st) l = l.
Proof.
  intros H. apply map_unchanged. eapply Forall_impl; [|exact H]. simpl.
  intros st Hne. destruct (Nat.eqb_spec (staffAddr st) a); [contradiction | reflexivity].
Qed.

Lemma modifyStaff_parts_other (a : nat) (f : Staff -> Staff) (ps : list Part) :
  Forall (fun st => staffAddr st <> a) (flat_map partStaves ps) ->
  map (fun p =>
         set_partStaves
           (map (fun st => if Nat.eqb (staffAddr st) a then f st else st) (partStaves p)) p)
      ps = ps.
Proof.
  intros H. apply scoreStaves_Forall in H. apply map_unchanged.
  eapply Forall_impl; [|exact H]. simpl. intros p Hp.
  rewrite modifyStaff_staves_other by assumption. now destruct p.
Qed.

(** A change through the pointer to a staff that sits alone at its address. *)
Lemma modifyStaff_split (a : nat) (f : Staff -> Staff) (pre post : list Part) (q : Part)
  (l1 l2 : list Staff) (c : Staff) (s : Score) :
  Forall (fun st => staffAddr st <> a)
    (flat_map partStaves pre ++ (l1 ++ l2) ++ flat_map partStaves post) ->
  staffAddr c = a ->
  modifyStaff a f (set_parts (pre ++ set_partStaves (l1 ++ c :: l2) q :: post) s) =
  set_parts (pre ++ set_partStaves (l1 ++ f c :: l2) q :: post) s.
Proof.
  intros H Hc. apply Forall_app in H. destruct H as [Hpre H].
  apply Forall_app in H. destruct H as [Hl Hpost].
  apply Forall_app in Hl. destruct Hl as [Hl1 Hl2].
  unfold modifyStaff. simpl. unfold set_parts at 1. simpl. f_equal.
  rewrite map_app. simpl.
  rewrite !modifyStaff_parts_other by assumption. f_equal. f_equal.
  unfold set_partStaves. simpl. f_equal.
  rewrite map_app. simpl. rewrite Hc, Nat.eqb_refl.
  now rewrite !modifyStaff_staves_other by assumption.
Qed.

Lemma find_insert_other {A : Type} (P : A -> bool) (l1 l2 : list A) (c : A) :
  P c = false -> find P (l1 ++ c :: l2) = find P (l1 ++ l2).
Proof.
  intros H. rewrite !find_app. simpl. now rewrite H.
Qed.

Lemma findStaff_split_insert (a : nat) (pre post : list Part) (q : Part)
  (l1 l2 : list Staff) (c : Staff) (s : Score) :
  staffAddr c <> a ->
  findStaff a (set_parts (pre ++ set_partStaves (l1 ++ c :: l2) q :: post) s) =
  findStaff a (set_parts (pre ++ set_partStaves (l1 ++ l2) q :: post) s).
Proof.
  intros H. unfold findStaff, scoreStaves. simpl. rewrite !scoreStaves_split. simpl.
  rewrite !(find_app _ (flat_map partStaves pre)).
  rewrite (find_app _ (l1 ++ c :: l2)), (find_app _ (l1 ++ l2)).
  rewrite find_insert_other; [reflexivity|]. now apply Nat.eqb_neq.
Qed.

Lemma findStaff_ownerOf (a : nat) (s : Score) (st : Staff) :
  findStaff a s = Some st -> exists o, ownerOf a (parts s) = Some o.
Proof.
  unfold findStaff, scoreStaves. induction (parts s) as [|p ps IH]; simpl; [discriminate|].
  rewrite find_app. intros H.
  destruct (existsb (fun st0 => Nat.eqb (staffAddr st0) a) (partStaves p)) eqn:E;
    [now eexists|].
  destruct (find (fun st0 => Nat.eqb (staffAddr st0) a) (partStaves p)) eqn:F.
  - apply find_some in F. destruct F as [Hin Ha].
    assert (existsb (fun st0 => Nat.eqb (staffAddr st0) a) (partStaves p) = true).
    { apply existsb_exists. eauto. }
    congruence.
  - now apply IH.
Qed.

Lemma set_parts_parts (s : Score) : set_parts (parts s) s = s.
Proof. now destruct s. Qed.

Lemma putScore_score (w : World) : putScore (score w) w = w.
Proof.
  unfold putScore, modifyScore. apply modifyScoreAt_id. reflexivity.
Qed.

(** One round of the first loop of [doMoveStaves], for a destination part
    whose staves are [l1 ++ l2] and a destination index at the end of [l1]:
    the clone arrives between [l1] and [l2] as a [movedCopy]. *)
Lemma doMoveStaves_clone_step (B : ID) (pre post : list Part) (pB : Part)
  (l1 l2 : list Staff) (w : World) (a : nat) (st : Staff) :
  current w < List.length (scores w) ->
  parts (score w) = pre ++ set_partStaves (l1 ++ l2) pB :: post ->
  hasPart B pre = false ->
  partId pB = B ->
  Forall (fun s => staffAddr s <> nextAddr w) (scoreStaves (score w)) ->
  findStaff a (score w) = Some st ->
  doMoveStaves_clone (Some B) (w, Z.of_nat (List.length l1)) a =
  (set_nextAddr (S (nextAddr w))
     (putScore
        (set_parts (pre ++ set_partStaves (l1 ++ movedCopy (nextAddr w) st :: l2) pB :: post)
           (score w)) w),
   Z.of_nat (S (List.length l1))).
Proof.
  intros Hr Hps Hpre HB Hfresh Hfind.
  destruct (findStaff_ownerOf _ _ _ Hfind) as [o Ho].
  assert (Ha : nextAddr w <> a).
  { unfold findStaff in Hfind. apply find_some in Hfind. destruct Hfind as [Hin He].
    apply Nat.eqb_eq in He. rewrite Forall_forall in Hfresh.
    specialize (Hfresh _ Hin). congruence. }
  assert (Hfresh' : Forall (fun s => staffAddr s <> nextAddr w)
                      (flat_map partStaves pre ++ (l1 ++ l2) ++ flat_map partStaves post)).
  { unfold scoreStaves in Hfresh. rewrite Hps, scoreStaves_split in Hfresh. exact Hfresh. }
  unfold doMoveStaves_clone. rewrite Hfind, Ho.
  set (n := nextAddr w) in *.
  set (c := clone n st).
  set (w0 := set_nextAddr (S n) w).
  assert (Hr0 : current w0 < List.length (scores w0)) by exact Hr.
  set (w1 := modifyScore (undoInsertStaff B c (Z.of_nat (List.length l1))) w0).
  assert (Hw1 : w1 = putScore
                       (set_parts (pre ++ set_partStaves (l1 ++ c :: l2) pB :: post)
                          (score w)) w0).
  { unfold w1. rewrite modifyScore_put. f_equal.
    change (score w0) with (score w). unfold undoInsertStaff. rewrite Hps. f_equal.
    rewrite modifyFirst_split by assumption. now rewrite Part_insertStaff_middle. }
  assert (Hs1 : score w1 =
                set_parts (pre ++ set_partStaves (l1 ++ c :: l2) pB :: post) (score w)).
  { rewrite Hw1. now apply score_putScore. }
  assert (Hr1 : current w1 < List.length (scores w1)).
  { rewrite Hw1. now apply putScore_in_range. }
  change (staffAddr (clone n st)) with n. fold c. fold w0. fold w1.
  set (f := fun s => set_staffLinked true (set_staffContent (staffContent st) s)).
  set (w2 := modifyScore (cloneStaff a n) w1).
  assert (Hw2 : w2 = putScore
                       (set_parts (pre ++ set_partStaves (l1 ++ f c :: l2) pB :: post)
                          (score w)) w0).
  { unfold w2. rewrite modifyScore_put, Hs1, Hw1, putScore_putScore. f_equal.
    unfold cloneStaff. rewrite findStaff_split_insert by exact Ha.
    rewrite <- Hps, set_parts_parts, Hfind.
    now apply modifyStaff_split. }
  assert (Hs2 : score w2 =
                set_parts (pre ++ set_partStaves (l1 ++ f c :: l2) pB :: post) (score w)).
  { rewrite Hw2. now apply score_putScore. }
  f_equal; [|lia].
  destruct (staffLinked st) eqn:Hl; simpl negb; cbv iota.
  - change (staffAddr c) with n. fold w2. rewrite Hw2. unfold w0, putScore, modifyScore, modifyScoreAt. simpl.
    unfold movedCopy, f, c, clone, set_staffLinked, set_staffContent. simpl.
    now rewrite Hl.
  - change (staffAddr c) with n. fold w2.
    rewrite modifyScore_put, Hs2, Hw2, putScore_putScore.
    unfold undoUnlink. rewrite modifyStaff_split by (assumption || reflexivity).
    unfold w0, putScore, modifyScore, modifyScoreAt. simpl.
    unfold movedCopy, f, c, clone, set_staffLinked, set_staffContent. simpl.
    now rewrite Hl.
Qed.

Lemma findStaff_In (a : nat) (s : Score) (st : Staff) :
  findStaff a s = Some st -> In st (scoreStaves s) /\ staffAddr st = a.
Proof.
  unfold findStaff. intros H. apply find_some in H. destruct H as [Hin He].
  split; [assumption | now apply Nat.eqb_eq].
Qed.

Lemma movedCopies_length (a : nat) (srcs : list Staff) :
  List.length (movedCopies a srcs) = List.length srcs.
Proof. revert a. induction srcs as [|st r IH]; intros a; simpl; auto. Qed.

Lemma movedCopies_addr (a : nat) (srcs : list Staff) :
  Forall (fun st => a <= staffAddr st < a + List.length srcs) (movedCopies a srcs).
Proof.
  revert a. induction srcs as [|st r IH]; intros a; simpl; constructor.
  - simpl. lia.
  - eapply Forall_impl; [|apply IH]. simpl. intros; lia.
Qed.

(** The first loop of [doMoveStaves]: the clones of the sources arrive in
    order between [l1] and [l2]. *)
Lemma doMoveStaves_clone_loop (B : ID) (pre post : list Part) (pB : Part)
  (l1 l2 : list Staff) (srcs : list Staff) :
  forall (cs : list Staff) (w : World),
    current w < List.length (scores w) ->
    parts (score w) = pre ++ set_partStaves (l1 ++ cs ++ l2) pB :: post ->
    hasPart B pre = false ->
    partId pB = B ->
    Forall (fun s => staffAddr s < nextAddr w) (scoreStaves (score w)) ->
    Forall (fun st => findStaff (staffAddr st) (score w) = Some st) srcs ->
    fold_left (doMoveStaves_clone (Some B)) (map staffAddr srcs)
      (w, Z.of_nat (List.length (l1 ++ cs))) =
    (set_nextAddr (nextAddr w + List.length srcs)
       (putScore
          (set_parts
             (pre ++
              set_partStaves (l1 ++ (cs ++ movedCopies (nextAddr w) srcs) ++ l2) pB :: post)
             (score w)) w),
     Z.of_nat (List.length (l1 ++ cs) + List.length srcs)).
Proof.
  induction srcs as [|st rest IH]; intros cs w Hr Hps Hpre HB Hfresh Hsrc.
  - simpl. rewrite !Nat.add_0_r, app_nil_r, <- Hps, set_parts_parts, putScore_score.
    now destruct w.
  - apply Forall_cons_iff in Hsrc. destruct Hsrc as [Hst Hrest].
    cbn [map fold_left].
    assert (Hps' : parts (score w) = pre ++ set_partStaves ((l1 ++ cs) ++ l2) pB :: post).
    { now rewrite <- app_assoc. }
    rewrite (doMoveStaves_clone_step B pre post pB (l1 ++ cs) l2 w (staffAddr st) st
               Hr Hps' Hpre HB).
    + set (n := nextAddr w).
      set (c := movedCopy n st).
      set (w' := set_nextAddr (S n)
                   (putScore
                      (set_parts (pre ++ set_partStaves ((l1 ++ cs) ++ c :: l2) pB :: post)
                         (score w)) w)).
      assert (Hs' : score w' =
                    set_parts (pre ++ set_partStaves (l1 ++ (cs ++ [c]) ++ l2) pB :: post)
                      (score w)).
      { unfold w'. change (score (set_nextAddr (S n) ?x)) with (score x).
        rewrite score_putScore by assumption. now rewrite <- !app_assoc. }
      replace (S (List.length (l1 ++ cs))) with (List.length (l1 ++ cs ++ [c]))
        by (rewrite !length_app; simpl; lia).
      rewrite (IH (cs ++ [c]) w').
      * f_equal.
        -- rewrite Hs'. unfold w'. simpl nextAddr.
           unfold putScore, modifyScore, modifyScoreAt, set_nextAddr, set_scores. simpl.
           rewrite replaceAt_replaceAt, <- !app_assoc. simpl.
           f_equal; try reflexivity; lia.
        -- rewrite !length_app. simpl. lia.
      * unfold w'. apply (putScore_in_range _ w Hr).
      * now rewrite Hs'.
      * assumption.
      * assumption.
      * rewrite Hs'. unfold w'. simpl nextAddr. unfold scoreStaves in *. simpl parts.
        rewrite Hps, scoreStaves_split in Hfresh. rewrite scoreStaves_split. simpl in *.
        rewrite !Forall_app in *. destruct Hfresh as [H1 [[H2 [H3 H4]] H5]].
        repeat split; try (eapply Forall_impl; [|eassumption]; simpl; intros; lia).
        constructor; [simpl; lia | constructor].
      * rewrite Hs'. rewrite Forall_forall in *. intros x Hx.
        specialize (Hrest x Hx).
        replace (l1 ++ (cs ++ [c]) ++ l2) with ((l1 ++ cs) ++ c :: l2)
          by (now rewrite <- !app_assoc).
        rewrite findStaff_split_insert.
        -- rewrite <- Hps', set_parts_parts. exact Hrest.
        -- apply findStaff_In in Hrest. destruct Hrest as [Hin _].
           specialize (Hfresh x Hin). simpl. fold n in Hfresh. lia.
    + eapply Forall_impl; [|exact Hfresh]. simpl. intros; lia.
    + exact Hst.
Qed.

Lemma notAmong_cons (a : nat) (l : list nat) (st : Staff) :
  notAmong (a :: l) st = negb (Nat.eqb (staffAddr st) a) && notAmong l st.
Proof. unfold notAmong. simpl. now rewrite Bool.negb_orb. Qed.

Lemma withoutStaves_nil (p : Part) : withoutStaves [] p = p.
Proof.
  unfold withoutStaves. rewrite forallb_filter_id; [now destruct p|].
  apply forallb_forall. reflexivity.
Qed.

(** The second loop of [doMoveStaves]: the originals leave their parts. *)
Lemma doMoveStaves_remove_loop (l : list nat) :
  forall w,
    current w < List.length (scores w) ->
    fold_left (fun w a => modifyScore (undoRemoveStaff a) w) l w =
    putScore (set_parts (map (withoutStaves l) (parts (score w))) (score w)) w.
Proof.
  induction l as [|a l IH]; intros w Hr; simpl.
  - rewrite (map_ext _ (fun p => p)) by apply withoutStaves_nil.
    now rewrite map_id, set_parts_parts, putScore_score.
  - rewrite IH.
    + rewrite modifyScore_put, score_putScore, putScore_putScore by assumption.
      f_equal. unfold undoRemoveStaff. simpl. unfold set_parts. simpl. f_equal.
      rewrite map_map. apply map_ext. intros p. unfold withoutStaves, set_partStaves. simpl.
      f_equal. rewrite filter_filter. apply filter_ext. intros st.
      now rewrite notAmong_cons.
    + rewrite modifyScore_put. now apply putScore_in_range.
Qed.

Lemma stavesByIds_resolve (ids : IDList) (w : World) :
  stavesByIds ids w = map staffAddr (resolveStaves ids w).
Proof.
  induction ids as [|sid ids IH]; simpl; [reflexivity|].
  destruct (staff sid w); simpl; now rewrite IH.
Qed.

Lemma NoDup_map_eq {A B : Type} (f : A -> B) (l : list A) (x y : A) :
  NoDup (map f l) -> In x l -> In y l -> f x = f y -> x = y.
Proof.
  induction l as [|a l IH]; simpl; intros Hn Hx Hy He; [contradiction|].
  inversion Hn as [|? ? Hna Hnl]; subst.
  destruct Hx as [<-|Hx], Hy as [<-|Hy]; auto.
  - exfalso. apply Hna. rewrite He. now apply in_map.
  - exfalso. apply Hna. rewrite <- He. now apply in_map.
Qed.

Lemma NoDup_of_map {A B : Type} (f : A -> B) (l : list A) :
  NoDup (map f l) -> NoDup l.
Proof.
  induction l as [|a l IH]; simpl; intros H; constructor; inversion H; subst.
  - intros Hin. apply H2. now apply in_map.
  - now apply IH.
Qed.

Lemma find_by_addr (l : list Staff) (st : Staff) :
  NoDup (map staffAddr l) -> In st l ->
  find (fun x => Nat.eqb (staffAddr x) (staffAddr st)) l = Some st.
Proof.
  intros Hn Hin.
  destruct (find (fun x => Nat.eqb (staffAddr x) (staffAddr st)) l) as [y|] eqn:F.
  - apply find_some in F. destruct F as [Hy He]. apply Nat.eqb_eq in He.
    f_equal. now apply (NoDup_map_eq staffAddr l).
  - exfalso. apply (find_none _ _ F) in Hin. now rewrite Nat.eqb_refl in Hin.
Qed.

Lemma find_by_id (l : list Staff) (st : Staff) :
  NoDup (map staffId l) -> In st l ->
  find (fun x => String.eqb (staffId x) (staffId st)) l = Some st.
Proof.
  intros Hn Hin.
  destruct (find (fun x => String.eqb (staffId x) (staffId st)) l) as [y|] eqn:F.
  - apply find_some in F. destruct F as [Hy He]. apply String.eqb_eq in He.
    f_equal. now apply (NoDup_map_eq staffId l).
  - exfalso. apply (find_none _ _ F) in Hin. now rewrite String.eqb_refl in Hin.
Qed.

Lemma staff_In (sid : ID) (w : World) (st : Staff) :
  staff sid w = Some st -> In st (scoreStaves (score w)) /\ staffId st = sid.
Proof.
  unfold staff, Score_staff. intros H. apply find_some in H. destruct H as [Hin He].
  split; [assumption | now apply String.eqb_eq].
Qed.

Lemma resolveStaves_In (ids : IDList) (w : World) (st : Staff) :
  In st (resolveStaves ids w) ->
  In st (scoreStaves (score w)) /\ In (staffId st) ids.
Proof.
  induction ids as [|sid ids IH]; simpl; [contradiction|].
  destruct (staff sid w) as [x|] eqn:E.
  - intros [<-|Hin].
    + apply staff_In in E. destruct E as [H1 H2]. split; [assumption | now left].
    + destruct (IH Hin). split; [assumption | now right].
  - intros Hin. destruct (IH Hin). split; [assumption | now right].
Qed.

Lemma resolveStaves_complete (ids : IDList) (w : World) (sid : ID) (st : Staff) :
  In sid ids -> staff sid w = Some st -> In st (resolveStaves ids w).
Proof.
  induction ids as [|x ids IH]; simpl; [contradiction|].
  intros [->|Hin] Hs.
  - rewrite Hs. now left.
  - destruct (staff x w); [right|]; now apply IH.
Qed.

Lemma resolveStaves_NoDup (ids : IDList) (w : World) :
  NoDup ids -> NoDup (map staffId (resolveStaves ids w)).
Proof.
  induction ids as [|sid ids IH]; simpl; intros Hn; [constructor|].
  inversion Hn as [|? ? Hna Hnl]; subst.
  destruct (staff sid w) as [x|] eqn:E; [|now apply IH].
  simpl. constructor; [|now apply IH].
  apply staff_In in E. destruct E as [_ E]. rewrite E.
  intros Hin. apply in_map_iff in Hin. destruct Hin as [y [Hy Hin]].
  apply resolveStaves_In in Hin. destruct Hin as [_ Hin]. now rewrite Hy in Hin.
Qed.

(** The part that owns a staff, with what stands before and after it. *)
Lemma ownerOf_split (a : nat) (ps : list Part) (B : ID) :
  ownerOf a ps = Some B ->
  exists pre pB post,
    ps = pre ++ pB :: post /\ partId pB = B /\
    existsb (fun st => Nat.eqb (staffAddr st) a) (partStaves pB) = true /\
    Forall (fun st => staffAddr st <> a) (flat_map partStaves pre).
Proof.
  induction ps as [|p ps IH]; simpl; [discriminate|].
  destruct (existsb (fun st => Nat.eqb (staffAddr st) a) (partStaves p)) eqn:E.
  - intros H. injection H as <-. exists [], p, ps. repeat split; auto.
  - intros H. destruct (IH H) as [pre [pB [post [-> [HB [He Hf]]]]]].
    exists (p :: pre), pB, post. repeat split; auto. simpl. apply Forall_app. split; auto.
    apply Forall_forall. intros st Hin Ha.
    assert (existsb (fun st => Nat.eqb (staffAddr st) a) (partStaves p) = true).
    { apply existsb_exists. exists st. split; [assumption | now apply Nat.eqb_eq]. }
    congruence.
Qed.

Lemma NoDup_split_hasPart (pre post : list Part) (q : Part) :
  NoDup (map partId (pre ++ q :: post)) ->
  hasPart (partId q) pre = false /\ hasPart (partId q) post = false.
Proof.
  rewrite map_app. simpl. intros H. apply NoDup_remove_2 in H.
  split; apply Bool.not_true_is_false; intros E; apply hasPart_In in E; apply H;
    apply in_or_app; auto.
Qed.

Lemma staffIdx_split (pre post : list Part) (q : Part) :
  hasPart (partId q) pre = false ->
  staffIdx (partId q) (pre ++ q :: post) = List.length (flat_map partStaves pre).
Proof.
  induction pre as [|p pre IH]; simpl; intros H.
  - now rewrite String.eqb_refl.
  - destruct (String.eqb (partId p) (partId q)); [discriminate|]. simpl in H.
    rewrite length_app, IH by assumption. reflexivity.
Qed.

Lemma indexOfAddr_app_r (a : nat) (l1 l2 : list Staff) :
  Forall (fun st => staffAddr st <> a) l1 ->
  indexOfAddr a (l1 ++ l2) = List.length l1 + indexOfAddr a l2.
Proof.
  induction 1 as [|x l1 Hx _ IH]; simpl; [reflexivity|].
  destruct (Nat.eqb_spec (staffAddr x) a); [contradiction | now rewrite IH].
Qed.

Lemma indexOfAddr_app_l (a : nat) (l1 l2 : list Staff) :
  existsb (fun st => Nat.eqb (staffAddr st) a) l1 = true ->
  indexOfAddr a (l1 ++ l2) = indexOfAddr a l1 /\ indexOfAddr a l1 < List.length l1.
Proof.
  induction l1 as [|x l1 IH]; simpl; [discriminate|].
  destruct (Nat.eqb (staffAddr x) a); simpl; [intros _; split; [reflexivity | lia]|].
  intros H. destruct (IH H). split; lia.
Qed.

(** The destination index that [moveStaves] computes is a position within
    the staves of the destination part. *)
Lemma moveStaves_destination_index (d : Staff) (pre post : list Part) (pB : Part)
  (mode : InsertMode) :
  existsb (fun st => Nat.eqb (staffAddr st) (staffAddr d)) (partStaves pB) = true ->
  Forall (fun st => staffAddr st <> staffAddr d) (flat_map partStaves pre) ->
  hasPart (partId pB) pre = false ->
  exists k,
    k <= nstaves pB /\
    ((match mode with
      | Before => Z.of_nat (indexOfAddr (staffAddr d) (flat_map partStaves (pre ++ pB :: post)))
      | After =>
          Z.of_nat (indexOfAddr (staffAddr d) (flat_map partStaves (pre ++ pB :: post))) + 1
      end) - Z.of_nat (staffIdx (partId pB) (pre ++ pB :: post)))%Z = Z.of_nat k.
Proof.
  intros He Hpre Hn. rewrite staffIdx_split by assumption.
  rewrite scoreStaves_split, indexOfAddr_app_r by assumption.
  destruct (indexOfAddr_app_l _ _ (flat_map partStaves post) He) as [-> Hlt].
  unfold nstaves. destruct mode.
  - exists (indexOfAddr (staffAddr d) (partStaves pB)). split; lia.
  - exists (S (indexOfAddr (staffAddr d) (partStaves pB))). split; lia.
Qed.

Lemma isEmpty_false {A : Type} (l : list A) : l <> [] -> isEmpty l = false.
Proof. destruct l; [congruence | reflexivity]. Qed.

Lemma set_partStaves_same (p : Part) : set_partStaves (partStaves p) p = p.
Proof. now destruct p. Qed.

Lemma score_emit (e : Event) (w : World) : score (emit e w) = score w.
Proof. reflexivity. Qed.

(** The parts of the score after [moveStaves]: the destination part [pB]
    has received the copies of the sources at position [k] of its staves, and
    then every part has lost the staves at the addresses of the sources. *)
Lemma moveStaves_parts (ids : IDList) (dst : ID) (mode : InsertMode) (w : World)
  (d : Staff) :
  current w < List.length (scores w) ->
  NoDup (map staffAddr (scoreStaves (score w))) ->
  Forall (fun st => staffAddr st < nextAddr w) (scoreStaves (score w)) ->
  NoDup (map partId (parts (score w))) ->
  ids <> [] ->
  staff dst w = Some d ->
  exists pre pB post k,
    parts (score w) = pre ++ pB :: post /\
    ownerOf (staffAddr d) (parts (score w)) = Some (partId pB) /\
    k <= nstaves pB /\
    parts (score (moveStaves ids dst mode w)) =
      map (withoutStaves (map staffAddr (resolveStaves ids w)))
        (pre ++
         set_partStaves
           (firstn k (partStaves pB) ++
            movedCopies (nextAddr w) (resolveStaves ids w) ++ skipn k (partStaves pB)) pB
         :: post).
Proof.
  intros Hr Haddr Hfresh Hids Hne Hd.
  destruct (staff_In _ _ _ Hd) as [Hin _].
  pose proof (find_by_addr _ _ Haddr Hin) as Hfind. fold (findStaff (staffAddr d) (score w)) in Hfind.
  destruct (findStaff_ownerOf _ _ _ Hfind) as [B HB].
  destruct (ownerOf_split _ _ _ HB) as [pre [pB [post [Hps [HidB [He Hpre]]]]]].
  subst B.
  assert (Hn : hasPart (partId pB) pre = false).
  { rewrite Hps in Hids. now apply NoDup_split_hasPart in Hids. }
  destruct (moveStaves_destination_index d pre post pB mode He Hpre Hn) as [k [Hk Hidx]].
  exists pre, pB, post, k. repeat split; try assumption.
  unfold moveStaves. rewrite (isEmpty_false _ Hne), Hd, HB.
  unfold Staff_idx, scoreStaves. rewrite Hps. cbv zeta.
  replace (match mode with
           | Before =>
               Z.of_nat (indexOfAddr (staffAddr d) (flat_map partStaves (pre ++ pB :: post)))
           | After =>
               (Z.of_nat (indexOfAddr (staffAddr d) (flat_map partStaves (pre ++ pB :: post)))
                + 1)%Z
           end - Z.of_nat (staffIdx (partId pB) (pre ++ pB :: post)))%Z
    with (Z.of_nat k).
  rewrite !score_emit. unfold apply. rewrite score_emit.
  unfold doMoveStaves. rewrite stavesByIds_resolve.
  change (resolveStaves ids (startEdit w)) with (resolveStaves ids w).
  set (srcs := resolveStaves ids w).
  set (l1 := firstn k (partStaves pB)).
  set (l2 := skipn k (partStaves pB)).
  assert (Hl1 : List.length (l1 ++ []) = k).
  { rewrite app_nil_r. unfold l1. apply firstn_length_le. exact Hk. }
  rewrite <- Hl1 at 1.
  rewrite (doMoveStaves_clone_loop (partId pB) pre post pB l1 l2 srcs [] (startEdit w)).
  - cbn [fst]. rewrite doMoveStaves_remove_loop.
    + rewrite score_putScore.
      * change (score (set_nextAddr ?n (putScore ?s (startEdit w)))) with
          (score (putScore s (startEdit w))).
        rewrite score_putScore by exact Hr. reflexivity.
      * apply (putScore_in_range _ (startEdit w) Hr).
    + apply (putScore_in_range _ (startEdit w) Hr).
  - exact Hr.
  - change (score (startEdit w)) with (score w). rewrite Hps. simpl.
    unfold l1, l2. now rewrite firstn_skipn, set_partStaves_same.
  - assumption.
  - reflexivity.
  - exact Hfresh.
  - apply Forall_forall. intros st Hst. apply resolveStaves_In in Hst.
    destruct Hst as [Hst _]. change (score (startEdit w)) with (score w).
    unfold findStaff. now apply find_by_addr.
Qed.

Lemma flat_map_withoutStaves (l : list nat) (ps : list Part) :
  flat_map partStaves (map (withoutStaves l) ps) =
  filter (notAmong l) (flat_map partStaves ps).
Proof.
  induction ps as [|p ps IH]; simpl; [reflexivity|]. now rewrite filter_app, IH.
Qed.

Lemma filter_map_same_id (f : Part -> bool) (g : Part -> Part) (ps : list Part) :
  (forall p, f (g p) = f p) ->
  filter f (map g ps) = map g (filter f ps).
Proof.
  intros H. induction ps as [|p ps IH]; simpl; [reflexivity|].
  rewrite H. destruct (f p); simpl; now rewrite IH.
Qed.

Lemma filter_partition_perm {A : Type} (f : A -> bool) (l : list A) :
  Permutation l (filter f l ++ filter (fun x => negb (f x)) l).
Proof.
  induction l as [|a l IH]; simpl; [constructor|].
  destruct (f a); simpl.
  - now constructor.
  - now apply Permutation_cons_app.
Qed.

Lemma movedCopies_idContent (n : nat) (srcs : list Staff) :
  map idContent (movedCopies n srcs) = map idContent srcs.
Proof. revert n. induction srcs as [|st r IH]; intros n; simpl; [|rewrite IH]; reflexivity. Qed.

Lemma movedCopies_In (n : nat) (srcs : list Staff) (st : Staff) :
  In st srcs ->
  exists c, In c (movedCopies n srcs) /\ staffId c = staffId st /\
            staffContent c = staffContent st /\ n <= staffAddr c.
Proof.
  revert n. induction srcs as [|x r IH]; intros n; simpl; [contradiction|].
  intros [->|Hin].
  - exists (movedCopy n st). repeat split; auto.
  - destruct (IH (S n) Hin) as [c [H1 [H2 [H3 H4]]]]. exists c. repeat split; auto. lia.
Qed.

Lemma notAmong_fresh (n : nat) (srcs : list Staff) (c : Staff) :
  Forall (fun st => staffAddr st < n) srcs -> n <= staffAddr c ->
  notAmong (map staffAddr srcs) c = true.
Proof.
  intros Hs Hc. unfold notAmong. apply Bool.negb_true_iff.
  apply Bool.not_true_is_false. intros E. apply existsb_exists in E.
  destruct E as [a [Ha He]]. apply Nat.eqb_eq in He. apply in_map_iff in Ha.
  destruct Ha as [st [Hst Hin]]. rewrite Forall_forall in Hs. specialize (Hs _ Hin). lia.
Qed.

Lemma filter_all {A : Type} (f : A -> bool) (l : list A) :
  Forall (fun x => f x = true) l -> filter f l = l.
Proof. induction 1 as [|a l Ha _ IH]; simpl; [|rewrite Ha, IH]; reflexivity. Qed.

Lemma notAmong_true_iff (l : list nat) (st : Staff) :
  notAmong l st = true <-> ~ In (staffAddr st) l.
Proof.
  unfold notAmong. rewrite Bool.negb_true_iff. split.
  - intros E Hin. assert (existsb (Nat.eqb (staffAddr st)) l = true); [|congruence].
    apply existsb_exists. exists (staffAddr st). split; [assumption | apply Nat.eqb_refl].
  - intros H. apply Bool.not_true_is_false. intros E. apply existsb_exists in E.
    destruct E as [a [Ha He]]. apply Nat.eqb_eq in He. now subst.
Qed.

(** The sources are the staves of the region at their own addresses. *)
Lemma sources_of_region (L : list Staff) (srcs : list Staff) :
  NoDup (map staffAddr L) -> NoDup srcs -> incl srcs L ->
  Permutation (filter (fun st => negb (notAmong (map staffAddr srcs) st)) L) srcs.
Proof.
  intros HL Hs Hincl. apply NoDup_Permutation.
  - apply NoDup_filter. now apply NoDup_of_map in HL.
  - exact Hs.
  - intros x. rewrite filter_In, Bool.negb_true_iff. split.
    + intros [Hx E]. destruct (notAmong (map staffAddr srcs) x) eqn:N; [discriminate|].
      assert (Hin : In (staffAddr x) (map staffAddr srcs)).
      { destruct (in_dec Nat.eq_dec (staffAddr x) (map staffAddr srcs)) as [i|n];
          [assumption|]. apply notAmong_true_iff in n. congruence. }
      apply in_map_iff in Hin. destruct Hin as [st [He Hst]].
      assert (st = x); [|now subst].
      apply (NoDup_map_eq staffAddr L); auto.
    + intros Hx. split; [now apply Hincl|].
      apply Bool.not_true_is_false. intros N. apply notAmong_true_iff in N.
      apply N. now apply in_map.
Qed.

Lemma moved_permutation_shape {A : Type} (x y c z v : list A) :
  Permutation (x ++ (y ++ c ++ z) ++ v) (c ++ x ++ (y ++ z) ++ v).
Proof.
  rewrite <- !app_assoc.
  transitivity (x ++ c ++ y ++ z ++ v).
  - apply Permutation_app_head. rewrite !app_assoc. apply Permutation_app_tail.
    apply Permutation_app_tail. apply Permutation_app_comm.
  - rewrite !app_assoc. apply Permutation_app_tail. apply Permutation_app_tail.
    apply Permutation_app_tail. apply Permutation_app_comm.
Qed.

Lemma NoDup_app_l {A : Type} (l1 l2 : list A) : NoDup (l1 ++ l2) -> NoDup l1.
Proof.
  induction l1 as [|a l1 IH]; simpl; intros H; constructor; inversion H; subst.
  - intros Hin. apply H2. apply in_or_app. now left.
  - now apply IH.
Qed.

Lemma NoDup_app_r {A : Type} (l1 l2 : list A) : NoDup (l1 ++ l2) -> NoDup l2.
Proof.
  induction l1 as [|a l1 IH]; simpl; intros H; [assumption|].
  inversion H; subst. now apply IH.
Qed.

Lemma NoDup_app_drop {A : Type} (l1 l2 l3 : list A) :
  NoDup (l1 ++ l2 ++ l3) -> NoDup (l1 ++ l3).
Proof.
  induction l1 as [|a l1 IH]; simpl; intros H.
  - now apply NoDup_app_r in H.
  - inversion H; subst. constructor; [|now apply IH].
    intros Hin. apply H2. apply in_app_or in Hin. apply in_or_app.
    destruct Hin; [now left|]. right. apply in_or_app. now right.
Qed.

Lemma NoDup_region (f : Part -> bool) (ps : list Part) :
  NoDup (map staffAddr (flat_map partStaves ps)) ->
  NoDup (map staffAddr (flat_map partStaves (filter f ps))).
Proof.
  induction ps as [|p ps IH]; simpl; intros H; [constructor|].
  rewrite map_app in H. destruct (f p); simpl.
  - rewrite map_app. pose proof (NoDup_app_r _ _ H) as Hr. specialize (IH Hr).
    clear Hr. revert H. generalize (map staffAddr (partStaves p)) as l1.
    induction l1 as [|a l1 IHl]; simpl; intros H; [assumption|].
    inversion H; subst. constructor; [|now apply IHl].
    intros Hin. apply H2. apply in_app_or in Hin. apply in_or_app.
    destruct Hin as [Hin|Hin]; [now left | right].
    apply in_map_iff in Hin. destruct Hin as [st [He Hin]]. apply in_map_iff.
    exists st. split; [assumption|]. apply in_flat_map in Hin. apply in_flat_map.
    destruct Hin as [q [Hq Hst]]. exists q. split; [|assumption].
    apply filter_In in Hq. tauto.
  - apply IH. now apply NoDup_app_r in H.
Qed.

(** Within a region of parts that holds the destination part and every
    source, the staves after the move are the staves before it, as far as
    identifier and content go. *)
Lemma moved_region_permutation (inR : Part -> bool) (pre post : list Part) (pB : Part)
  (l1 l2 srcs : list Staff) (n0 : nat) :
  (forall p l, inR (set_partStaves l p) = inR p) ->
  inR pB = true ->
  partStaves pB = l1 ++ l2 ->
  NoDup (map staffAddr (flat_map partStaves (pre ++ pB :: post))) ->
  Forall (fun st => staffAddr st < n0) (flat_map partStaves (pre ++ pB :: post)) ->
  NoDup srcs ->
  incl srcs (flat_map partStaves (filter inR (pre ++ pB :: post))) ->
  Permutation
    (map idContent
       (flat_map partStaves
          (filter inR
             (map (withoutStaves (map staffAddr srcs))
                (pre ++ set_partStaves (l1 ++ movedCopies n0 srcs ++ l2) pB :: post)))))
    (map idContent (flat_map partStaves (filter inR (pre ++ pB :: post)))).
Proof.
  intros HinR HB Hst Haddr Hfresh Hsrcs Hincl.
  set (A := map staffAddr srcs).
  set (cs := movedCopies n0 srcs).
  set (L := flat_map partStaves (filter inR (pre ++ pB :: post))) in *.
  assert (HsrcFresh : Forall (fun st => staffAddr st < n0) srcs).
  { apply Forall_forall. intros st Hin. apply Hincl in Hin. unfold L in Hin.
    rewrite Forall_forall in Hfresh. apply Hfresh.
    apply in_flat_map in Hin. apply in_flat_map. destruct Hin as [q [Hq Hs]].
    exists q. split; [|assumption]. apply filter_In in Hq. tauto. }
  assert (HL : L = flat_map partStaves (filter inR pre) ++ (l1 ++ l2) ++
                   flat_map partStaves (filter inR post)).
  { unfold L. rewrite filter_app. simpl. rewrite HB, scoreStaves_split. now rewrite Hst. }
  rewrite filter_map_same_id by (intros p; apply HinR).
  rewrite flat_map_withoutStaves, filter_app. simpl. rewrite HinR, HB.
  rewrite scoreStaves_split. simpl partStaves.
  rewrite !filter_app.
  assert (Hcs : filter (notAmong A) cs = cs).
  { apply filter_all. apply Forall_forall. intros c Hc.
    apply (notAmong_fresh n0); [assumption|].
    pose proof (movedCopies_addr n0 srcs) as Hb. rewrite Forall_forall in Hb.
    apply Hb in Hc. lia. }
  rewrite Hcs.
  rewrite moved_permutation_shape, map_app. unfold cs. rewrite movedCopies_idContent.
  rewrite <- map_app. apply Permutation_map.
  rewrite <- !filter_app, <- HL.
  transitivity (filter (fun st => negb (notAmong A st)) L ++ filter (notAmong A) L).
  - apply Permutation_app_tail. symmetry. apply sources_of_region; try assumption.
    unfold L. now apply NoDup_region.
  - symmetry.
    rewrite (filter_ext (notAmong A) (fun st => negb (negb (notAmong A st)))).
    + apply (filter_partition_perm (fun st => negb (notAmong A st))).
    + intros st. now rewrite Bool.negb_involutive.
Qed.

Lemma filter_true {A : Type} (l : list A) : filter (fun _ => true) l = l.
Proof. apply filter_all. apply Forall_forall. reflexivity. Qed.

Lemma ownerOf_staff_in_region (inR : Part -> bool) (ps : list Part) (st : Staff) (A : ID) :
  NoDup (map staffAddr (flat_map partStaves ps)) ->
  In st (flat_map partStaves ps) ->
  ownerOf (staffAddr st) ps = Some A ->
  (forall p, partId p = A -> inR p = true) ->
  In st (flat_map partStaves (filter inR ps)).
Proof.
  intros Hn Hin Ho HR.
  destruct (ownerOf_split _ _ _ Ho) as [pre [pA [post [-> [HA [He _]]]]]].
  apply existsb_exists in He. destruct He as [x [Hx He]]. apply Nat.eqb_eq in He.
  assert (HxL : In x (flat_map partStaves (pre ++ pA :: post))).
  { apply in_flat_map. exists pA. split; [|assumption]. apply in_or_app. right. now left. }
  assert (x = st) by (apply (NoDup_map_eq staffAddr _ _ _ Hn); auto). subst x.
  apply in_flat_map. exists pA. split; [|assumption].
  apply filter_In. split; [apply in_or_app; right; now left | now apply HR].
Qed.

Lemma ownerOf_after_move (l : list nat) (pre post : list Part) (q : Part) (c : Staff) :
  Forall (fun st => staffAddr st <> staffAddr c) (flat_map partStaves pre) ->
  In c (partStaves q) ->
  notAmong l c = true ->
  ownerOf (staffAddr c) (map (withoutStaves l) (pre ++ q :: post)) = Some (partId q).
Proof.
  intros Hpre Hc Hn. induction pre as [|p pre IH]; simpl in *.
  - assert (E : existsb (fun st => Nat.eqb (staffAddr st) (staffAddr c))
                  (filter (notAmong l) (partStaves q)) = true).
    { apply existsb_exists. exists c. split; [|apply Nat.eqb_refl].
      apply filter_In. now split. }
    now rewrite E.
  - apply Forall_app in Hpre. destruct Hpre as [Hp Hpre].
    assert (E : existsb (fun st => Nat.eqb (staffAddr st) (staffAddr c))
                  (filter (notAmong l) (partStaves p)) = false).
    { apply Bool.not_true_is_false. intros E. apply existsb_exists in E.
      destruct E as [x [Hx He]]. apply Nat.eqb_eq in He. apply filter_In in Hx.
      rewrite Forall_forall in Hp. now apply (Hp x). }
    rewrite E. now apply IH.
Qed.

(** C8.  [moveStaves] of a set of staves, all owned by part [A], to a
    destination staff that exists (owned by part [B]), in a score whose
    parts, staves and staff objects are distinct: the staves of [A] and [B]
    together are as many after the move as before and carry the same
    identifier / content pairs, and so do the staves of the whole score, so
    no content is lost or duplicated; every moved staff is found again under
    its identifier, with its content, in part [B]. *)
Theorem moveStaves_preserves_staves (ids : IDList) (dst : ID) (mode : InsertMode)
  (w : World) (d : Staff) (A : ID) :
  current w < List.length (scores w) ->
  NoDup (map staffAddr (scoreStaves (score w))) ->
  Forall (fun st => staffAddr st < nextAddr w) (scoreStaves (score w)) ->
  NoDup (map partId (parts (score w))) ->
  NoDup (map staffId (scoreStaves (score w))) ->
  NoDup ids ->
  ids <> [] ->
  staff dst w = Some d ->
  (forall sid st, In sid ids -> staff sid w = Some st ->
                  ownerOf (staffAddr st) (parts (score w)) = Some A) ->
  exists B,
    ownerOf (staffAddr d) (parts (score w)) = Some B /\
    List.length (regionStaves [A; B] (score (moveStaves ids dst mode w))) =
      List.length (regionStaves [A; B] (score w)) /\
    Permutation
      (map idContent (regionStaves [A; B] (score (moveStaves ids dst mode w))))
      (map idContent (regionStaves [A; B] (score w))) /\
    Permutation
      (map idContent (scoreStaves (score (moveStaves ids dst mode w))))
      (map idContent (scoreStaves (score w))) /\
    (forall sid st, In sid ids -> staff sid w = Some st ->
       exists st',
         staff sid (moveStaves ids dst mode w) = Some st' /\
         staffContent st' = staffContent st /\
         ownerOf (staffAddr st') (parts (score (moveStaves ids dst mode w))) = Some B).
Proof.
  intros Hr Haddr Hfresh Hparts Hsid Hids Hne Hd Hown.
  destruct (moveStaves_parts ids dst mode w d Hr Haddr Hfresh Hparts Hne Hd)
    as [pre [pB [post [k [Hps [HB [Hk Hparts']]]]]]].
  exists (partId pB). split; [exact HB|].
  set (srcs := resolveStaves ids w) in *.
  set (l1 := firstn k (partStaves pB)) in *.
  set (l2 := skipn k (partStaves pB)) in *.
  assert (Hst : partStaves pB = l1 ++ l2) by (symmetry; apply firstn_skipn).
  assert (Hsrcs : NoDup srcs).
  { apply (NoDup_of_map staffId). now apply resolveStaves_NoDup. }
  assert (HsrcStaff : forall st, In st srcs -> staff (staffId st) w = Some st /\
                                                 In (staffId st) ids).
  { intros st Hin. apply resolveStaves_In in Hin. destruct Hin as [Hin Hi].
    split; [|assumption]. unfold staff, Score_staff. now apply find_by_id. }
  unfold scoreStaves in Haddr, Hfresh. rewrite Hps in Haddr, Hfresh.
  assert (Hregion :
    Permutation
      (map idContent (regionStaves [A; partId pB] (score (moveStaves ids dst mode w))))
      (map idContent (regionStaves [A; partId pB] (score w)))).
  { unfold regionStaves. rewrite Hparts', Hps.
    apply moved_region_permutation; try assumption.
    - reflexivity.
    - simpl. rewrite String.eqb_refl. now rewrite Bool.orb_true_r.
    - intros st Hin. destruct (HsrcStaff st Hin) as [Hs Hi].
      apply (ownerOf_staff_in_region _ _ st A); try assumption.
      + apply staff_In in Hs. destruct Hs as [Hs _]. unfold scoreStaves in Hs.
        now rewrite Hps in Hs.
      + rewrite <- Hps. now apply (Hown (staffId st)).
      + intros p Hp. simpl. now rewrite Hp, String.eqb_refl. }
  assert (Hwhole :
    Permutation
      (map idContent (scoreStaves (score (moveStaves ids dst mode w))))
      (map idContent (scoreStaves (score w)))).
  { unfold scoreStaves. rewrite Hparts', Hps.
    rewrite <- (filter_true (pre ++ pB :: post)).
    rewrite <- (filter_true
                  (map (withoutStaves (map staffAddr srcs))
                     (pre ++
                      set_partStaves (l1 ++ movedCopies (nextAddr w) srcs ++ l2) pB
                      :: post))).
    apply moved_region_permutation; try assumption; try reflexivity.
    intros st Hin. rewrite filter_true. destruct (HsrcStaff st Hin) as [Hs _].
    apply staff_In in Hs. destruct Hs as [Hs _]. unfold scoreStaves in Hs.
    now rewrite Hps in Hs. }
  split; [|split; [exact Hregion | split; [exact Hwhole|]]].
  - apply Permutation_length in Hregion. now rewrite !length_map in Hregion.
  - intros sid st Hin Hs.
    assert (Hsrc : In st srcs) by (now apply (resolveStaves_complete ids w sid)).
    destruct (movedCopies_In (nextAddr w) srcs st Hsrc) as [c [Hc [Hcid [Hcc Hca]]]].
    assert (HsrcFresh : Forall (fun x => staffAddr x < nextAddr w) srcs).
    { apply Forall_forall. intros x Hx. destruct (HsrcStaff x Hx) as [Hxs _].
      apply staff_In in Hxs. destruct Hxs as [Hxs _]. unfold scoreStaves in Hxs.
      rewrite Hps in Hxs. rewrite Forall_forall in Hfresh. now apply Hfresh. }
    assert (Hnm : notAmong (map staffAddr srcs) c = true).
    { now apply (notAmong_fresh (nextAddr w)). }
    assert (HcB : In c (l1 ++ movedCopies (nextAddr w) srcs ++ l2)).
    { apply in_or_app. right. apply in_or_app. now left. }
    assert (HcIn : In c (scoreStaves (score (moveStaves ids dst mode w)))).
    { unfold scoreStaves. rewrite Hparts', flat_map_withoutStaves.
      apply filter_In. split; [|assumption]. rewrite scoreStaves_split.
      apply in_or_app. right. apply in_or_app. now left. }
    assert (Hnd : NoDup (map staffId (scoreStaves (score (moveStaves ids dst mode w))))).
    { apply (Permutation_map fst) in Hwhole. rewrite !map_map in Hwhole. simpl in Hwhole.
      apply (Permutation_NoDup (l := map staffId (scoreStaves (score w)))).
      - symmetry. exact Hwhole.
      - exact Hsid. }
    exists c. split; [|split; [assumption|]].
    + apply staff_In in Hs. destruct Hs as [_ Hs]. rewrite <- Hs, <- Hcid.
      unfold staff, Score_staff. now apply find_by_id.
    + rewrite Hparts'.
      apply (ownerOf_after_move _ pre post
               (set_partStaves (l1 ++ movedCopies (nextAddr w) srcs ++ l2) pB) c).
      * rewrite scoreStaves_split in Hfresh.
        apply Forall_app in Hfresh. destruct Hfresh as [Hfp _].
        eapply Forall_impl; [|exact Hfp]. simpl. intros; lia.
      * exact HcB.
      * exact Hnm.
Qed.

Lemma moveStaves_preserves_staves_witness :
  exists B,
    ownerOf 3 (parts (score stringsWindsWorld)) = Some B /\
    List.length
      (regionStaves ["Strings"%string; B]
         (score (moveStaves ["staff-2"%string] "staff-3" Before stringsWindsWorld))) =
      List.length (regionStaves ["Strings"%string; B] (score stringsWindsWorld)) /\
    Permutation
      (map idContent
         (regionStaves ["Strings"%string; B]
            (score (moveStaves ["staff-2"%string] "staff-3" Before stringsWindsWorld))))
      (map idContent (regionStaves ["Strings"%string; B] (score stringsWindsWorld))) /\
    Permutation
      (map idContent
         (scoreStaves
            (score (moveStaves ["staff-2"%string] "staff-3" Before stringsWindsWorld))))
      (map idContent (scoreStaves (score stringsWindsWorld))) /\
    (forall sid st,
       In sid ["staff-2"%string] -> staff sid stringsWindsWorld = Some st ->
       exists st',
         staff sid (moveStaves ["staff-2"%string] "staff-3" Before stringsWindsWorld) =
           Some st' /\
         staffContent st' = staffContent st /\
         ownerOf (staffAddr st')
           (parts (score (moveStaves ["staff-2"%string] "staff-3" Before
                            stringsWindsWorld))) = Some B).
Proof.
  apply (moveStaves_preserves_staves ["staff-2"%string] "staff-3" Before stringsWindsWorld
           (exampleStaff 3 "staff-3" [(0%Z, "e5"%string)]) "Strings").
  - simpl. lia.
  - vm_compute. repeat constructor; simpl; intuition discriminate.
  - repeat constructor; vm_compute; lia.
  - vm_compute. repeat constructor; simpl; intuition discriminate.
  - vm_compute. repeat constructor; simpl; intuition discriminate.
  - repeat constructor. simpl. tauto.
  - discriminate.
  - reflexivity.
  - intros sid st [<-|[]] H. vm_compute in H. injection H as <-. reflexivity.
Defined.

(** ** Moving a single instrument in front of another *)

Lemma parts_score_modifyScore (f : Score -> Score) (w : World) :
  parts (f (score w)) = parts (score w) ->
  parts (score (modifyScore f w)) = parts (score w).
Proof.
  intros H. destruct (Nat.lt_ge_cases (current w) (List.length (scores w))) as [L|G].
  - now rewrite score_modifyScore.
  - unfold modifyScore. now rewrite modifyScoreAt_beyond.
Qed.

Lemma part_modifyScore_parts (pid : ID) (f : Score -> Score) (w : World) :
  parts (f (score w)) = parts (score w) ->
  part pid (modifyScore f w) = part pid w.
Proof.
  intros H. rewrite !part_unfold, parts_score_modifyScore by assumption. reflexivity.
Qed.

Lemma part_set_nextAddr (pid : ID) (n : nat) (w : World) :
  part pid (set_nextAddr n w) = part pid w.
Proof. reflexivity. Qed.

Lemma part_notifyAboutInstrumentsChanged (pid q : ID) (w : World) :
  part pid (notifyAboutInstrumentsChanged q w) = part pid w.
Proof.
  unfold notifyAboutInstrumentsChanged. destruct (part q w) as [p|]; [|reflexivity].
  generalize (values (instruments p [])) as l. intros l. revert w.
  induction l as [|i l IH]; intros w; simpl; [reflexivity|]. now rewrite IH.
Qed.

Lemma partId_Part_removeInstrument (iid : ID) (p : Part) :
  partId (Part_removeInstrument iid p) = partId p.
Proof. reflexivity. Qed.

Lemma partId_Part_setInstrument (i : MsInstrument) (t : Fraction) (p : Part) :
  partId (Part_setInstrument i t p) = partId p.
Proof. reflexivity. Qed.

(** Removing instruments from one part leaves the other parts alone. *)
Lemma part_doRemoveInstruments_other (ids : IDList) (a b : ID) (w : World) :
  a <> b -> part b (doRemoveInstruments ids a w) = part b w.
Proof.
  intros Hne. unfold doRemoveInstruments.
  generalize (instrumentChangeElements a (score w)) as ice. intros ice. revert w.
  induction ids as [|x ids IH]; intros w; simpl; [reflexivity|].
  rewrite IH. destruct (instrumentInfo x (part a w)) as [[t i]|]; [|reflexivity].
  rewrite part_modifyPart_other by (assumption || reflexivity).
  destruct (qmap_value t ice); [|reflexivity].
  now apply part_modifyScore_parts.
Qed.

Lemma part_doInsertInstruments_assign (b : ID) (ice : QMap Element)
  (l : list (MsInstrument * Fraction)) :
  forall (w : World) (P : Part),
    part b w = Some P ->
    part b (fold_left (doInsertInstruments_assign b ice) l w) =
    Some (set_partInstruments (assignAll l (partInstruments P)) P).
Proof.
  induction l as [|[i f] l IH]; intros w P HP; cbn [fold_left].
  - rewrite HP. now destruct P.
  - assert (Hid : partId P = b).
    { unfold part, partIn in HP. now apply find_partId in HP. }
    set (w1 := doInsertInstruments_assign b ice w (i, f)).
    assert (H1 : part b w1 = Some (Part_setInstrument i f P)).
    { unfold w1, doInsertInstruments_assign.
      destruct (qmap_value f ice) as [ic|].
      - rewrite part_modifyScore_parts by reflexivity.
        apply part_modifyPart_same; [|exact Hid].
        now rewrite part_modifyScore_parts by reflexivity.
      - destruct (chordRest f b (score w)) as [cr|].
        + rewrite part_modifyScore_parts by reflexivity.
          now apply part_modifyPart_same.
        + now apply part_modifyPart_same. }
    rewrite (IH w1 _ H1). reflexivity.
Qed.

Lemma qmap_value_insert {V : Type} (k k' : Fraction) (v : V) (m : QMap V) :
  qmap_value k (qmap_insert k' v m) =
  if (k =? k')%Z then Some v else qmap_value k m.
Proof.
  induction m as [|[k1 v1] m IH]; simpl; [reflexivity|].
  destruct (Z.ltb_spec k' k1); simpl; [reflexivity|].
  destruct (Z.eqb_spec k' k1); simpl.
  - subst. now destruct (Z.eqb_spec k k1).
  - rewrite IH. destruct (Z.eqb_spec k k1); [|reflexivity].
    subst. destruct (Z.eqb_spec k1 k'); [congruence | reflexivity].
Qed.

Lemma keys_qmap_insert {V : Type} (k : Fraction) (v : V) (m : QMap V) (x : Fraction) :
  In x (keys (qmap_insert k v m)) -> x = k \/ In x (keys m).
Proof.
  induction m as [|[k1 v1] m IH]; simpl; [intuition congruence|].
  destruct (Z.ltb_spec k k1); simpl; [intuition congruence|].
  destruct (Z.eqb_spec k k1); simpl; [intuition congruence|].
  intros [H1|H1]; [tauto|]. apply IH in H1. tauto.
Qed.

Lemma qmap_insert_sorted {V : Type} (k : Fraction) (v : V) (m : QMap V) :
  StronglySorted Z.lt (keys m) -> StronglySorted Z.lt (keys (qmap_insert k v m)).
Proof.
  induction m as [|[k1 v1] m IH]; simpl; intros H.
  - repeat constructor.
  - inversion H as [|? ? Hs Hf]; subst.
    destruct (Z.ltb_spec k k1); simpl.
    + constructor; [assumption|]. constructor; [assumption|].
      eapply Forall_impl; [|exact Hf]. simpl. intros; lia.
    + destruct (Z.eqb_spec k k1); simpl.
      * subst. now constructor.
      * constructor; [now apply IH|]. apply Forall_forall. intros x Hx.
        apply (keys_qmap_insert k v m) in Hx. destruct Hx as [->|Hx]; [lia|].
        rewrite Forall_forall in Hf. now apply Hf.
Qed.

Lemma qmap_value_None {V : Type} (k : Fraction) (m : QMap V) :
  ~ In k (keys m) -> qmap_value k m = None.
Proof.
  induction m as [|[k1 v1] m IH]; simpl; intros H; [reflexivity|].
  destruct (Z.eqb_spec k k1); [subst; tauto|]. apply IH. tauto.
Qed.

Lemma qmap_value_Some_In {V : Type} (k : Fraction) (m : QMap V) (v : V) :
  qmap_value k m = Some v -> In k (keys m).
Proof.
  induction m as [|[k1 v1] m IH]; simpl; [discriminate|].
  destruct (Z.eqb_spec k k1); [subst; tauto|]. intros H. right. now apply IH.
Qed.

(** Two maps in strict key order with the same lookups are the same map. *)
Lemma qmap_ext {V : Type} (m1 : QMap V) :
  forall m2,
    StronglySorted Z.lt (keys m1) -> StronglySorted Z.lt (keys m2) ->
    (forall k, qmap_value k m1 = qmap_value k m2) -> m1 = m2.
Proof.
  induction m1 as [|[k1 v1] m1 IH]; intros [|[k2 v2] m2] H1 H2 He.
  - reflexivity.
  - specialize (He k2). simpl in He. now rewrite Z.eqb_refl in He.
  - specialize (He k1). simpl in He. now rewrite Z.eqb_refl in He.
  - simpl in H1, H2. inversion H1 as [|? ? Hs1 Hf1]; subst.
    inversion H2 as [|? ? Hs2 Hf2]; subst.
    rewrite Forall_forall in Hf1, Hf2.
    assert (Hk : k1 = k2).
    { pose proof (He k1) as E1. pose proof (He k2) as E2. simpl in E1, E2.
      rewrite Z.eqb_refl in E1, E2.
      destruct (Z.eqb_spec k1 k2); [assumption|].
      destruct (Z.eqb_spec k2 k1); [congruence|].
      symmetry in E1. apply qmap_value_Some_In in E1. apply qmap_value_Some_In in E2.
      specialize (Hf1 _ E2). specialize (Hf2 _ E1). lia. }
    subst k2. pose proof (He k1) as E. simpl in E. rewrite Z.eqb_refl in E.
    injection E as ->. f_equal. apply IH; try assumption.
    intros k. specialize (He k). simpl in He.
    destruct (Z.eqb_spec k k1); [|assumption].
    subst. rewrite !qmap_value_None; [reflexivity| |].
    + intros Hin. specialize (Hf2 _ Hin). lia.
    + intros Hin. specialize (Hf1 _ Hin). lia.
Qed.

Lemma assignAll_sorted (l : list (MsInstrument * Fraction)) :
  forall m, StronglySorted Z.lt (keys m) -> StronglySorted Z.lt (keys (assignAll l m)).
Proof.
  induction l as [|e l IH]; intros m H; simpl; [assumption|].
  apply IH. now apply qmap_insert_sorted.
Qed.

Lemma find_none_of {A : Type} (f : A -> bool) (l : list A) :
  (forall x, In x l -> f x = false) -> find f l = None.
Proof.
  induction l as [|a l IH]; simpl; intros H; [reflexivity|].
  rewrite (H a) by now left. apply IH. intros x Hx. apply H. now right.
Qed.

Lemma assignAll_lookup (l : list (MsInstrument * Fraction)) (k : Fraction) :
  forall m,
    NoDup (map snd l) ->
    qmap_value k (assignAll l m) =
    match find (fun e => (snd e =? k)%Z) l with
    | Some e => Some (fst e)
    | None => qmap_value k m
    end.
Proof.
  induction l as [|[i f] l IH]; intros m Hn; simpl; [reflexivity|].
  inversion Hn as [|? ? Hni Hnl]; subst. unfold assignAll in IH. rewrite IH by assumption.
  simpl. destruct (Z.eqb_spec f k).
  - subst f. rewrite find_none_of.
    + rewrite qmap_value_insert. unfold ticks. now rewrite Z.eqb_refl.
    + intros [i' f'] Hin. simpl. apply Z.eqb_neq. intros ->. apply Hni.
      apply in_map_iff. now exists (i', k).
  - destruct (find (fun e => (snd e =? k)%Z) l); [reflexivity|].
    rewrite qmap_value_insert. unfold ticks.
    destruct (Z.eqb_spec k f); [congruence | reflexivity].
Qed.

Lemma keys_combine {V : Type} (K : list Fraction) (Vs : list V) :
  List.length Vs = List.length K -> keys (combine K Vs) = K.
Proof.
  revert Vs. induction K as [|k K IH]; intros [|v Vs]; simpl; intros H;
    try discriminate; [reflexivity|]. f_equal. apply IH. lia.
Qed.

Lemma values_combine {V : Type} (K : list Fraction) (Vs : list V) :
  List.length Vs = List.length K -> values (combine K Vs) = Vs.
Proof.
  revert Vs. induction K as [|k K IH]; intros [|v Vs]; simpl; intros H;
    try discriminate; [reflexivity|]. f_equal. apply IH. lia.
Qed.

Lemma snd_combine {V : Type} (K : list Fraction) (Vs : list V) :
  List.length Vs = List.length K -> map snd (combine Vs K) = K.
Proof.
  revert Vs. induction K as [|k K IH]; intros [|v Vs]; simpl; intros H;
    try discriminate; [reflexivity|]. f_equal. apply IH. lia.
Qed.

Lemma find_combine_lookup (k : Fraction) (K : list Fraction) :
  forall Vs : list MsInstrument,
    List.length Vs = List.length K ->
    match find (fun e => (snd e =? k)%Z) (combine Vs K) with
    | Some e => Some (fst e)
    | None => None
    end = qmap_value k (combine K Vs) /\
    (find (fun e => (snd e =? k)%Z) (combine Vs K) = None -> ~ In k K).
Proof.
  induction K as [|k1 K IH]; intros [|v Vs] H; simpl in *; try discriminate.
  - split; [reflexivity | tauto].
  - rewrite (Z.eqb_sym k k1). destruct (Z.eqb_spec k1 k); simpl.
    + split; [reflexivity | discriminate].
    + destruct (IH Vs) as [IH1 IH2]; [lia|]. split; [assumption|].
      intros Hn [E|Hin]; [congruence | now apply IH2].
Qed.

Lemma StronglySorted_lt_NoDup (l : list Z) : StronglySorted Z.lt l -> NoDup l.
Proof.
  induction 1 as [|a l Hs IH Hf]; constructor; [|assumption].
  intros Hin. rewrite Forall_forall in Hf. specialize (Hf _ Hin). lia.
Qed.

(** Assigning the instruments to the sorted ticks, the first one at the
    primary tick: when the ticks are in strict order, start at the primary
    tick and cover the keys of the mapping, the result pairs tick and
    instrument position by position. *)
Lemma assignAll_positional (m : QMap MsInstrument) (k0 : Fraction) (Kt : list Fraction)
  (v0 : MsInstrument) (Vt : list MsInstrument) :
  StronglySorted Z.lt (keys m) ->
  StronglySorted Z.lt (k0 :: Kt) ->
  incl (keys m) (k0 :: Kt) ->
  List.length Vt = List.length Kt ->
  assignAll (combine Vt Kt) (qmap_insert k0 v0 m) = combine (k0 :: Kt) (v0 :: Vt).
Proof.
  intros Hm HK Hincl Hlen.
  inversion HK as [|? ? HKt Hk0]; subst. rewrite Forall_forall in Hk0.
  apply qmap_ext.
  - apply assignAll_sorted. now apply qmap_insert_sorted.
  - rewrite keys_combine by (simpl; lia). exact HK.
  - intros k. rewrite assignAll_lookup.
    + destruct (find_combine_lookup k Kt Vt Hlen) as [H1 H2].
      simpl. rewrite qmap_value_insert.
      destruct (Z.eqb_spec k k0).
      * subst k. rewrite find_none_of; [reflexivity|].
        intros [i f] Hin. simpl. apply Z.eqb_neq. intros ->.
        assert (Hf : In k0 Kt).
        { rewrite <- (snd_combine Kt Vt Hlen). apply in_map_iff. now exists (i, k0). }
        specialize (Hk0 _ Hf). lia.
      * rewrite <- H1.
        destruct (find (fun e => (snd e =? k)%Z) (combine Vt Kt)); [reflexivity|].
        apply qmap_value_None. intros Hin. apply Hincl in Hin.
        destruct Hin as [E|Hin]; [congruence|]. now apply H2.
    + rewrite snd_combine by assumption. now apply StronglySorted_lt_NoDup.
Qed.

(** [std::sort]: the sorted list is a permutation of the list, in order. *)
Lemma insertSorted_perm (x : Z) (l : list Z) : Permutation (insertSorted x l) (x :: l).
Proof.
  induction l as [|y l IH]; simpl; [reflexivity|].
  destruct (x <=? y)%Z; [reflexivity|].
  rewrite IH. apply perm_swap.
Qed.

Lemma sortTicks_perm (l : list Z) : Permutation (sortTicks l) l.
Proof.
  induction l as [|x l IH]; simpl; [constructor|].
  rewrite insertSorted_perm. now constructor.
Qed.

Lemma insertSorted_sorted (x : Z) (l : list Z) :
  StronglySorted Z.le l -> StronglySorted Z.le (insertSorted x l).
Proof.
  induction 1 as [|y l Hs IH Hf]; simpl; [repeat constructor|].
  destruct (Z.leb_spec x y).
  - constructor; [now constructor|]. constructor; [assumption|].
    eapply Forall_impl; [|exact Hf]. simpl. intros; lia.
  - constructor; [assumption|].
    apply (Permutation_Forall (x := x :: l)).
    + symmetry. apply insertSorted_perm.
    + constructor; [lia | assumption].
Qed.

Lemma sortTicks_sorted (l : list Z) : StronglySorted Z.le (sortTicks l).
Proof.
  induction l as [|x l IH]; simpl; [constructor|]. now apply insertSorted_sorted.
Qed.

Lemma sorted_le_NoDup_lt (l : list Z) :
  StronglySorted Z.le l -> NoDup l -> StronglySorted Z.lt l.
Proof.
  induction 1 as [|a l Hs IH Hf]; intros Hn; constructor; inversion Hn; subst.
  - now apply IH.
  - rewrite Forall_forall in *. intros x Hx. specialize (Hf _ Hx).
    assert (x <> a) by (intros ->; contradiction). lia.
Qed.

Lemma sortTicks_strict (l : list Z) : NoDup l -> StronglySorted Z.lt (sortTicks l).
Proof.
  intros H. apply sorted_le_NoDup_lt; [apply sortTicks_sorted|].
  apply (Permutation_NoDup (l := l)); [|assumption]. symmetry. apply sortTicks_perm.
Qed.

Lemma containsTick_In (l : list Fraction) (f : Fraction) :
  containsTick l f = true <-> In f l.
Proof.
  unfold containsTick. rewrite existsb_exists. split.
  - intros [x [Hx He]]. apply Z.eqb_eq in He. now subst.
  - intros H. exists f. split; [assumption | apply Z.eqb_refl].
Qed.

Lemma sorted_last_max (l : list Z) (d : Z) :
  StronglySorted Z.lt l -> Forall (fun k => (k <= last l d)%Z) l.
Proof.
  induction 1 as [|a l Hs IH Hf]; [constructor|].
  destruct l as [|b l']; [repeat constructor; simpl; lia|].
  change (last (a :: b :: l') d) with (last (b :: l') d).
  constructor; [|exact IH].
  inversion Hf; subst. inversion IH; subst. lia.
Qed.

Lemma last_In {A : Type} (l : list A) (d : A) : l <> [] -> In (last l d) l.
Proof.
  induction l as [|a l IH]; [congruence|]. intros _.
  destruct l as [|b l']; [now left|]. right. apply IH. discriminate.
Qed.

Lemma sorted_head_min (k0 : Z) (l : list Z) :
  StronglySorted Z.lt (k0 :: l) -> Forall (fun k => (k0 <= k)%Z) (k0 :: l).
Proof.
  intros H. inversion H; subst. constructor; [lia|].
  eapply Forall_impl; [|eassumption]. simpl. intros; lia.
Qed.

(** The tick list of the destination after one incoming tick. *)
Lemma appendFraction_spec (K : list Fraction) (tx : Fraction) (Kt : list Fraction) :
  K = PRIMARY_TICK :: Kt ->
  StronglySorted Z.lt K ->
  Forall (fun k => (k < INT_MAX)%Z) K ->
  (PRIMARY_TICK <= tx)%Z ->
  appendFraction K tx = K ++ [incomingTick K tx] /\
  ~ In (incomingTick K tx) K /\
  (PRIMARY_TICK <= incomingTick K tx)%Z.
Proof.
  intros HK Hs Hr Htx. unfold appendFraction, incomingTick, fromTicks, ticks.
  pose proof (sorted_last_max K 0%Z Hs) as Hmax.
  assert (Hmin : Forall (fun k => (PRIMARY_TICK <= k)%Z) K).
  { rewrite HK in Hs |- *. now apply sorted_head_min. }
  assert (Hl : In (last K 0%Z) K) by (apply last_In; rewrite HK; discriminate).
  rewrite Forall_forall in Hmax, Hmin, Hr.
  pose proof (Hmin _ Hl) as H1. pose proof (Hr _ Hl) as H2.
  unfold PRIMARY_TICK, Fraction in *. cbv beta in H1, H2.
  destruct (containsTick K tx) eqn:E.
  - rewrite wrap_int_in_range by (unfold INT_MIN, INT_MAX in *; lia).
    split; [reflexivity | split; [|lia]]. intros Hin. specialize (Hmax _ Hin).
    cbv beta in Hmax. lia.
  - split; [reflexivity | split; [|assumption]].
    intros Hin. apply containsTick_In in Hin. congruence.
Qed.

Lemma destinationIndexOf_split (y : ID) (V : list MsInstrument) (di : nat) :
  destinationIndexOf y V = Some di ->
  exists l1 Y l2,
    V = l1 ++ Y :: l2 /\ List.length l1 = di /\ instrumentId Y = y /\
    Forall (fun i => instrumentId i <> y) l1.
Proof.
  revert di. induction V as [|i V IH]; simpl; intros di; [discriminate|].
  destruct (String.eqb_spec (instrumentId i) y).
  - intros H. injection H as <-. exists [], i, V. repeat split; auto.
  - destruct (destinationIndexOf y V) as [d|]; [|discriminate].
    simpl. intros H. injection H as <-.
    destruct (IH d eq_refl) as [l1 [Y [l2 [-> [Hl [HY Hf]]]]]].
    exists (i :: l1), Y, l2. repeat split; simpl; auto.
Qed.

Lemma length_insertAt {A : Type} (i : nat) (x : A) (l : list A) :
  List.length (insertAt i x l) = S (List.length l).
Proof. revert i. induction l as [|a l IH]; intros [|i]; simpl; auto. Qed.

Lemma part_renamePart_same (pid : ID) (w : World) (P : Part) :
  part pid w = Some P ->
  part pid (renamePart pid w) = Some (ChangePart (instrument P) (formatPartName P) P).
Proof.
  intros H. unfold renamePart. rewrite H.
  apply part_doSetPartName_same; [assumption|].
  unfold part, partIn in H. now apply find_partId in H.
Qed.

Lemma part_renamePart_primary (pid : ID) (w : World) (P : Part) :
  part pid w = Some P ->
  primaryFirst P ->
  part pid (renamePart pid w) = Some (set_partName (formatPartName P) P).
Proof.
  intros H Hprim. rewrite (part_renamePart_same pid w P H).
  now rewrite ChangePart_primaryFirst.
Qed.

Lemma part_renamePart_other (a b : ID) (w : World) :
  a <> b -> part b (renamePart a w) = part b w.
Proof.
  intros H. unfold renamePart, doSetPartName. destruct (part a w); [|reflexivity].
  now apply part_modifyPart_other.
Qed.

(** [doInsertInstruments] for one incoming instrument in Before mode: the
    mapping of the destination pairs the sorted ticks with the instruments
    in their new order. *)
Lemma doInsertInstruments_single (tx : Fraction) (X : MsInstrument) (b y : ID) (w : World)
  (PB : Part) (di : nat) :
  part b w = Some PB ->
  StronglySorted Z.lt (keys (partInstruments PB)) ->
  hd_error (keys (partInstruments PB)) = Some PRIMARY_TICK ->
  Forall (fun k => (k < INT_MAX)%Z) (keys (partInstruments PB)) ->
  (PRIMARY_TICK <= tx)%Z ->
  destinationIndexOf y (values (partInstruments PB)) = Some di ->
  exists P',
    part b (doInsertInstruments [(tx, X)] b y Before w) = Some P' /\
    primaryFirst P' /\
    partInstruments P' =
      combine
        (sortTicks (keys (partInstruments PB) ++
                    [incomingTick (keys (partInstruments PB)) tx]))
        (insertAt di X (values (partInstruments PB))).
Proof.
  intros Hb Hs Hhd Hr Htx Hdi.
  set (m := partInstruments PB) in *.
  set (K := keys m) in *. set (V := values m) in *.
  assert (HK : exists Kt, K = PRIMARY_TICK :: Kt).
  { destruct K as [|k Kt]; [discriminate|]. simpl in Hhd. injection Hhd as ->. now eexists. }
  destruct HK as [Kt0 HK].
  destruct (appendFraction_spec K tx Kt0 HK Hs Hr Htx) as [Happ [Hnew Hpos]].
  set (t' := incomingTick K tx) in *.
  set (K' := sortTicks (K ++ [t'])).
  set (V' := insertAt di X V).
  assert (HKV : List.length V = List.length K).
  { unfold V, K, values, keys. now rewrite !length_map. }
  assert (Hperm : Permutation K' (K ++ [t'])) by apply sortTicks_perm.
  assert (Hstrict : StronglySorted Z.lt K').
  { apply sortTicks_strict. apply NoDup_app; [now apply StronglySorted_lt_NoDup| |].
    - repeat constructor. simpl. tauto.
    - intros k Hk [<-|[]]. contradiction. }
  assert (Hlen : List.length V' = List.length K').
  { unfold V'. rewrite length_insertAt, (Permutation_length Hperm), length_app. simpl. lia. }
  assert (Hmin : Forall (fun k => (PRIMARY_TICK <= k)%Z) K').
  { apply (Permutation_Forall (x := K ++ [t'])); [now symmetry|].
    apply Forall_app. split; [|repeat constructor; assumption].
    clear - HK Hs. rewrite HK in Hs |- *. now apply sorted_head_min. }
  assert (HK' : exists Kt, K' = PRIMARY_TICK :: Kt).
  { destruct K' as [|k0 Kt] eqn:EK.
    - apply Permutation_length in Hperm. rewrite length_app in Hperm. simpl in Hperm. lia.
    - exists Kt. f_equal.
      assert (Hin : In PRIMARY_TICK (k0 :: Kt)).
      { apply (Permutation_in (l := K ++ [t'])); [now symmetry|].
        apply in_or_app. left. rewrite HK. now left. }
      pose proof (sorted_head_min _ _ Hstrict) as Hh. rewrite Forall_forall in Hh, Hmin.
      specialize (Hh _ Hin). specialize (Hmin k0 (or_introl eq_refl)). lia. }
  destruct HK' as [Kt HK'].
  assert (HV' : exists v0 Vt, V' = v0 :: Vt).
  { destruct V' as [|v0 Vt]; [|now eexists; eexists].
    rewrite HK' in Hlen. discriminate. }
  destruct HV' as [v0 [Vt HV']].
  unfold doInsertInstruments. rewrite Hb, instruments_all. fold m. fold K. fold V.
  rewrite Hdi. cbn [keys values map fst snd insertAll fold_left].
  rewrite Happ. fold K'. fold V'.
  assert (Hpos' : (0 <? List.length K') = true).
  { rewrite HK'. reflexivity. }
  rewrite Hpos'. rewrite HV', HK'. cbn [nth tl].
  set (w1 := modifyPart b (Part_setInstrument v0 PRIMARY_TICK) w).
  assert (Hid : partId PB = b).
  { unfold part, partIn in Hb. now apply find_partId in Hb. }
  assert (H1 : part b w1 = Some (Part_setInstrument v0 PRIMARY_TICK PB)).
  { now apply part_modifyPart_same. }
  pose proof (part_doInsertInstruments_assign b
                (instrumentChangeElements b (score w1)) (combine Vt Kt) w1 _ H1) as H2.
  match type of H2 with _ = Some ?Q => set (Q0 := Q) in * end.
  assert (HQ : partInstruments Q0 = combine (PRIMARY_TICK :: Kt) (v0 :: Vt)).
  { unfold Q0. simpl partInstruments. unfold ticks.
    apply assignAll_positional.
    - exact Hs.
    - now rewrite <- HK'.
    - rewrite <- HK'. intros k Hk. apply (Permutation_in (l := K ++ [t'])); [now symmetry|].
      apply in_or_app. now left.
    - rewrite HV', HK' in Hlen. simpl in Hlen. now injection Hlen. }
  assert (HQ1 : primaryFirst Q0) by (unfold primaryFirst; now rewrite HQ).
  exists (set_partName (formatPartName Q0) Q0). split; [|split].
  - now apply part_renamePart_primary.
  - exact HQ1.
  - exact HQ.
Qed.

Lemma destinationIndexOf_exists (y : ID) (V : list MsInstrument) :
  In y (map instrumentId V) -> exists di, destinationIndexOf y V = Some di.
Proof.
  induction V as [|i V IH]; simpl; [contradiction|].
  destruct (String.eqb_spec (instrumentId i) y); [now eexists|].
  intros [E|Hin]; [contradiction|]. destruct (IH Hin) as [d ->]. now eexists.
Qed.

(** C7, as the code has it, for one moved instrument.  [X] is the only
    instrument of part [a] with identifier [x], at tick [tx]; part [b] is
    another part whose mapping is in strict tick order from the primary tick
    on (ticks below the largest [int]) and holds an instrument [Y] with
    identifier [y].  After [moveInstruments([x], a, b, y, Before)] the
    instruments of [b] are the old ones in their order with [X] immediately
    in front of the first such [Y]; its ticks are the old ticks and one new
    tick, all distinct and in order.  The new tick is [X]'s own tick when it
    was free in [b], and otherwise the last tick of [b] plus one. *)
Theorem moveInstruments_single_before
  (x a b y : ID) (w : World) (PA PB : Part) (tx : Fraction) (X : MsInstrument) :
  part a w = Some PA ->
  part b w = Some PB ->
  a <> b ->
  instruments PA [x] = [(tx, X)] ->
  StronglySorted Z.lt (keys (partInstruments PB)) ->
  hd_error (keys (partInstruments PB)) = Some PRIMARY_TICK ->
  Forall (fun k => (k < INT_MAX)%Z) (keys (partInstruments PB)) ->
  (PRIMARY_TICK <= tx)%Z ->
  In y (map instrumentId (values (partInstruments PB))) ->
  exists PB' l1 Y l2,
    part b (moveInstruments [x] a b y Before w) = Some PB' /\
    values (partInstruments PB) = l1 ++ Y :: l2 /\
    instrumentId Y = y /\
    Forall (fun i => instrumentId i <> y) l1 /\
    values (partInstruments PB') = l1 ++ X :: Y :: l2 /\
    StronglySorted Z.lt (keys (partInstruments PB')) /\
    Permutation (keys (partInstruments PB'))
      (incomingTick (keys (partInstruments PB)) tx :: keys (partInstruments PB)).
Proof.
  intros Ha Hb Hne Hx Hs Hhd Hr Htx Hy.
  destruct (destinationIndexOf_exists _ _ Hy) as [di Hdi].
  destruct (destinationIndexOf_split _ _ _ Hdi) as [l1 [Y [l2 [HV [Hl1 [HY Hf]]]]]].
  set (w1 := doRemoveInstruments [x] a (startEdit w)).
  assert (Hb1 : part b w1 = Some PB).
  { unfold w1. rewrite part_doRemoveInstruments_other by assumption. exact Hb. }
  destruct (doInsertInstruments_single tx X b y w1 PB di Hb1 Hs Hhd Hr Htx Hdi)
    as [P' [HP' [Hprim Hm]]].
  set (K := keys (partInstruments PB)) in *.
  set (V := values (partInstruments PB)) in *.
  assert (HKV : List.length V = List.length K).
  { unfold V, K, values, keys. now rewrite !length_map. }
  assert (Hperm : Permutation (sortTicks (K ++ [incomingTick K tx])) (incomingTick K tx :: K)).
  { rewrite sortTicks_perm. rewrite Permutation_app_comm. reflexivity. }
  assert (Hlen : List.length (insertAt di X V) =
                 List.length (sortTicks (K ++ [incomingTick K tx]))).
  { rewrite length_insertAt, (Permutation_length Hperm). simpl.
    f_equal. exact HKV. }
  exists (set_partName (formatPartName P') P'), l1, Y, l2.
  split; [|split; [exact HV | split; [exact HY | split; [exact Hf|]]]].
  - unfold moveInstruments. rewrite Ha, Hb, Hx.
    assert (Hab : String.eqb a b = false) by (now apply String.eqb_neq).
    rewrite Hab. cbn [negb]. cbv iota.
    rewrite !part_emit, !part_notifyAboutInstrumentsChanged, part_emit.
    unfold apply. rewrite part_emit.
    apply part_renamePart_primary; [|exact Hprim].
    rewrite part_renamePart_other by assumption. exact HP'.
  - simpl partInstruments. rewrite Hm.
    rewrite values_combine, keys_combine by exact Hlen.
    split; [|split; [|exact Hperm]].
    + rewrite HV, <- Hl1. apply insertAt_middle.
    + apply sortTicks_strict.
      destruct K as [|k0 Kt] eqn:EK; [discriminate|].
      simpl in Hhd. injection Hhd as ->.
      destruct (appendFraction_spec (PRIMARY_TICK :: Kt) tx Kt eq_refl Hs Hr Htx)
        as [_ [Hnew _]].
      apply NoDup_app; [now apply StronglySorted_lt_NoDup| |].
      * repeat constructor. simpl. tauto.
      * intros k Hk [<-|[]]. contradiction.
Qed.

Lemma moveInstruments_single_before_witness :
  exists PB' l1 Y l2,
    part "B" (moveInstruments ["horn"%string] "A" "B" "flute" Before abWorld) = Some PB' /\
    values (partInstruments partB) = l1 ++ Y :: l2 /\
    instrumentId Y = "flute"%string /\
    Forall (fun i => instrumentId i <> "flute"%string) l1 /\
    values (partInstruments PB') = l1 ++ horn :: Y :: l2 /\
    StronglySorted Z.lt (keys (partInstruments PB')) /\
    Permutation (keys (partInstruments PB'))
      (incomingTick (keys (partInstruments partB)) 3%Z :: keys (partInstruments partB)).
Proof.
  apply (moveInstruments_single_before "horn" "A" "B" "flute" abWorld partA partB 3%Z horn).
  - reflexivity.
  - reflexivity.
  - discriminate.
  - reflexivity.
  - repeat constructor.
  - reflexivity.
  - repeat constructor.
  - vm_compute. discriminate.
  - simpl. tauto.
Defined.

(** ** Repeating [setInstruments] *)

(** *** A settled world is a fixed point *)

Lemma removeMissingInstruments_step_settled (ids : IDList) (w : World) :
  (forall pid q, part pid w = Some q ->
     (instrumentsToRemoveOf ids q = [] /\ partInstruments q <> []) \/
     (allMissing ids q = true /\ absentEverywhere pid w)) ->
  forall pids R,
    (forall pid, In pid R -> absentEverywhere pid w) ->
    exists R',
      fold_left (removeMissingInstruments_step ids) pids (R, w) = (R', w) /\
      (forall pid, In pid R' -> absentEverywhere pid w).
Proof.
  intros HA pids. induction pids as [|pid pids IH]; intros R HR; simpl.
  - now exists R.
  - destruct (part pid w) as [q|] eqn:Hq; [|now apply IH].
    destruct (HA pid q Hq) as [[Hnone Hne]|[Hall Habs]].
    + rewrite Hnone. rewrite instruments_all.
      destruct (partInstruments q) as [|e m] eqn:Em; [congruence|]. simpl.
      now apply IH.
    + unfold allMissing in Hall. rewrite Hall.
      assert (Hid : partId q = pid).
      { unfold part, partIn in Hq. now apply find_partId in Hq. }
      rewrite Hid. apply IH. intros p Hp. apply in_app_or in Hp.
      destruct Hp as [Hp|[<-|[]]]; [now apply HR | exact Habs].
Qed.

Lemma doRemoveParts_others_absent (pid : ID) (l : list nat) (w : World) :
  (forall k, In k l -> hasPart pid (parts (scoreAt k w)) = false) ->
  fold_left
    (fun w0 k => if Nat.eqb k (current w0) then w0
                 else modifyScoreAt k (cmdRemovePart pid) w0) l w = w.
Proof.
  induction l as [|k l IHl]; intros Hl; simpl; [reflexivity|].
  assert (G : (if Nat.eqb k (current w) then w
               else modifyScoreAt k (cmdRemovePart pid) w) = w).
  { destruct (Nat.eqb k (current w)); [reflexivity|].
    apply modifyScoreAt_id. unfold cmdRemovePart.
    now rewrite (Hl k (or_introl eq_refl)). }
  rewrite G. apply IHl. intros j Hj. apply Hl. now right.
Qed.

Lemma doRemoveParts_absent (R : IDList) (w : World) :
  (forall pid, In pid R -> absentEverywhere pid w) -> doRemoveParts R w = w.
Proof.
  unfold doRemoveParts. induction R as [|pid R IH]; intros HR; [reflexivity|].
  cbn [fold_left].
  destruct (HR pid (or_introl eq_refl)) as [Hcur Hoth].
  assert (E : modifyScore (cmdRemovePart pid) w = w).
  { apply modifyScoreAt_id. unfold cmdRemovePart. fold (score w). now rewrite Hcur. }
  rewrite E.
  destruct (isMaster w) eqn:M; cbn [negb].
  - rewrite (doRemoveParts_others_absent pid (scoreList w) w (Hoth eq_refl)).
    apply IH. intros p Hp. apply HR. now right.
  - apply IH. intros p Hp. apply HR. now right.
Qed.

Lemma removeMissingInstruments_settled (ids : IDList) (w : World) :
  settled ids w -> removeMissingInstruments ids w = w.
Proof.
  intros [HA _]. unfold removeMissingInstruments.
  destruct (removeMissingInstruments_step_settled ids w HA (map partId (partList w)) [])
    as [R' [-> HR']]; [intros pid []|].
  now apply doRemoveParts_absent.
Qed.

(** [partList] keeps the part that [part] finds under an identifier. *)
Lemma partList_loop_first (l : list Part) (seen : IDList) (p : Part) :
  find (fun q => String.eqb (partId q) (partId p)) l = Some p ->
  contains seen (partId p) = false ->
  In p (partList_loop seen l).
Proof.
  revert seen. induction l as [|a l IH]; intros seen Hf Hs; simpl in *; [discriminate|].
  destruct (String.eqb_spec (partId a) (partId p)) as [E|N].
  - injection Hf as ->. rewrite Hs. now left.
  - destruct (contains seen (partId a)); [now apply IH|].
    right. apply IH; [assumption|]. simpl.
    destruct (String.eqb_spec (partId p) (partId a)); [congruence | assumption].
Qed.

Lemma allInstrumentsIds_settled (ids : IDList) (w : World) (x : ID) :
  settled ids w -> In x ids -> contains (allInstrumentsIds w) x = true.
Proof.
  intros [_ [HB _]] Hx. destruct (HB x Hx) as [p [Hp Hin]].
  apply contains_In. unfold allInstrumentsIds. apply in_flat_map. exists p.
  split; [|assumption]. unfold partList. now apply partList_loop_first.
Qed.

Lemma setInstruments_create_settled (E : IDList) (l : list Instrument) (w : World) :
  (forall i, In i l -> contains E (instrument_id i) = true) ->
  fold_left (setInstruments_create E) l w = w.
Proof.
  induction l as [|i l IH]; intros H; simpl; [reflexivity|].
  unfold setInstruments_create at 2.
  pose proof (H i (or_introl eq_refl)) as Hi. rewrite Hi.
  destruct E as [|e E]; [discriminate|]. simpl.
  apply IH. intros j Hj. apply H. now right.
Qed.

Lemma find_none_skipn (iid : ID) (ps : list Part) (i : nat) :
  ~ In iid (skipn i (map mainInstrumentId ps)) ->
  find (fun p => String.eqb (mainInstrumentId p) iid) (skipn i ps) = None.
Proof.
  intros H. destruct (find _ (skipn i ps)) as [p|] eqn:F; [|reflexivity].
  exfalso. apply H. apply find_some in F. destruct F as [Hin He].
  apply String.eqb_eq in He. rewrite <- He, skipn_map. now apply in_map.
Qed.

Lemma sortParts_loop_stable (ids : IDList) (i : nat) (w : World) :
  stable i ids (map mainInstrumentId (parts (score w))) ->
  sortParts_loop i ids w = Done w.
Proof.
  revert i. induction ids as [|iid rest IH]; intros i H; simpl; [reflexivity|].
  destruct H as [[m [Hm Hor]] Hrest].
  rewrite nth_error_map in Hm.
  destruct (nth_error (parts (score w)) i) as [cur|]; [|discriminate].
  simpl in Hm. injection Hm as <-.
  destruct (String.eqb_spec (mainInstrumentId cur) iid) as [E|N]; [now apply IH|].
  destruct Hor as [E|Hno]; [contradiction|].
  rewrite (find_none_skipn _ _ _ Hno). now apply IH.
Qed.

Lemma removeEmptyExcerpts_settled (w : World) :
  Forall (fun e => isEmpty (scoreStaves (scoreAt (Excerpt_partScore e) w)) = false)
    (excerpts w) ->
  removeEmptyExcerpts w = w.
Proof.
  intros H. unfold removeEmptyExcerpts.
  assert (E : filter (fun e => negb (isEmpty (scoreStaves (scoreAt (Excerpt_partScore e) w))))
                (excerpts w) = excerpts w).
  { apply forallb_filter_id. apply forallb_forall. rewrite Forall_forall in H.
    intros e He. now rewrite (H e He). }
  rewrite E. now destruct w.
Qed.

Lemma settled_emit (ids : IDList) (e : Event) (w : World) :
  settled ids w -> settled ids (emit e w).
Proof. intros H. exact H. Qed.

Lemma setInstruments_settled (l : list Instrument) (w : World) :
  settled (map instrument_id l) w ->
  setInstruments l w =
  Done (emit PartsChangedNotify (emit PartsNotifierChanged (apply (startEdit w)))).
Proof.
  intros H0. pose proof (settled_emit _ StartEdit _ H0) as H.
  unfold setInstruments. fold (startEdit w) in H.
  rewrite (removeMissingInstruments_settled _ _ H).
  rewrite setInstruments_create_settled.
  2:{ intros i Hi. apply (allInstrumentsIds_settled _ _ _ H). now apply in_map. }
  destruct H as [_ [_ [HC [HD [HS HE]]]]].
  rewrite (isEmpty_false _ HC).
  unfold sortParts. rewrite HD, Nat.eqb_refl.
  rewrite (sortParts_loop_stable _ _ _ HS). simpl.
  now rewrite (removeEmptyExcerpts_settled _ HE).
Qed.

(** *** Operations on the current score *)

Lemma frame_refl (w : World) : frame w w.
Proof. repeat split. Qed.

Lemma frame_trans (w1 w2 w3 : World) : frame w1 w2 -> frame w2 w3 -> frame w1 w3.
Proof.
  intros [C1 [E1 [L1 O1]]] [C2 [E2 [L2 O2]]]. repeat split; try congruence.
  intros k Hk. rewrite O2 by congruence. now apply O1.
Qed.

Lemma frame_in_range (w w' : World) :
  frame w w' -> current w < List.length (scores w) ->
  current w' < List.length (scores w').
Proof. intros [C [_ [L _]]] H. now rewrite C, L. Qed.

Lemma frame_modifyScore (f : Score -> Score) (w : World) : frame w (modifyScore f w).
Proof.
  repeat split.
  - unfold modifyScore, modifyScoreAt. simpl. apply length_replaceAt.
  - intros k Hk. unfold modifyScore. apply scoreAt_modifyScoreAt_other. congruence.
Qed.

Lemma frame_set_nextAddr (n : nat) (w : World) : frame w (set_nextAddr n w).
Proof. repeat split. Qed.

Lemma frame_emit (e : Event) (w : World) : frame w (emit e w).
Proof. repeat split. Qed.

Lemma quiet_refl (w : World) : quiet w w.
Proof. split; [apply frame_refl | split; reflexivity]. Qed.

Lemma quiet_trans (w1 w2 w3 : World) : quiet w1 w2 -> quiet w2 w3 -> quiet w1 w3.
Proof.
  intros [F1 [S1 M1]] [F2 [S2 M2]]. split; [now apply (frame_trans w1 w2 w3)|].
  split; congruence.
Qed.

Lemma quiet_modifyScore (f : Score -> Score) (w : World) :
  (forall s, map idAndInstruments (parts (f s)) = map idAndInstruments (parts s)) ->
  (forall s, measures (f s) = measures s) ->
  quiet w (modifyScore f w).
Proof.
  intros Hs Hm. split; [apply frame_modifyScore|].
  destruct (Nat.lt_ge_cases (current w) (List.length (scores w))) as [L|G].
  - rewrite score_modifyScore by assumption. now split.
  - unfold modifyScore. rewrite modifyScoreAt_beyond by assumption. now split.
Qed.

Lemma quiet_set_nextAddr (n : nat) (w : World) : quiet w (set_nextAddr n w).
Proof. split; [apply frame_set_nextAddr | split; reflexivity]. Qed.

Lemma idAndInstruments_modifyFirst (pid : ID) (f : Part -> Part) (ps : list Part) :
  (forall p, idAndInstruments (f p) = idAndInstruments p) ->
  map idAndInstruments (modifyFirst pid f ps) = map idAndInstruments ps.
Proof.
  intros H. induction ps as [|q ps IH]; simpl; [reflexivity|].
  destruct (String.eqb (partId q) pid); simpl; [now rewrite H | now rewrite IH].
Qed.

Lemma idAndInstruments_map (g : Part -> Part) (ps : list Part) :
  (forall p, idAndInstruments (g p) = idAndInstruments p) ->
  map idAndInstruments (map g ps) = map idAndInstruments ps.
Proof. intros H. rewrite map_map. apply map_ext. exact H. Qed.

Lemma quiet_undoInsertStaff (owner : ID) (st : Staff) (ridx : Z) (w : World) :
  quiet w (modifyScore (undoInsertStaff owner st ridx) w).
Proof.
  apply quiet_modifyScore; [|reflexivity].
  intros s. simpl. now apply idAndInstruments_modifyFirst.
Qed.

Lemma quiet_modifyStaff (a : nat) (f : Staff -> Staff) (w : World) :
  quiet w (modifyScore (modifyStaff a f) w).
Proof.
  apply quiet_modifyScore; [|reflexivity].
  intros s. simpl. now apply idAndInstruments_map.
Qed.

Lemma quiet_cloneStaff (src dst : nat) (w : World) :
  quiet w (modifyScore (cloneStaff src dst) w).
Proof.
  apply quiet_modifyScore; intros s; unfold cloneStaff;
    destruct (findStaff src s); try reflexivity.
  simpl. now apply idAndInstruments_map.
Qed.

Lemma quiet_undoRemoveStaff (a : nat) (w : World) :
  quiet w (modifyScore (undoRemoveStaff a) w).
Proof.
  apply quiet_modifyScore; [|reflexivity].
  intros s. simpl. now apply idAndInstruments_map.
Qed.

Lemma quiet_doMoveStaves_clone (d : option ID) (l : list nat) (w : World) (z : Z) :
  quiet w (fst (fold_left (doMoveStaves_clone d) l (w, z))).
Proof.
  revert w z. induction l as [|a l IH]; intros w z; [apply quiet_refl|].
  cbn [fold_left].
  assert (H : exists w' z', doMoveStaves_clone d (w, z) a = (w', z') /\ quiet w w').
  { unfold doMoveStaves_clone.
    destruct (findStaff a (score w)) as [st|]; [|exists w, z; split; [reflexivity | apply quiet_refl]].
    destruct (ownerOf a (parts (score w))) as [o|];
      [|exists w, z; split; [reflexivity | apply quiet_refl]].
    eexists. eexists. split; [reflexivity|].
    eapply quiet_trans; [apply quiet_set_nextAddr|].
    eapply quiet_trans; [apply quiet_undoInsertStaff|].
    eapply quiet_trans; [apply quiet_cloneStaff|].
    destruct (negb (staffLinked st)); [apply quiet_modifyStaff | apply quiet_refl]. }
  destruct H as [w' [z' [-> Hq]]].
  eapply quiet_trans; [exact Hq | apply IH].
Qed.

Lemma quiet_doMoveStaves (l : list nat) (z : Z) (d : option ID) (w : World) :
  quiet w (doMoveStaves l z d w).
Proof.
  unfold doMoveStaves.
  eapply quiet_trans; [apply (quiet_doMoveStaves_clone d l w z)|].
  generalize (fst (fold_left (doMoveStaves_clone d) l (w, z))) as w1.
  generalize l at 1 as l1.
  induction l1 as [|a l1 IH]; intros w1; [apply quiet_refl|].
  cbn [fold_left]. eapply quiet_trans; [apply quiet_undoRemoveStaff | apply IH].
Qed.

(** *** The sort phase *)

Lemma find_part_NoDup (ps : list Part) (p : Part) :
  NoDup (map partId ps) -> In p ps ->
  find (fun q => String.eqb (partId q) (partId p)) ps = Some p.
Proof.
  intros Hn Hin.
  destruct (find (fun q => String.eqb (partId q) (partId p)) ps) as [y|] eqn:F.
  - apply find_some in F. destruct F as [Hy He]. apply String.eqb_eq in He.
    f_equal. now apply (NoDup_map_eq partId ps).
  - exfalso. apply (find_none _ _ F) in Hin. now rewrite String.eqb_refl in Hin.
Qed.

Lemma part_of_score (w : World) (p : Part) :
  NoDup (map partId (parts (score w))) -> In p (parts (score w)) ->
  part (partId p) w = Some p.
Proof. intros Hn Hin. rewrite part_unfold. now rewrite find_part_NoDup. Qed.

Lemma removeFirst_split (pid : ID) (pre post : list Part) (q : Part) :
  hasPart pid pre = false -> partId q = pid ->
  removeFirst pid (pre ++ q :: post) = pre ++ post.
Proof.
  intros Hn Hid. induction pre as [|x pre IH]; simpl in *.
  - now rewrite Hid, String.eqb_refl.
  - destruct (String.eqb (partId x) pid); [discriminate|]. simpl in Hn. now rewrite IH.
Qed.

Lemma indexOfPart_split (pre post : list Part) (q : Part) :
  hasPart (partId q) pre = false ->
  indexOfPart (partId q) (pre ++ q :: post) = Z.of_nat (List.length pre).
Proof.
  induction pre as [|x pre IH]; intros Hn.
  - simpl. now rewrite String.eqb_refl.
  - cbn [app indexOfPart]. simpl in Hn.
    destruct (String.eqb (partId x) (partId q)); [discriminate|]. simpl in Hn.
    rewrite IH by assumption. cbn [List.length].
    destruct (Z.ltb_spec (Z.of_nat (List.length pre)) 0); lia.
Qed.

Lemma map_partId_idAndInstruments (ps : list Part) :
  map partId ps = map fst (map idAndInstruments ps).
Proof. rewrite map_map. reflexivity. Qed.

Lemma mains_idAndInstruments (ps : list Part) :
  map mainInstrumentId ps = map mainOf (map idAndInstruments ps).
Proof. rewrite map_map. reflexivity. Qed.

Lemma idAndInstruments_set_same (pid : ID) (m : QMap MsInstrument) (ps : list Part) :
  (forall q, In q ps -> partId q = pid -> partInstruments q = m) ->
  map idAndInstruments (modifyFirst pid (set_partInstruments m) ps) =
  map idAndInstruments ps.
Proof.
  induction ps as [|q ps IH]; intros H; simpl; [reflexivity|].
  destruct (String.eqb_spec (partId q) pid) as [E|N]; simpl.
  - unfold idAndInstruments at 1. simpl. unfold idAndInstruments at 2.
    now rewrite (H q (or_introl eq_refl) E).
  - rewrite IH; [reflexivity|]. intros r Hr. apply H. now right.
Qed.

(** [doMovePart] of a part in front of an earlier part: the part takes the
    place of the earlier one; identifiers and instrument mappings stay. *)
Lemma doMovePart_spec (pre mid post : list Part) (cur P : Part) (w : World) :
  current w < List.length (scores w) ->
  NoDup (map partId (parts (score w))) ->
  parts (score w) = pre ++ cur :: mid ++ P :: post ->
  frame w (doMovePart (partId P) (partId cur) doMovePart_defaultMode w) /\
  measures (score (doMovePart (partId P) (partId cur) doMovePart_defaultMode w)) =
    measures (score w) /\
  map idAndInstruments
    (parts (score (doMovePart (partId P) (partId cur) doMovePart_defaultMode w))) =
    map idAndInstruments (pre ++ P :: cur :: mid ++ post).
Proof.
  intros Hr Hnd Hps.
  assert (HP : part (partId P) w = Some P).
  { apply part_of_score; [assumption|]. rewrite Hps.
    apply in_or_app. right. right. apply in_or_app. right. now left. }
  assert (Hcur : part (partId cur) w = Some cur).
  { apply part_of_score; [assumption|]. rewrite Hps.
    apply in_or_app. right. now left. }
  assert (HnP : hasPart (partId P) (pre ++ cur :: mid) = false).
  { rewrite Hps in Hnd.
    change (pre ++ cur :: mid ++ P :: post) with (pre ++ (cur :: mid) ++ P :: post) in Hnd.
    rewrite app_assoc in Hnd. now apply NoDup_split_hasPart in Hnd. }
  assert (Hnc : hasPart (partId cur) pre = false).
  { rewrite Hps in Hnd. now apply NoDup_split_hasPart in Hnd. }
  unfold doMovePart. rewrite HP, Hcur. cbv zeta.
  set (wa := modifyScore (undoRemovePart (partId P)) w).
  assert (Fa : frame w wa) by apply frame_modifyScore.
  assert (Ra : current wa < List.length (scores wa)) by now apply (frame_in_range w).
  assert (Pa : parts (score wa) = pre ++ cur :: mid ++ post).
  { unfold wa. rewrite score_modifyScore by assumption. simpl. rewrite Hps.
    change (pre ++ cur :: mid ++ P :: post) with (pre ++ (cur :: mid) ++ P :: post).
    rewrite app_assoc, removeFirst_split by (assumption || reflexivity).
    now rewrite <- app_assoc. }
  assert (Ma : measures (score wa) = measures (score w)).
  { unfold wa. now rewrite score_modifyScore. }
  rewrite Pa, indexOfPart_split by assumption.
  unfold doMovePart_defaultMode.
  set (wb := modifyScore
               (fun s => set_parts (insertAtZ (Z.of_nat (List.length pre)) P (parts s)) s) wa).
  assert (Fb : frame wa wb) by apply frame_modifyScore.
  assert (Rb : current wb < List.length (scores wb)) by now apply (frame_in_range wa).
  assert (Pb : parts (score wb) = pre ++ P :: cur :: mid ++ post).
  { unfold wb. rewrite score_modifyScore by assumption. simpl. rewrite Pa.
    unfold insertAtZ. rewrite Nat2Z.id. apply insertAt_middle. }
  assert (Mb : measures (score wb) = measures (score wa)).
  { unfold wb. now rewrite score_modifyScore. }
  match goal with
  | |- context [doMoveStaves ?l ?z None wb] =>
      set (wc := doMoveStaves l z None wb);
      pose proof (quiet_doMoveStaves l z None wb) as Qc; fold wc in Qc
  end.
  destruct Qc as [Fc [Sc Mc]].
  assert (Rc : current wc < List.length (scores wc)) by now apply (frame_in_range wb).
  assert (Hn' : NoDup (map partId (pre ++ P :: cur :: mid ++ post))).
  { apply (Permutation_NoDup (l := map partId (parts (score w)))); [|assumption].
    rewrite Hps. apply Permutation_map.
    change (pre ++ cur :: mid ++ P :: post) with (pre ++ (cur :: mid) ++ P :: post).
    change (pre ++ P :: cur :: mid ++ post) with (pre ++ P :: (cur :: mid) ++ post).
    apply Permutation_app_head. symmetry. apply Permutation_middle. }
  assert (Hh : hasPart (partId P) (parts (score wc)) = true).
  { apply hasPart_In. rewrite map_partId_idAndInstruments, Sc, Pb.
    rewrite <- map_partId_idAndInstruments. apply in_map.
    apply in_or_app. right. now left. }
  unfold modifyPart. rewrite Hh.
  set (g := fun s => set_parts
                       (modifyFirst (partId P) (set_partInstruments (partInstruments P))
                          (parts s)) s).
  assert (Fd : frame wc (modifyScore g wc)) by apply frame_modifyScore.
  split; [|split].
  - apply (frame_trans w wa); [assumption|]. apply (frame_trans wa wb); [assumption|].
    now apply (frame_trans wb wc).
  - rewrite score_modifyScore by assumption. simpl. congruence.
  - rewrite score_modifyScore by assumption. simpl.
    rewrite idAndInstruments_set_same; [now rewrite Sc, Pb|].
    intros q Hq Hid.
    assert (Hs : In (idAndInstruments q) (map idAndInstruments (parts (score wc))))
      by now apply in_map.
    rewrite Sc, Pb in Hs. apply in_map_iff in Hs. destruct Hs as [r [Hr' Hin]].
    assert (r = P).
    { apply (NoDup_map_eq partId (pre ++ P :: cur :: mid ++ post)); try assumption.
      - apply in_or_app. right. now left.
      - injection Hr' as H1 H2. congruence. }
    subst r. injection Hr' as H1 H2. congruence.
Qed.

Lemma extend_prefix {A : Type} (i : nat) (l l' : list A) :
  firstn (S i) l' = firstn (S i) l ->
  Permutation (skipn (S i) l') (skipn (S i) l) ->
  firstn i l' = firstn i l /\
  Permutation (skipn i l') (skipn i l) /\
  nth_error l' i = nth_error l i.
Proof.
  revert l l'. induction i as [|i IH]; intros l l' H1 H2.
  - destruct l as [|a l], l' as [|a' l']; simpl in *; try discriminate.
    + repeat split. constructor.
    + injection H1 as ->. repeat split. now constructor.
  - destruct l as [|a l], l' as [|a' l']; try discriminate.
    + repeat split. constructor.
    + cbn [firstn] in H1. injection H1 as -> Ht.
      change (skipn (S (S i)) (a :: l')) with (skipn (S i) l') in H2.
      change (skipn (S (S i)) (a :: l)) with (skipn (S i) l) in H2.
      destruct (IH l l' Ht H2) as [G1 [G2 G3]].
      cbn [firstn skipn nth_error]. rewrite G1. repeat split; assumption.
Qed.

Lemma skipn_length_app {A : Type} (l1 l2 : list A) :
  skipn (List.length l1) (l1 ++ l2) = l2.
Proof. induction l1 as [|a l1 IH]; simpl; [reflexivity | exact IH]. Qed.

Lemma firstn_length_app {A : Type} (l1 l2 : list A) :
  firstn (List.length l1) (l1 ++ l2) = l1.
Proof. induction l1 as [|a l1 IH]; simpl; [now destruct l2 | now rewrite IH]. Qed.

Lemma sortParts_loop_spec (ids : IDList) :
  forall (i : nat) (w ws : World),
    current w < List.length (scores w) ->
    NoDup (map partId (parts (score w))) ->
    sortParts_loop i ids w = Done ws ->
    frame w ws /\
    measures (score ws) = measures (score w) /\
    firstn i (map idAndInstruments (parts (score ws))) =
      firstn i (map idAndInstruments (parts (score w))) /\
    Permutation (skipn i (map idAndInstruments (parts (score ws))))
                (skipn i (map idAndInstruments (parts (score w)))) /\
    stable i ids (map mainInstrumentId (parts (score ws))).
Proof.
  induction ids as [|iid rest IH]; intros i w ws Hr Hnd H.
  - simpl in H. injection H as <-. split; [apply frame_refl|].
    repeat split; reflexivity.
  - cbn [sortParts_loop] in H.
    destruct (nth_error (parts (score w)) i) as [cur|] eqn:Hn; [|discriminate].
    destruct (nth_error_split _ _ Hn) as [pre [tl_ [Hps Hlen]]].
    destruct (String.eqb_spec (mainInstrumentId cur) iid) as [E|N].
    + destruct (IH (S i) w ws Hr Hnd H) as [F [M [H1 [H2 Hst]]]].
      destruct (extend_prefix i _ _ H1 H2) as [G1 [G2 G3]].
      split; [exact F|]. split; [exact M|]. split; [exact G1|]. split; [exact G2|].
      split; [|exact Hst].
      exists (mainInstrumentId cur). split; [|now left].
      rewrite mains_idAndInstruments, nth_error_map, G3, nth_error_map, Hn. reflexivity.
    + destruct (find (fun p => String.eqb (mainInstrumentId p) iid)
                  (skipn i (parts (score w)))) as [P|] eqn:Fd.
      * assert (Hsk : skipn i (parts (score w)) = cur :: tl_).
        { rewrite Hps, <- Hlen. apply skipn_length_app. }
        rewrite Hsk in Fd. simpl in Fd.
        destruct (String.eqb_spec (mainInstrumentId cur) iid) as [E|_]; [contradiction|].
        apply find_some in Fd. destruct Fd as [Hin HeP]. apply String.eqb_eq in HeP.
        apply in_split in Hin. destruct Hin as [mid [post ->]].
        destruct (doMovePart_spec pre mid post cur P w Hr Hnd Hps) as [Fm [Mm Sm]].
        set (w2 := doMovePart (partId P) (partId cur) doMovePart_defaultMode w) in *.
        assert (Hr2 : current w2 < List.length (scores w2)) by now apply (frame_in_range w).
        assert (Hnd2 : NoDup (map partId (parts (score w2)))).
        { rewrite map_partId_idAndInstruments, Sm, <- map_partId_idAndInstruments.
          apply (Permutation_NoDup (l := map partId (parts (score w)))); [|assumption].
          rewrite Hps. apply Permutation_map.
          change (pre ++ cur :: mid ++ P :: post) with (pre ++ (cur :: mid) ++ P :: post).
          change (pre ++ P :: cur :: mid ++ post) with (pre ++ P :: (cur :: mid) ++ post).
          apply Permutation_app_head. symmetry. apply Permutation_middle. }
        destruct (IH (S i) w2 ws Hr2 Hnd2 H) as [F [M [H1 [H2 Hst]]]].
        destruct (extend_prefix i _ _ H1 H2) as [G1 [G2 G3]].
        assert (Hl : List.length (map idAndInstruments pre) = i) by now rewrite length_map.
        split; [now apply (frame_trans w w2)|].
        split; [congruence|].
        split; [|split; [|split; [|exact Hst]]].
        -- rewrite G1, Sm, Hps, !map_app, <- Hl. now rewrite !firstn_length_app.
        -- rewrite G2, Sm, Hps, !map_app, <- Hl. rewrite !skipn_length_app.
           apply Permutation_map.
           change (cur :: mid ++ P :: post) with ((cur :: mid) ++ P :: post).
           change (P :: cur :: mid ++ post) with (P :: (cur :: mid) ++ post).
           apply Permutation_middle.
        -- exists iid. split; [|now left].
           rewrite mains_idAndInstruments, nth_error_map, G3, Sm, map_app, <- Hl.
           rewrite nth_error_app2 by lia. rewrite Nat.sub_diag. simpl.
           now rewrite <- HeP.
      * destruct (IH (S i) w ws Hr Hnd H) as [F [M [H1 [H2 Hst]]]].
        destruct (extend_prefix i _ _ H1 H2) as [G1 [G2 G3]].
        split; [exact F|]. split; [exact M|]. split; [exact G1|]. split; [exact G2|].
      split; [|exact Hst].
        exists (mainInstrumentId cur). split.
        -- rewrite mains_idAndInstruments, nth_error_map, G3, nth_error_map, Hn.
           reflexivity.
        -- right. intros Hin.
           rewrite mains_idAndInstruments, skipn_map in Hin.
           apply (Permutation_in (l' := map mainOf
                     (skipn i (map idAndInstruments (parts (score w)))))) in Hin;
             [|now apply Permutation_map].
           rewrite <- skipn_map, <- mains_idAndInstruments, skipn_map in Hin.
           apply in_map_iff in Hin. destruct Hin as [p [Hp Hin]].
           apply (find_none _ _ Fd) in Hin. simpl in Hin.
           rewrite Hp, String.eqb_refl in Hin. discriminate.
Qed.

(** *** The removal phase *)

Lemma fold_remove_cons (R : IDList) (k : Fraction) (i : MsInstrument)
  (m : QMap MsInstrument) :
  Forall (fun x => x <> instrumentId i) R ->
  fold_left (fun m x => qmap_removeInstrument x m) R ((k, i) :: m) =
  (k, i) :: fold_left (fun m x => qmap_removeInstrument x m) R m.
Proof.
  revert m. induction R as [|x R IH]; intros m H; [reflexivity|].
  apply Forall_cons_iff in H. destruct H as [Hx HR]. cbn [fold_left qmap_removeInstrument].
  destruct (String.eqb_spec (instrumentId i) x) as [E|N]; [congruence|].
  now apply IH.
Qed.

Lemma fold_remove_prune (ids : IDList) (m : QMap MsInstrument) :
  fold_left (fun m x => qmap_removeInstrument x m)
    (filter (fun iid => negb (contains ids iid)) (map instrumentId (values m))) m =
  prune ids m.
Proof.
  induction m as [|[k i] m IH]; [reflexivity|].
  cbn [values map snd filter prune]. fold (values m). fold (prune ids m).
  destruct (contains ids (instrumentId i)) eqn:C; cbn [negb].
  - rewrite fold_remove_cons; [now rewrite IH|].
    apply Forall_forall. intros x Hx E. apply filter_In in Hx. destruct Hx as [_ Hx].
    subst x. now rewrite C in Hx.
  - cbn [fold_left qmap_removeInstrument]. rewrite String.eqb_refl. exact IH.
Qed.

Lemma qmap_removeInstrument_absent (iid : ID) (m : QMap MsInstrument) :
  find (fun e => String.eqb (instrumentId (snd e)) iid) m = None ->
  qmap_removeInstrument iid m = m.
Proof.
  induction m as [|[k i] m IH]; simpl; [reflexivity|].
  destruct (String.eqb (instrumentId i) iid); [discriminate|].
  intros H. now rewrite IH.
Qed.

Lemma set_partInstruments_same (p : Part) : set_partInstruments (partInstruments p) p = p.
Proof. now destruct p. Qed.

Lemma doRemoveInstruments_loop (ice : QMap Element) (pid : ID) (iids : IDList) :
  forall (w : World) (pre post : list Part) (p : Part),
    current w < List.length (scores w) ->
    parts (score w) = pre ++ p :: post ->
    hasPart pid pre = false ->
    partId p = pid ->
    exists w',
      fold_left
        (fun w iid =>
           match instrumentInfo iid (part pid w) with
           | None => w
           | Some (fraction, _) =>
               let w :=
                 match qmap_value fraction ice with
                 | Some instrumentChange =>
                     modifyScore (undoRemoveElement (elAddr instrumentChange)) w
                 | None => w
                 end in
               modifyPart pid (Part_removeInstrument iid) w
           end) iids w = w' /\
      frame w w' /\
      nextAddr w' = nextAddr w /\
      parts (score w') =
        pre ++ set_partInstruments
                 (fold_left (fun m x => qmap_removeInstrument x m) iids (partInstruments p)) p
            :: post.
Proof.
  induction iids as [|iid iids IH]; intros w pre post p Hr Hps Hpre Hid.
  - exists w. cbn [fold_left]. rewrite set_partInstruments_same.
    split; [reflexivity|]. split; [apply frame_refl | now split].
  - cbn [fold_left].
    assert (Hp : part pid w = Some p).
    { rewrite part_unfold, Hps, find_app.
      apply hasPart_false_find in Hpre. rewrite Hpre. simpl.
      now rewrite Hid, String.eqb_refl. }
    rewrite Hp.
    assert (Hi : instrumentInfo iid (Some p) =
                 find (fun e => String.eqb (instrumentId (snd e)) iid) (partInstruments p)).
    { unfold instrumentInfo. now rewrite instruments_all. }
    rewrite Hi.
    destruct (find (fun e => String.eqb (instrumentId (snd e)) iid) (partInstruments p))
      as [[t i]|] eqn:Fi.
    + cbv zeta.
      set (w1 := match qmap_value t ice with
                 | Some instrumentChange =>
                     modifyScore (undoRemoveElement (elAddr instrumentChange)) w
                 | None => w
                 end).
      assert (H1 : frame w w1 /\ nextAddr w1 = nextAddr w /\
                   parts (score w1) = parts (score w)).
      { unfold w1. destruct (qmap_value t ice) as [ic|].
        - split; [apply frame_modifyScore|]. split; [reflexivity|].
          now apply parts_score_modifyScore.
        - split; [apply frame_refl | now split]. }
      destruct H1 as [F1 [N1 P1]].
      assert (R1 : current w1 < List.length (scores w1)) by now apply (frame_in_range w).
      assert (Hh : hasPart pid (parts (score w1)) = true).
      { rewrite P1, Hps. apply hasPart_In. rewrite map_app. apply in_or_app. right.
        left. exact Hid. }
      assert (Em : modifyPart pid (Part_removeInstrument iid) w1 =
                   modifyScore
                     (fun s => set_parts
                                 (modifyFirst pid (Part_removeInstrument iid) (parts s)) s)
                     w1).
      { unfold modifyPart. now rewrite Hh. }
      rewrite Em.
      set (w2 := modifyScore
                   (fun s => set_parts
                               (modifyFirst pid (Part_removeInstrument iid) (parts s)) s) w1).
      assert (F2 : frame w1 w2) by apply frame_modifyScore.
      assert (R2 : current w2 < List.length (scores w2)) by now apply (frame_in_range w1).
      assert (P2 : parts (score w2) = pre ++ Part_removeInstrument iid p :: post).
      { unfold w2. rewrite score_modifyScore by assumption. simpl.
        rewrite P1, Hps. now apply modifyFirst_split. }
      destruct (IH w2 pre post (Part_removeInstrument iid p) R2 P2 Hpre Hid)
        as [w' [E' [F3 [N3 P3]]]].
      exists w'. split; [exact E'|]. split; [|split].
      * apply (frame_trans w w1); [assumption|]. now apply (frame_trans w1 w2).
      * rewrite N3. exact N1.
      * exact P3.
    + destruct (IH w pre post p Hr Hps Hpre Hid) as [w' [E' [F3 [N3 P3]]]].
      exists w'. split; [exact E'|]. split; [assumption|]. split; [assumption|].
      rewrite P3. cbn [fold_left]. now rewrite (qmap_removeInstrument_absent _ _ Fi).
Qed.

Lemma doRemoveInstruments_spec (iids : IDList) (w : World) (pre post : list Part)
  (p : Part) :
  current w < List.length (scores w) ->
  parts (score w) = pre ++ p :: post ->
  hasPart (partId p) pre = false ->
  frame w (doRemoveInstruments iids (partId p) w) /\
  nextAddr (doRemoveInstruments iids (partId p) w) = nextAddr w /\
  parts (score (doRemoveInstruments iids (partId p) w)) =
    pre ++ set_partInstruments
             (fold_left (fun m x => qmap_removeInstrument x m) iids (partInstruments p)) p
        :: post.
Proof.
  intros Hr Hps Hpre.
  destruct (doRemoveInstruments_loop (instrumentChangeElements (partId p) (score w))
              (partId p) iids w pre post p Hr Hps Hpre eq_refl) as [w' [E H]].
  subst w'. exact H.
Qed.

Lemma hasPart_map_same_id (pid : ID) (g : Part -> Part) (ps : list Part) :
  (forall p, partId (g p) = partId p) -> hasPart pid (map g ps) = hasPart pid ps.
Proof.
  intros H. unfold hasPart. induction ps as [|p ps IH]; simpl; [reflexivity|].
  now rewrite H, IH.
Qed.

Lemma partId_afterRemovalStep (ids : IDList) (p : Part) :
  partId (afterRemovalStep ids p) = partId p.
Proof. unfold afterRemovalStep. now destruct (allMissing ids p). Qed.

Lemma removeMissingInstruments_fold (ids : IDList) :
  forall (todo done : list Part) (R : IDList) (w : World),
    current w < List.length (scores w) ->
    parts (score w) = map (afterRemovalStep ids) done ++ todo ->
    NoDup (map partId (done ++ todo)) ->
    exists w',
      fold_left (removeMissingInstruments_step ids) (map partId todo) (R, w) =
        (R ++ map partId (filter (allMissing ids) todo), w') /\
      frame w w' /\
      nextAddr w' = nextAddr w /\
      parts (score w') = map (afterRemovalStep ids) (done ++ todo).
Proof.
  induction todo as [|p todo IH]; intros done R w Hr Hps Hnd.
  - exists w. simpl. rewrite !app_nil_r in *.
    split; [reflexivity|]. split; [apply frame_refl | now split].
  - cbn [map fold_left].
    assert (Hpre : hasPart (partId p) (map (afterRemovalStep ids) done) = false).
    { rewrite hasPart_map_same_id by apply partId_afterRemovalStep.
      now apply NoDup_split_hasPart in Hnd. }
    assert (Hp : part (partId p) w = Some p).
    { rewrite part_unfold, Hps, find_app.
      pose proof Hpre as Hf. apply hasPart_false_find in Hf. rewrite Hf. simpl.
      now rewrite String.eqb_refl. }
    assert (Hnd' : NoDup (map partId ((done ++ [p]) ++ todo))).
    { now rewrite <- app_assoc. }
    unfold removeMissingInstruments_step at 2. rewrite Hp.
    fold (allMissing ids p).
    destruct (allMissing ids p) eqn:Ha.
    + assert (Hps' : parts (score w) = map (afterRemovalStep ids) (done ++ [p]) ++ todo).
      { rewrite map_app, <- app_assoc. simpl. unfold afterRemovalStep at 2.
        now rewrite Ha. }
      destruct (IH (done ++ [p]) (R ++ [partId p]) w Hr Hps' Hnd')
        as [w' [E [F [N P]]]].
      exists w'. split.
      { etransitivity; [exact E|]. cbn [filter]. rewrite Ha. cbn [map].
        now rewrite <- app_assoc. }
      rewrite <- app_assoc in P. split; [assumption|]. split; assumption.
    + destruct (doRemoveInstruments_spec (instrumentsToRemoveOf ids p) w
                  (map (afterRemovalStep ids) done) todo p Hr Hps Hpre) as [F1 [N1 P1]].
      set (w1 := doRemoveInstruments (instrumentsToRemoveOf ids p) (partId p) w) in *.
      assert (R1 : current w1 < List.length (scores w1)) by now apply (frame_in_range w).
      assert (Hps' : parts (score w1) = map (afterRemovalStep ids) (done ++ [p]) ++ todo).
      { rewrite P1, map_app, <- app_assoc. simpl. unfold afterRemovalStep at 3.
        rewrite Ha. unfold prunePart, instrumentsToRemoveOf.
        now rewrite instruments_all, fold_remove_prune. }
      destruct (IH (done ++ [p]) R w1 R1 Hps' Hnd') as [w' [E [F [N P]]]].
      exists w'. split.
      { etransitivity; [exact E|]. cbn [filter]. now rewrite Ha. }
      rewrite <- app_assoc in P. split; [now apply (frame_trans w w1)|].
      split; [congruence | assumption].
Qed.

Lemma removeFirst_absent (pid : ID) (ps : list Part) :
  hasPart pid ps = false -> removeFirst pid ps = ps.
Proof.
  induction ps as [|q ps IH]; simpl; [reflexivity|].
  destruct (String.eqb (partId q) pid); simpl; [discriminate|].
  intros H. now rewrite IH.
Qed.

Lemma parts_cmdRemovePart (pid : ID) (s : Score) :
  parts (cmdRemovePart pid s) = removeFirst pid (parts s).
Proof.
  unfold cmdRemovePart. destruct (hasPart pid (parts s)) eqn:E; [reflexivity|].
  now rewrite removeFirst_absent.
Qed.

Lemma removeFirst_filter (pid : ID) (ps : list Part) :
  NoDup (map partId ps) ->
  removeFirst pid ps = filter (fun p => negb (String.eqb (partId p) pid)) ps.
Proof.
  induction ps as [|q ps IH]; simpl; intros Hn; [reflexivity|].
  inversion Hn as [|? ? Hq Hps]; subst.
  destruct (String.eqb_spec (partId q) pid) as [E|N]; simpl.
  - symmetry. apply filter_all. apply Forall_forall. intros x Hx.
    destruct (String.eqb_spec (partId x) pid) as [E'|]; [|reflexivity].
    exfalso. apply Hq. rewrite E, <- E'. now apply in_map.
  - now rewrite IH.
Qed.

Lemma hasPart_filter (pid : ID) (f : Part -> bool) (ps : list Part) :
  hasPart pid ps = false -> hasPart pid (filter f ps) = false.
Proof.
  intros H. apply Bool.not_true_is_false. intros E.
  apply hasPart_In in E. apply in_map_iff in E. destruct E as [p [Hp Hin]].
  apply filter_In in Hin. destruct Hin as [Hin _].
  assert (T : hasPart pid ps = true).
  { apply hasPart_In. apply in_map_iff. now exists p. }
  congruence.
Qed.

Lemma hasPart_filter_out (pid : ID) (ps : list Part) :
  hasPart pid (filter (fun p => negb (String.eqb (partId p) pid)) ps) = false.
Proof.
  apply Bool.not_true_is_false. intros E.
  apply hasPart_In in E. apply in_map_iff in E. destruct E as [p [Hp Hin]].
  apply filter_In in Hin. destruct Hin as [_ Hin].
  rewrite Hp, String.eqb_refl in Hin. discriminate.
Qed.

Lemma shrunk_refl (w : World) : shrunk w w.
Proof. intros k. exists (fun _ => true). now rewrite filter_true. Qed.

Lemma shrunk_trans (w1 w2 w3 : World) : shrunk w1 w2 -> shrunk w2 w3 -> shrunk w1 w3.
Proof.
  intros H1 H2 k. destruct (H1 k) as [f Hf]. destruct (H2 k) as [g Hg].
  exists (fun x => f x && g x). now rewrite Hg, Hf, filter_filter.
Qed.

Lemma distinctIds_shrunk (w w' : World) : distinctIds w -> shrunk w w' -> distinctIds w'.
Proof.
  intros Hd Hs k. destruct (Hs k) as [f ->]. apply filter_map_NoDup. apply Hd.
Qed.

Lemma absent_shrunk (w w' : World) (pid : ID) (k : nat) :
  shrunk w w' ->
  hasPart pid (parts (scoreAt k w)) = false ->
  hasPart pid (parts (scoreAt k w')) = false.
Proof. intros Hs H. destruct (Hs k) as [f ->]. now apply hasPart_filter. Qed.

Lemma sameShape_refl (w : World) : sameShape w w.
Proof. repeat split. Qed.

Lemma sameShape_trans (w1 w2 w3 : World) :
  sameShape w1 w2 -> sameShape w2 w3 -> sameShape w1 w3.
Proof. intros [A [B [C D]]] [A' [B' [C' D']]]. repeat split; congruence. Qed.

(** [cmdRemovePart] on the score at one address. *)
Lemma removePartAt_spec (pid : ID) (k : nat) (w : World) :
  distinctIds w ->
  sameShape w (modifyScoreAt k (cmdRemovePart pid) w) /\
  shrunk w (modifyScoreAt k (cmdRemovePart pid) w) /\
  hasPart pid (parts (scoreAt k (modifyScoreAt k (cmdRemovePart pid) w))) = false /\
  (forall j, j <> k -> scoreAt j (modifyScoreAt k (cmdRemovePart pid) w) = scoreAt j w) /\
  parts (scoreAt k (modifyScoreAt k (cmdRemovePart pid) w)) =
    filter (fun p => negb (String.eqb (partId p) pid)) (parts (scoreAt k w)).
Proof.
  intros Hd.
  assert (Hk : parts (scoreAt k (modifyScoreAt k (cmdRemovePart pid) w)) =
               filter (fun p => negb (String.eqb (partId p) pid)) (parts (scoreAt k w))).
  { destruct (Nat.lt_ge_cases k (List.length (scores w))) as [L|G].
    - rewrite scoreAt_modifyScoreAt_same by assumption.
      rewrite parts_cmdRemovePart. apply removeFirst_filter. apply Hd.
    - rewrite modifyScoreAt_beyond by assumption.
      now rewrite scoreAt_beyond by assumption. }
  split; [|split; [|split; [|split]]].
  - repeat split. unfold modifyScoreAt. simpl. apply length_replaceAt.
  - intros j. destruct (Nat.eq_dec j k) as [->|N].
    + eexists. exact Hk.
    + exists (fun _ => true). rewrite filter_true.
      rewrite scoreAt_modifyScoreAt_other by congruence. reflexivity.
  - rewrite Hk. apply hasPart_filter_out.
  - intros j N. apply scoreAt_modifyScoreAt_other. congruence.
  - exact Hk.
Qed.

Lemma doRemoveParts_others_spec (pid : ID) (l : list nat) :
  forall w,
    distinctIds w ->
    exists w',
      fold_left
        (fun w0 k => if Nat.eqb k (current w0) then w0
                     else modifyScoreAt k (cmdRemovePart pid) w0) l w = w' /\
      sameShape w w' /\
      shrunk w w' /\
      scoreAt (current w) w' = scoreAt (current w) w /\
      (forall k, In k l -> k <> current w ->
                 hasPart pid (parts (scoreAt k w')) = false).
Proof.
  induction l as [|k l IH]; intros w Hd.
  - exists w. split; [reflexivity|]. split; [apply sameShape_refl|].
    split; [apply shrunk_refl|]. split; [reflexivity|]. intros k [].
  - cbn [fold_left]. destruct (Nat.eqb_spec k (current w)) as [E|N].
    + destruct (IH w Hd) as [w' [Ew [Hs [Hk [Hc Ha]]]]].
      exists w'. split; [exact Ew|]. split; [assumption|]. split; [assumption|].
      split; [assumption|]. intros j [<-|Hj] Hne; [contradiction|]. now apply Ha.
    + destruct (removePartAt_spec pid k w Hd) as [S1 [K1 [A1 [O1 _]]]].
      set (w1 := modifyScoreAt k (cmdRemovePart pid) w) in *.
      assert (Hd1 : distinctIds w1) by now apply (distinctIds_shrunk w).
      destruct (IH w1 Hd1) as [w' [Ew [Hs [Hk [Hc Ha]]]]].
      assert (C1 : current w1 = current w) by apply S1.
      exists w'. split; [exact Ew|]. split; [now apply (sameShape_trans w w1)|].
      split; [now apply (shrunk_trans w w1)|].
      split; [rewrite <- C1, Hc, C1; apply O1; congruence|].
      intros j [<-|Hj] Hne.
      * now apply (absent_shrunk w1 w').
      * apply Ha; [assumption|]. now rewrite C1.
Qed.

Lemma contains_cons (x y : ID) (l : IDList) :
  contains (y :: l) x = String.eqb x y || contains l x.
Proof. reflexivity. Qed.

Lemma doRemoveParts_spec (R : IDList) :
  forall w,
    current w < List.length (scores w) ->
    distinctIds w ->
    exists w',
      doRemoveParts R w = w' /\
      sameShape w w' /\
      shrunk w w' /\
      parts (score w') =
        filter (fun p => negb (contains R (partId p))) (parts (score w)) /\
      (isMaster w = true ->
       forall pid k, In pid R -> In k (scoreList w) ->
                     hasPart pid (parts (scoreAt k w')) = false).
Proof.
  unfold doRemoveParts. induction R as [|pid R IH]; intros w Hr Hd.
  - exists w. split; [reflexivity|]. split; [apply sameShape_refl|].
    split; [apply shrunk_refl|]. split; [|intros _ pid k []].
    simpl. now rewrite filter_true.
  - cbn [fold_left].
    destruct (removePartAt_spec pid (current w) w Hd) as [S1 [K1 [A1 [O1 P1]]]].
    fold (modifyScore (cmdRemovePart pid) w) in *.
    set (w1 := modifyScore (cmdRemovePart pid) w) in *.
    assert (Hd1 : distinctIds w1) by now apply (distinctIds_shrunk w).
    assert (C1 : current w1 = current w) by apply S1.
    assert (E1 : excerpts w1 = excerpts w) by apply S1.
    destruct (doRemoveParts_others_spec pid (scoreList w1) w1 Hd1)
      as [w2' [Ew2 [S2 [K2 [Hc2 A2]]]]].
    set (w2 := if negb (isMaster w1) then w1
               else fold_left
                      (fun w0 k => if Nat.eqb k (current w0) then w0
                                   else modifyScoreAt k (cmdRemovePart pid) w0)
                      (scoreList w1) w1).
    assert (H2 : sameShape w1 w2 /\ shrunk w1 w2 /\
                 scoreAt (current w1) w2 = scoreAt (current w1) w1 /\
                 (isMaster w = true ->
                  forall k, In k (scoreList w) -> k <> current w ->
                            hasPart pid (parts (scoreAt k w2)) = false)).
    { unfold w2. unfold isMaster. rewrite C1. fold (isMaster w).
      destruct (isMaster w); cbn [negb].
      - rewrite Ew2. split; [assumption|]. split; [assumption|]. split; [assumption|].
        intros _ k Hk Hne. apply A2; [|now rewrite C1].
        unfold scoreList in *. now rewrite E1.
      - split; [apply sameShape_refl|]. split; [apply shrunk_refl|].
        split; [reflexivity | discriminate]. }
    destruct H2 as [S2' [K2' [Hc2' A2']]].
    assert (Hd2 : distinctIds w2) by now apply (distinctIds_shrunk w1).
    assert (C2 : current w2 = current w1) by apply S2'.
    assert (Hr2 : current w2 < List.length (scores w2)).
    { destruct S2' as [_ [_ [_ L2]]]. destruct S1 as [_ [_ [_ L1]]].
      rewrite C2, C1, L2, L1. exact Hr. }
    destruct (IH w2 Hr2 Hd2) as [w' [Ew [S3 [K3 [P3 A3]]]]].
    exists w'. split; [exact Ew|].
    split; [apply (sameShape_trans w w1); [assumption|]; now apply (sameShape_trans w1 w2)|].
    split; [apply (shrunk_trans w w1); [assumption|]; now apply (shrunk_trans w1 w2)|].
    split.
    + rewrite P3. unfold score at 1. rewrite C2, Hc2'.
      unfold score, w1, modifyScore in *. rewrite C1, P1, filter_filter.
      apply filter_ext. intros p. rewrite contains_cons, Bool.negb_orb. reflexivity.
    + intros M j k [<-|Hin] Hk.
      * apply (absent_shrunk w2 w'); [assumption|].
        destruct (Nat.eq_dec k (current w)) as [->|Hne].
        -- apply (absent_shrunk w1 w2); [assumption|]. exact A1.
        -- now apply A2'.
      * apply A3; try assumption.
        -- unfold isMaster in *. now rewrite C2, C1.
        -- unfold scoreList in *.
           assert (E2 : excerpts w2 = excerpts w1) by apply S2'.
           now rewrite E2, E1.
Qed.

Lemma partList_loop_covered (ex : list Part) (seen : IDList) :
  (forall q, In q ex -> In (partId q) seen) -> partList_loop seen ex = [].
Proof.
  induction ex as [|q ex IH]; intros H; simpl; [reflexivity|].
  assert (C : contains seen (partId q) = true).
  { apply contains_In. apply H. now left. }
  rewrite C. apply IH. intros r Hr. apply H. now right.
Qed.

Lemma partList_loop_score (ps ex : list Part) :
  forall seen,
    NoDup (map partId ps) ->
    (forall p, In p ps -> ~ In (partId p) seen) ->
    (forall q, In q ex -> In (partId q) seen \/ In (partId q) (map partId ps)) ->
    partList_loop seen (ps ++ ex) = ps.
Proof.
  induction ps as [|p ps IH]; intros seen Hn Hs Hex.
  - simpl. apply partList_loop_covered. intros q Hq.
    destruct (Hex q Hq) as [H|[]]. exact H.
  - cbn [app partList_loop]. inversion Hn as [|? ? Hp Hps]; subst.
    assert (C : contains seen (partId p) = false).
    { apply contains_false. apply Hs. now left. }
    rewrite C. f_equal. apply IH.
    + exact Hps.
    + intros r Hr [E|Hin].
      * apply Hp. rewrite E. now apply in_map.
      * apply (Hs r); [now right | assumption].
    + intros q Hq. destruct (Hex q Hq) as [H|[H|H]].
      * left. now right.
      * left. now left.
      * now right.
Qed.

Lemma partList_wellFormed (w : World) :
  NoDup (map partId (parts (score w))) ->
  Forall (fun q => In q (parts (score w))) (excerptParts (current w) w) ->
  partList w = parts (score w).
Proof.
  intros Hn Hex. unfold partList, availableParts, scoreParts. fold (score w).
  apply partList_loop_score; [assumption | intros p _ [] |].
  intros q Hq. right. rewrite Forall_forall in Hex. apply in_map. now apply Hex.
Qed.

Lemma distinctIds_wellFormed (w : World) :
  Forall (fun s => NoDup (map partId (parts s))) (scores w) -> distinctIds w.
Proof.
  intros H k. destruct (Nat.lt_ge_cases k (List.length (scores w))) as [L|G].
  - rewrite Forall_forall in H. apply H. unfold scoreAt. now apply nth_In.
  - rewrite scoreAt_beyond by assumption. constructor.
Qed.

Lemma contains_filter_ids (f : Part -> bool) (ps : list Part) (p : Part) :
  NoDup (map partId ps) -> In p ps ->
  contains (map partId (filter f ps)) (partId p) = f p.
Proof.
  intros Hn Hin. destruct (f p) eqn:E.
  - apply contains_In. apply in_map. apply filter_In. now split.
  - apply contains_false. intros H. apply in_map_iff in H. destruct H as [q [Hq Hf]].
    apply filter_In in Hf. destruct Hf as [Hq' Hfq].
    assert (q = p) by now apply (NoDup_map_eq partId ps). subst q. congruence.
Qed.

Lemma filter_map_comm {A B : Type} (f : B -> bool) (g : A -> B) (l : list A) :
  filter f (map g l) = map g (filter (fun a => f (g a)) l).
Proof.
  induction l as [|a l IH]; simpl; [reflexivity|].
  destruct (f (g a)); simpl; now rewrite IH.
Qed.

Lemma removal_result (ids : IDList) (ps : list Part) :
  NoDup (map partId ps) ->
  filter (fun p => negb (contains (map partId (filter (allMissing ids) ps)) (partId p)))
    (map (afterRemovalStep ids) ps) =
  map (prunePart ids) (filter (fun p => negb (allMissing ids p)) ps).
Proof.
  intros Hn. rewrite filter_map_comm.
  rewrite (filter_ext_in _ (fun p => negb (allMissing ids p))).
  - apply map_ext_in. intros p Hp. apply filter_In in Hp. destruct Hp as [_ Hp].
    unfold afterRemovalStep. destruct (allMissing ids p); [discriminate | reflexivity].
  - intros p Hp. rewrite partId_afterRemovalStep.
    now rewrite contains_filter_ids.
Qed.

(** The removal phase: the parts none of whose instruments is wanted leave
    the current score (and, from the master, every score of the score list);
    the other parts keep the wanted instruments. *)
Lemma removeMissingInstruments_spec (ids : IDList) (w : World) :
  wellFormed w ->
  sameShape w (removeMissingInstruments ids w) /\
  (forall k, k <> current w ->
     exists f, parts (scoreAt k (removeMissingInstruments ids w)) =
               filter f (parts (scoreAt k w))) /\
  parts (score (removeMissingInstruments ids w)) =
    map (prunePart ids) (filter (fun p => negb (allMissing ids p)) (parts (score w))) /\
  (isMaster w = true ->
   forall p k, In p (parts (score w)) -> allMissing ids p = true ->
               In k (scoreList w) ->
               hasPart (partId p) (parts (scoreAt k (removeMissingInstruments ids w))) =
                 false).
Proof.
  intros [Hr [Hall [Hex _]]].
  pose proof (distinctIds_wellFormed w Hall) as Hd.
  assert (Hn : NoDup (map partId (parts (score w)))) by apply Hd.
  unfold removeMissingInstruments. rewrite partList_wellFormed by assumption.
  assert (Hn0 : NoDup (map partId ([] ++ parts (score w)))) by exact Hn.
  destruct (removeMissingInstruments_fold ids (parts (score w)) [] [] w Hr eq_refl Hn0)
    as [w' [E [F [N P]]]].
  cbn [app] in E, P.
  replace (fold_left (removeMissingInstruments_step ids) (map partId (parts (score w)))
             ([], w))
    with (map partId (filter (allMissing ids) (parts (score w))), w') by (symmetry; exact E).
  assert (Hr' : current w' < List.length (scores w')) by now apply (frame_in_range w).
  destruct F as [Fc [Fe [Fl Fo]]].
  assert (Hd' : distinctIds w').
  { intros k. destruct (Nat.eq_dec k (current w)) as [->|Hne].
    - rewrite <- Fc. fold (score w'). rewrite P.
      rewrite map_map.
      rewrite (map_ext _ partId) by (intros; apply partId_afterRemovalStep).
      exact Hn.
    - rewrite Fo by assumption. apply Hd. }
  destruct (doRemoveParts_spec (map partId (filter (allMissing ids) (parts (score w))))
              w' Hr' Hd') as [wr [-> [S3 [K3 [P3 A3]]]]].
  split; [|split; [|split]].
  - destruct S3 as [A [B [C D]]]. repeat split; congruence.
  - intros k Hk. destruct (K3 k) as [f Hf]. exists f. now rewrite Hf, Fo.
  - rewrite P3, P. now apply removal_result.
  - intros M p k Hp Ha Hk. apply A3.
    + unfold isMaster in *. now rewrite Fc.
    + apply in_map. apply filter_In. now split.
    + unfold scoreList in *. now rewrite Fe.
Qed.

(** *** The creation phase *)

Lemma insertPart_perm (p : Part) (idx : nat) (ps : list Part) :
  forall st, Permutation (insertPart p idx st ps) (p :: ps).
Proof.
  induction ps as [|q ps IH]; intros st; simpl; [reflexivity|].
  destruct (idx <=? st); [reflexivity|].
  apply (perm_trans (l' := q :: p :: ps)); [now apply perm_skip | apply perm_swap].
Qed.

Lemma length_makeId (n : nat) : String.length (makeId n) = S n.
Proof. induction n as [|n IH]; simpl; [reflexivity | now rewrite IH]. Qed.

Lemma appendStaves_loop_spec (n : nat) :
  forall (idx : nat) (pid : ID) (i : Instrument) (w : World),
    quiet w (appendStaves_loop n idx pid i w) /\
    nextAddr w <= nextAddr (appendStaves_loop n idx pid i w).
Proof.
  induction n as [|n IH]; intros idx pid i w.
  - split; [apply quiet_refl | apply Nat.le_refl].
  - cbn [appendStaves_loop]. cbv zeta.
    match goal with
    | |- quiet w (appendStaves_loop n (S idx) pid i ?w1) /\ _ =>
        destruct (IH (S idx) pid i w1) as [Q L];
        assert (Q1 : quiet w w1)
          by (eapply quiet_trans; [apply (quiet_set_nextAddr (S (nextAddr w)))
                                  | apply quiet_undoInsertStaff]);
        assert (L1 : S (nextAddr w) = nextAddr w1) by reflexivity
    end.
    split; [now apply (quiet_trans w _ _ Q1) | lia].
Qed.

Lemma setInstruments_create_spec (E : IDList) (w : World) (i : Instrument) :
  current w < List.length (scores w) ->
  frame w (setInstruments_create E w i) /\
  ((negb (isEmpty E) && contains E (instrument_id i) = true /\
    setInstruments_create E w i = w) \/
   (S (nextAddr w) <= nextAddr (setInstruments_create E w i) /\
    Permutation
      (map idAndInstruments (parts (score (setInstruments_create E w i))))
      ((makeId (nextAddr w), [(PRIMARY_TICK, convertInstrument i)])
         :: map idAndInstruments (parts (score w))))).
Proof.
  intros Hr. unfold setInstruments_create.
  destruct (negb (isEmpty E) && contains E (instrument_id i)) eqn:Ex.
  - split; [apply frame_refl|]. left. now split.
  - cbv zeta.
    set (p := Part_setInstrument (convertInstrument i) PRIMARY_TICK
                (set_partName (instrument_name i)
                   (mkPart (makeId (nextAddr w)) EmptyString true [] []))).
    set (w1 := set_nextAddr (S (nextAddr w)) w).
    set (w2 := modifyScore
                 (fun s => set_parts (insertPart p (lastStaffIndex w1) 0 (parts s)) s) w1).
    assert (F2 : frame w w2).
    { apply (frame_trans w w1); [apply frame_set_nextAddr | apply frame_modifyScore]. }
    assert (P2 : parts (score w2) = insertPart p (lastStaffIndex w1) 0 (parts (score w))).
    { unfold w2. now rewrite score_modifyScore. }
    destruct (appendStaves_loop_spec (instrument_staves i) 0 (partId p) i w2)
      as [[F3 [S3 _]] L3].
    fold (appendStaves (partId p) i w2) in *.
    split; [now apply (frame_trans w w2)|]. right. split.
    + exact L3.
    + rewrite S3, P2.
      change ((makeId (nextAddr w), [(PRIMARY_TICK, convertInstrument i)])
                :: map idAndInstruments (parts (score w)))
        with (map idAndInstruments (p :: parts (score w))).
      apply Permutation_map. apply insertPart_perm.
Qed.

Lemma setInstruments_create_fold (E ids : IDList) :
  forall (l : list Instrument) (w : World),
    current w < List.length (scores w) ->
    NoDup (map fst (map idAndInstruments (parts (score w)))) ->
    Forall (fun sg => String.length (fst sg) <= nextAddr w)
      (map idAndInstruments (parts (score w))) ->
    Forall (cleanEntry ids) (map idAndInstruments (parts (score w))) ->
    (forall i, In i l -> In (instrument_id i) ids) ->
    frame w (fold_left (setInstruments_create E) l w) /\
    NoDup (map fst (map idAndInstruments
                      (parts (score (fold_left (setInstruments_create E) l w))))) /\
    Forall (cleanEntry ids)
      (map idAndInstruments (parts (score (fold_left (setInstruments_create E) l w)))) /\
    incl (map idAndInstruments (parts (score w)))
         (map idAndInstruments (parts (score (fold_left (setInstruments_create E) l w)))) /\
    (forall i, In i l ->
       negb (isEmpty E) && contains E (instrument_id i) = true \/
       exists sg,
         In sg (map idAndInstruments
                  (parts (score (fold_left (setInstruments_create E) l w)))) /\
         In (instrument_id i) (map instrumentId (values (snd sg)))).
Proof.
  induction l as [|i l IH]; intros w Hr Hn Hf Hc Hl.
  - cbn [fold_left]. split; [apply frame_refl|]. split; [assumption|].
    split; [assumption|]. split; [apply incl_refl | intros i []].
  - cbn [fold_left].
    destruct (setInstruments_create_spec E w i Hr) as [F1 [[Ex Ew]|[L1 P1]]].
    + rewrite Ew.
      destruct (IH w Hr Hn Hf Hc (fun j Hj => Hl j (or_intror Hj)))
        as [F [N [C [I V]]]].
      split; [assumption|]. split; [assumption|]. split; [assumption|].
      split; [assumption|]. intros j [<-|Hj]; [now left | now apply V].
    + set (w1 := setInstruments_create E w i) in *.
      set (new := (makeId (nextAddr w), [(PRIMARY_TICK, convertInstrument i)])) in *.
      assert (Hr1 : current w1 < List.length (scores w1)) by now apply (frame_in_range w).
      assert (Hn1 : NoDup (map fst (map idAndInstruments (parts (score w1))))).
      { apply (Permutation_NoDup
                 (l := map fst (new :: map idAndInstruments (parts (score w))))).
        - symmetry. now apply Permutation_map.
        - cbn [map]. constructor; [|assumption].
          intros Hin. apply in_map_iff in Hin. destruct Hin as [sg [Hsg Hin]].
          rewrite Forall_forall in Hf. pose proof (Hf sg Hin) as Hlen.
          destruct sg as [a b]. unfold new in Hsg. simpl in Hsg, Hlen. subst a.
          rewrite length_makeId in Hlen. lia. }
      assert (Hf1 : Forall (fun sg => String.length (fst sg) <= nextAddr w1)
                      (map idAndInstruments (parts (score w1)))).
      { apply (Permutation_Forall (x := new :: map idAndInstruments (parts (score w))));
          [now symmetry|].
        constructor.
        - unfold new. simpl. rewrite length_makeId. exact L1.
        - eapply Forall_impl; [|exact Hf]. simpl. intros sg Hsg. lia. }
      assert (Hc1 : Forall (cleanEntry ids) (map idAndInstruments (parts (score w1)))).
      { apply (Permutation_Forall (x := new :: map idAndInstruments (parts (score w))));
          [now symmetry|].
        constructor; [|assumption].
        split; [discriminate|]. unfold new. simpl. constructor; [|constructor].
        simpl. apply contains_In. apply Hl. now left. }
      destruct (IH w1 Hr1 Hn1 Hf1 Hc1 (fun j Hj => Hl j (or_intror Hj)))
        as [F [N [C [I V]]]].
      split; [now apply (frame_trans w w1)|]. split; [assumption|].
      split; [assumption|]. split.
      * intros sg Hsg. apply I.
        apply (Permutation_in (l := new :: map idAndInstruments (parts (score w))));
          [now symmetry | now right].
      * intros j [<-|Hj]; [|now apply V]. right. exists new. split.
        -- apply I.
           apply (Permutation_in (l := new :: map idAndInstruments (parts (score w))));
             [now symmetry | now left].
        -- unfold new. simpl. now left.
Qed.

(** *** The first call settles the world *)

Lemma length_instrumentsToRemoveOf (ids : IDList) (p : Part) :
  List.length (instrumentsToRemoveOf ids p) + List.length (prune ids (partInstruments p)) =
  List.length (partInstruments p).
Proof.
  unfold instrumentsToRemoveOf, prune, values. rewrite instruments_all.
  rewrite map_map, filter_map_comm, length_map.
  induction (partInstruments p) as [|e m IH]; simpl; [reflexivity|].
  destruct (contains ids (instrumentId (snd e))); simpl; lia.
Qed.

Lemma allMissing_prune (ids : IDList) (p : Part) :
  allMissing ids p = true <-> prune ids (partInstruments p) = [].
Proof.
  unfold allMissing. rewrite instruments_all, Nat.eqb_eq.
  pose proof (length_instrumentsToRemoveOf ids p) as H. split; intros E.
  - apply length_zero_iff_nil. lia.
  - rewrite E in H. simpl in H. lia.
Qed.

Lemma prune_clean (ids : IDList) (p : Part) :
  allMissing ids p = false -> cleanEntry ids (idAndInstruments (prunePart ids p)).
Proof.
  intros Ha. split; simpl.
  - intros E. apply allMissing_prune in E. congruence.
  - apply Forall_forall. intros e He. apply filter_In in He. tauto.
Qed.

Lemma filter_none {A : Type} (f : A -> bool) (l : list A) :
  (forall x, In x l -> f x = false) -> filter f l = [].
Proof.
  induction l as [|a l IH]; intros H; simpl; [reflexivity|].
  rewrite (H a (or_introl eq_refl)). apply IH. intros x Hx. apply H. now right.
Qed.

Lemma clean_step (ids : IDList) (q : Part) :
  cleanEntry ids (idAndInstruments q) ->
  instrumentsToRemoveOf ids q = [] /\ partInstruments q <> [].
Proof.
  intros [Hne Hall]. simpl in Hne, Hall. split; [|assumption].
  unfold instrumentsToRemoveOf. rewrite instruments_all. apply filter_none.
  intros x Hx. unfold values in Hx. rewrite map_map in Hx.
  apply in_map_iff in Hx. destruct Hx as [e [<- He]].
  rewrite Forall_forall in Hall. now rewrite (Hall e He).
Qed.

Lemma partList_loop_incl (l : list Part) :
  forall seen p, In p (partList_loop seen l) -> In p l.
Proof.
  induction l as [|a l IH]; intros seen p H; simpl in *; [assumption|].
  destruct (contains seen (partId a)).
  - right. now apply (IH seen).
  - destruct H as [H|H]; [now left | right; now apply (IH (partId a :: seen))].
Qed.

Lemma setInstruments_settles (l : list Instrument) (w w1 : World) :
  wellFormed w ->
  setInstruments l w = Done w1 ->
  settled (map instrument_id l) w1.
Proof.
  intros Hwf H. set (ids := map instrument_id l) in *.
  assert (Hwf0 : wellFormed (startEdit w)) by exact Hwf.
  destruct (removeMissingInstruments_spec ids (startEdit w) Hwf0) as [SR [_ [PR AR]]].
  destruct Hwf as [Hr [Hall [Hex Hfresh]]].
  pose proof (distinctIds_wellFormed w Hall) as Hd.
  assert (Hn0 : NoDup (map partId (parts (score w)))) by apply Hd.
  unfold setInstruments in H. fold ids in H.
  set (wr := removeMissingInstruments ids (startEdit w)) in *.
  change (parts (score (startEdit w))) with (parts (score w)) in *.
  change (isMaster (startEdit w)) with (isMaster w) in *.
  change (scoreList (startEdit w)) with (scoreList w) in *.
  destruct SR as [Cr [Er [Nr Lr]]].
  change (current (startEdit w)) with (current w) in Cr.
  change (excerpts (startEdit w)) with (excerpts w) in Er.
  change (nextAddr (startEdit w)) with (nextAddr w) in Nr.
  change (List.length (scores (startEdit w))) with (List.length (scores w)) in Lr.
  assert (Rr : current wr < List.length (scores wr)) by now rewrite Cr, Lr.
  (* the entries of the score after the removal phase *)
  assert (Sr : forall sg, In sg (map idAndInstruments (parts (score wr))) <->
                          exists p, In p (parts (score w)) /\ allMissing ids p = false /\
                                    sg = idAndInstruments (prunePart ids p)).
  { intros sg. rewrite PR, map_map, in_map_iff. split.
    - intros [p [<- Hp]]. apply filter_In in Hp. destruct Hp as [Hp Ha].
      exists p. split; [assumption|]. split; [|reflexivity].
      now destruct (allMissing ids p).
    - intros [p [Hp [Ha ->]]]. exists p. split; [reflexivity|].
      apply filter_In. split; [assumption | now rewrite Ha]. }
  assert (Nr' : NoDup (map fst (map idAndInstruments (parts (score wr))))).
  { rewrite <- map_partId_idAndInstruments, PR, map_map. simpl.
    apply (filter_map_NoDup partId). exact Hn0. }
  assert (Fr' : Forall (fun sg => String.length (fst sg) <= nextAddr wr)
                  (map idAndInstruments (parts (score wr)))).
  { apply Forall_forall. intros sg Hsg. apply Sr in Hsg.
    destruct Hsg as [p [Hp [_ ->]]]. simpl. rewrite Nr.
    rewrite Forall_forall in Hfresh. now apply Hfresh. }
  assert (Cr' : Forall (cleanEntry ids) (map idAndInstruments (parts (score wr)))).
  { apply Forall_forall. intros sg Hsg. apply Sr in Hsg.
    destruct Hsg as [p [Hp [Ha ->]]]. now apply prune_clean. }
  destruct (setInstruments_create_fold (allInstrumentsIds wr) ids l wr Rr Nr' Fr' Cr'
              (fun i Hi => in_map instrument_id l i Hi)) as [Fc [Nc [Cc [Ic Vc]]]].
  set (wc := fold_left (setInstruments_create (allInstrumentsIds wr)) l wr) in *.
  assert (Rc : current wc < List.length (scores wc)) by now apply (frame_in_range wr).
  set (wm := if isEmpty (measures (score wc)) then modifyScore insertMeasure wc else wc)
    in *.
  assert (Hm : frame wc wm /\ parts (score wm) = parts (score wc) /\
               measures (score wm) <> []).
  { unfold wm. destruct (measures (score wc)) as [|m ms] eqn:Em; cbn [isEmpty].
    - split; [apply frame_modifyScore|].
      rewrite score_modifyScore by assumption. split; [reflexivity|].
      simpl. rewrite Em. discriminate.
    - split; [apply frame_refl|]. split; [reflexivity|]. rewrite Em. discriminate. }
  destruct Hm as [Fm [Pm Mm]].
  assert (Rm : current wm < List.length (scores wm)) by now apply (frame_in_range wc).
  destruct (sortParts ids wm) as [ws|] eqn:Hs; [|discriminate].
  cbn [andThen] in H. injection H as <-.
  unfold sortParts in Hs.
  destruct (Nat.eqb_spec (List.length (parts (score wm))) (List.length ids)) as [Hlen|];
    [|discriminate].
  assert (Nm : NoDup (map partId (parts (score wm)))).
  { rewrite Pm, map_partId_idAndInstruments. exact Nc. }
  destruct (sortParts_loop_spec ids 0 wm ws Rm Nm Hs) as [Fs [Ms [_ [Ps Hst]]]].
  cbn [skipn] in Ps. rewrite Pm in Ps.
  assert (Frs : frame wr ws).
  { apply (frame_trans wr wc); [assumption|]. now apply (frame_trans wc wm). }
  destruct Frs as [Cs [Es [Ls Os]]].
  assert (Ns : NoDup (map partId (parts (score ws)))).
  { rewrite map_partId_idAndInstruments.
    apply (Permutation_NoDup (l := map fst (map idAndInstruments (parts (score wc)))));
      [|assumption].
    apply Permutation_map. now symmetry. }
  assert (Ks : forall sg, In sg (map idAndInstruments (parts (score wc))) ->
                          exists q, In q (parts (score ws)) /\ idAndInstruments q = sg).
  { intros sg Hsg.
    apply (Permutation_in (l' := map idAndInstruments (parts (score ws)))) in Hsg;
      [|now symmetry].
    apply in_map_iff in Hsg. destruct Hsg as [q [Hq Hin]]. now exists q. }
  assert (Kept : forall p, In p (parts (score w)) -> allMissing ids p = false ->
                           exists q, In q (parts (score ws)) /\
                                     idAndInstruments q = idAndInstruments (prunePart ids p)).
  { intros p Hp Ha. apply Ks. apply Ic. apply Sr. now exists p. }
  assert (Exc : forall q, isMasterAt (current w) = true ->
                          In q (flat_map Excerpt_parts (excerpts w)) ->
                          In q (parts (score w))).
  { intros q M Hq. rewrite Forall_forall in Hex. apply Hex.
    unfold excerptParts. now rewrite M. }
  set (w1 := emit PartsChangedNotify
               (emit PartsNotifierChanged (apply (removeEmptyExcerpts ws)))).
  assert (Exs : excerpts w1 =
                filter (fun e => negb (isEmpty (scoreStaves (scoreAt (Excerpt_partScore e) ws))))
                  (excerpts w)).
  { unfold w1. simpl. now rewrite Es, Er. }
  assert (Cw : current ws = current w) by congruence.
  split; [|split; [|split; [|split; [|split]]]].
  - (* the removal phase has nothing to do *)
    intros pid q Hq. rewrite part_unfold in Hq.
    change (parts (score w1)) with (parts (score ws)) in Hq.
    destruct (find (fun p => String.eqb (partId p) pid) (parts (score ws))) as [p|] eqn:Fp.
    + injection Hq as ->. left. apply clean_step.
      apply find_some in Fp. destruct Fp as [Hin _].
      assert (Hsg : In (idAndInstruments q) (map idAndInstruments (parts (score wc)))).
      { apply (Permutation_in (l := map idAndInstruments (parts (score ws))));
          [assumption | now apply in_map]. }
      rewrite Forall_forall in Cc. now apply Cc.
    + unfold excerptParts in Hq. change (current w1) with (current ws) in Hq.
      rewrite Cw in Hq.
      destruct (isMasterAt (current w)) eqn:M; cbn [negb] in Hq; [|discriminate].
      apply find_some in Hq. destruct Hq as [Hin Hid]. apply String.eqb_eq in Hid.
      rewrite Exs in Hin. apply in_flat_map in Hin. destruct Hin as [e [He Hqe]].
      apply filter_In in He. destruct He as [He _].
      assert (Hq0 : In q (parts (score w))).
      { apply Exc; [reflexivity || assumption|]. apply in_flat_map. now exists e. }
      destruct (allMissing ids q) eqn:Ha.
      * right. split; [reflexivity|]. split.
        -- now apply hasPart_false_find.
        -- intros _ k Hk.
           assert (Hk0 : In k (scoreList w)).
           { unfold scoreList in *. rewrite Exs in Hk. destruct Hk as [Hk|Hk]; [now left|].
             right. apply in_map_iff in Hk. destruct Hk as [e' [<- He']].
             apply filter_In in He'. apply in_map. tauto. }
           change (scoreAt k w1) with (scoreAt k ws).
           destruct (Nat.eq_dec k (current w)) as [->|Hne].
           ++ rewrite <- Cw. fold (score ws). now apply hasPart_false_find.
           ++ rewrite Os by congruence. rewrite <- Hid. now apply AR.
      * exfalso. destruct (Kept q Hq0 Ha) as [q' [Hq' Hsg]].
        apply hasPart_false_find in Fp.
        assert (T : hasPart pid (parts (score ws)) = true).
        { apply hasPart_In. apply in_map_iff. exists q'. split; [|assumption].
          injection Hsg as H1 _. congruence. }
        congruence.
  - (* every wanted instrument exists *)
    intros x Hx. unfold ids in Hx. apply in_map_iff in Hx. destruct Hx as [i [<- Hi]].
    assert (Hsg : exists sg, In sg (map idAndInstruments (parts (score wc))) /\
                             In (instrument_id i) (map instrumentId (values (snd sg)))).
    { destruct (Vc i Hi) as [Hex1|Hsg]; [|exact Hsg].
      apply andb_true_iff in Hex1. destruct Hex1 as [_ Hc].
      apply contains_In in Hc. unfold allInstrumentsIds in Hc.
      apply in_flat_map in Hc. destruct Hc as [p [Hp Hxp]].
      rewrite instruments_all in Hxp.
      unfold partList in Hp. apply partList_loop_incl in Hp.
      unfold availableParts, scoreParts in Hp. fold (score wr) in Hp.
      assert (Hcase : In p (parts (score wr)) \/
                      (In p (parts (score w)))).
      { apply in_app_or in Hp. destruct Hp as [Hp|Hp]; [now left|]. right.
        unfold excerptParts in Hp. rewrite Cr in Hp.
        destruct (isMasterAt (current w)) eqn:M; cbn [negb] in Hp; [|contradiction].
        apply Exc; [reflexivity || assumption|]. now rewrite <- Er. }
      destruct Hcase as [Hp'|Hp'].
      - exists (idAndInstruments p). split; [|exact Hxp].
        apply Ic. now apply in_map.
      - unfold values in Hxp. rewrite map_map in Hxp. apply in_map_iff in Hxp.
        destruct Hxp as [e [Hxe He]].
        assert (Hpr : In e (prune ids (partInstruments p))).
        { apply filter_In. split; [assumption|]. rewrite Hxe. apply contains_In.
          unfold ids. now apply in_map. }
        destruct (allMissing ids p) eqn:Ha.
        + apply allMissing_prune in Ha. rewrite Ha in Hpr. contradiction.
        + exists (idAndInstruments (prunePart ids p)). split.
          * apply Ic. apply Sr. now exists p.
          * simpl. unfold values. rewrite map_map. apply in_map_iff. now exists e. }
    destruct Hsg as [sg [Hsg Hxs]]. destruct (Ks sg Hsg) as [q [Hq Hqs]].
    exists q. split.
    + now apply part_of_score.
    + rewrite instruments_all. now rewrite <- Hqs in Hxs.
  - change (measures (score w1)) with (measures (score ws)). now rewrite Ms.
  - change (parts (score w1)) with (parts (score ws)). rewrite <- Hlen, Pm.
    rewrite <- (length_map idAndInstruments (parts (score ws))).
    rewrite <- (length_map idAndInstruments (parts (score wc))).
    now apply Permutation_length.
  - exact Hst.
  - apply Forall_forall. intros e He. rewrite Exs in He. apply filter_In in He.
    destruct He as [_ He]. change (scoreAt (Excerpt_partScore e) w1)
      with (scoreAt (Excerpt_partScore e) ws).
    now destruct (isEmpty (scoreStaves (scoreAt (Excerpt_partScore e) ws))).
Qed.

(** C1.  [setInstruments] is idempotent.  In a well-formed world ([score()]
    is in the store, the parts of a score have distinct identifiers, the
    excerpts of the master list parts of the master, part identifiers are
    older than the address counter), when [setInstruments] with the list [l]
    returns, the same call on the world it leaves returns too and changes
    nothing in the parts, the staves, the instrument mappings, the excerpts
    or any other part of the structure; it makes the four calls every
    [setInstruments] makes (start of the edit, apply, and the two
    notifications that the list of parts changed) and no notification about
    a part or an instrument. *)
Theorem setInstruments_twice_idempotent (l : list Instrument) (w w1 : World) :
  wellFormed w ->
  setInstruments l w = Done w1 ->
  exists w2,
    setInstruments l w1 = Done w2 /\
    structure w2 = structure w1 /\
    trace w2 = trace w1 ++ setInstruments_events.
Proof.
  intros Hwf H.
  pose proof (setInstruments_settles l w w1 Hwf H) as Hs.
  rewrite (setInstruments_settled l w1 Hs).
  eexists. split; [reflexivity|]. split; [reflexivity|].
  simpl. now rewrite <- !app_assoc.
Qed.

Lemma setInstruments_twice_idempotent_witness :
  wellFormed masterWorld /\
  setInstruments [violinSpec; violaSpec] masterWorld = Done masterWorldSettled /\
  exists w2,
    setInstruments [violinSpec; violaSpec] masterWorldSettled = Done w2 /\
    structure w2 = structure masterWorldSettled /\
    trace w2 = trace masterWorldSettled ++ setInstruments_events.
Proof.
  assert (Hwf : wellFormed masterWorld).
  { split; [simpl; lia|]. split; [|split].
    - repeat constructor; simpl; intuition discriminate.
    - repeat constructor; simpl; tauto.
    - repeat constructor; simpl; lia. }
  split; [exact Hwf|]. split; [reflexivity|].
  apply (setInstruments_twice_idempotent [violinSpec; violaSpec] masterWorld
           masterWorldSettled).
  - exact Hwf.
  - reflexivity.
Defined.

(** * Further properties of the editor *)

(** ** Listing and lookup of parts *)

Lemma partList_loop_unseen (l : list Part) :
  forall seen p, In p (partList_loop seen l) -> contains seen (partId p) = false.
Proof.
  induction l as [|a l IH]; intros seen p H; simpl in H; [contradiction|].
  destruct (contains seen (partId a)) eqn:C.
  - now apply IH.
  - destruct H as [<-|H]; [assumption|].
    apply IH in H. simpl in H. apply Bool.orb_false_elim in H. tauto.
Qed.

Lemma partList_loop_find (l : list Part) :
  forall seen p,
    In p (partList_loop seen l) ->
    find (fun q => String.eqb (partId q) (partId p)) l = Some p.
Proof.
  induction l as [|a l IH]; intros seen p H; simpl in H; [contradiction|].
  cbn [find]. destruct (contains seen (partId a)) eqn:C.
  - pose proof (partList_loop_unseen l seen p H) as U.
    destruct (String.eqb_spec (partId a) (partId p)) as [E|N]; [congruence|].
    now apply (IH seen).
  - destruct H as [<-|H]; [now rewrite String.eqb_refl|].
    pose proof (partList_loop_unseen l _ p H) as U. simpl in U.
    apply Bool.orb_false_elim in U. destruct U as [U _].
    rewrite String.eqb_sym in U. rewrite U. now apply (IH (partId a :: seen)).
Qed.

(** X1.  [partList] and [part] agree: a part is listed by [partList] exactly
    when [part], asked for its identifier, answers with that very part. *)
Theorem partList_lists_what_part_finds (w : World) (p : Part) :
  In p (partList w) <-> part (partId p) w = Some p.
Proof.
  unfold partList, part, partIn. split.
  - apply partList_loop_find.
  - intros H. now apply partList_loop_first.
Qed.

(** ** Renaming a part *)

Lemma trace_modifyPart (pid : ID) (f : Part -> Part) (w : World) :
  trace (modifyPart pid f w) = trace w.
Proof.
  unfold modifyPart. destruct (hasPart pid (parts (score w))); [reflexivity|].
  now destruct (isMaster w).
Qed.

Lemma scoreStaves_modifyPart (pid : ID) (f : Part -> Part) (w : World) :
  (forall p, partStaves (f p) = partStaves p) ->
  scoreStaves (score (modifyPart pid f w)) = scoreStaves (score w).
Proof.
  intros Hf. unfold modifyPart.
  destruct (hasPart pid (parts (score w))) eqn:E.
  - pose proof (hasPart_current_in_range _ _ E) as Hr.
    rewrite score_modifyScore by assumption. unfold scoreStaves. simpl.
    clear E Hr. induction (parts (score w)) as [|q ps IH]; simpl; [reflexivity|].
    destruct (String.eqb (partId q) pid); simpl; [now rewrite Hf | now rewrite IH].
  - now destruct (isMaster w).
Qed.

Lemma part_setPartName (pid : ID) (name : string) (w : World) (p : Part) :
  part pid w = Some p ->
  partName p <> name ->
  part pid (setPartName pid name w) = Some (ChangePart (instrument p) name p).
Proof.
  intros Hp Hn.
  assert (Hid : partId p = pid).
  { unfold part, partIn in Hp. now apply find_partId in Hp. }
  unfold setPartName. rewrite Hp.
  destruct (String.eqb_spec (partName p) name) as [E|_]; [contradiction|].
  cbv zeta. unfold apply, startEdit. rewrite !part_emit.
  apply part_doSetPartName_same; [now rewrite part_emit | exact Hid].
Qed.

(** X2.  [setPartName] on a part that [part] finds under another name and
    that has its primary instrument in place: the part carries the new name
    and is otherwise the same, the other parts are as they were, no staff
    changes, and the call is one transaction followed by the notification for
    the part and by the parts-changed notification. *)
Theorem setPartName_renames (pid : ID) (name : string) (w : World) (p : Part) :
  part pid w = Some p ->
  primaryFirst p ->
  partName p <> name ->
  part pid (setPartName pid name w) = Some (set_partName name p) /\
  (forall q, q <> pid -> part q (setPartName pid name w) = part q w) /\
  scoreStaves (score (setPartName pid name w)) = scoreStaves (score w) /\
  trace (setPartName pid name w) =
    trace w ++ [StartEdit; Apply; PartsNotifierItemChanged pid; PartsChangedNotify].
Proof.
  intros Hp Hprim Hn.
  assert (Hid : partId p = pid).
  { unfold part, partIn in Hp. now apply find_partId in Hp. }
  split.
  { rewrite (part_setPartName pid name w p Hp Hn). now rewrite ChangePart_primaryFirst. }
  unfold setPartName. rewrite Hp.
  destruct (String.eqb_spec (partName p) name) as [E|_]; [contradiction|].
  cbv zeta. unfold apply, startEdit, doSetPartName.
  split; [|split].
  - intros q Hq. rewrite !part_emit.
    rewrite part_modifyPart_other by (congruence || reflexivity). apply part_emit.
  - match goal with
    | |- scoreStaves (score (emit _ (emit _ (emit _ ?w1)))) = _ =>
        change (scoreStaves (score w1) = scoreStaves (score w))
    end.
    now rewrite scoreStaves_modifyPart.
  - simpl. rewrite trace_modifyPart. simpl. now rewrite <- !app_assoc.
Qed.

Lemma setPartName_renames_witness :
  part "Violin" (setPartName "Violin" "Fiddle" violinWorld) =
    Some (set_partName "Fiddle" violinPart) /\
  (forall q, q <> "Violin"%string ->
             part q (setPartName "Violin" "Fiddle" violinWorld) = part q violinWorld) /\
  scoreStaves (score (setPartName "Violin" "Fiddle" violinWorld)) =
    scoreStaves (score violinWorld) /\
  trace (setPartName "Violin" "Fiddle" violinWorld) =
    trace violinWorld ++
      [StartEdit; Apply; PartsNotifierItemChanged "Violin"; PartsChangedNotify].
Proof.
  apply (setPartName_renames "Violin" "Fiddle" violinWorld violinPart).
  - reflexivity.
  - reflexivity.
  - discriminate.
Defined.

(** X3.  [setPartName] is idempotent: a second call with the same
    identifier and name finds the name in place and does nothing, whatever
    the world. *)
Theorem setPartName_idempotent (pid : ID) (name : string) (w : World) :
  setPartName pid name (setPartName pid name w) = setPartName pid name w.
Proof.
  destruct (part pid w) as [p|] eqn:Hp.
  - destruct (String.eqb_spec (partName p) name) as [E|N].
    + assert (H : setPartName pid name w = w).
      { unfold setPartName. rewrite Hp. now rewrite E, String.eqb_refl. }
      now rewrite !H.
    + pose proof (part_setPartName pid name w p Hp N) as H.
      unfold setPartName at 1. rewrite H.
      change (partName (ChangePart (instrument p) name p)) with name.
      now rewrite String.eqb_refl.
  - assert (H : setPartName pid name w = w).
    { unfold setPartName. now rewrite Hp. }
    now rewrite !H.
Qed.

Lemma set_partName_same (p : Part) : set_partName (partName p) p = p.
Proof. now destruct p. Qed.

Lemma parts_setPartName_retitled (p : Part) (pre post : list Part) (w : World) :
  parts (score w) = pre ++ p :: post ->
  hasPart (partId p) pre = false ->
  primaryFirst p ->
  parts (score (setPartName (partId p) (formatPartName p) w)) = pre ++ retitled p :: post.
Proof.
  intros Hps Hpre Hprim.
  assert (Hp : part (partId p) w = Some p).
  { rewrite part_unfold, Hps, find_app.
    pose proof Hpre as Hf. apply hasPart_false_find in Hf. rewrite Hf. simpl.
    now rewrite String.eqb_refl. }
  unfold setPartName. rewrite Hp.
  destruct (String.eqb_spec (partName p) (formatPartName p)) as [E|N].
  - rewrite Hps. unfold retitled. now rewrite <- E, set_partName_same.
  - cbv zeta. unfold apply, startEdit, doSetPartName.
    match goal with
    | |- parts (score (emit _ (emit _ (emit _ ?w1)))) = _ =>
        change (parts (score w1) = pre ++ retitled p :: post)
    end.
    assert (Hh : hasPart (partId p) (parts (score (emit StartEdit w))) = true).
    { change (parts (score (emit StartEdit w))) with (parts (score w)). rewrite Hps.
      apply hasPart_In. rewrite map_app. apply in_or_app. right. now left. }
    unfold modifyPart. rewrite Hh.
    pose proof (hasPart_current_in_range _ _ Hh) as Hr.
    rewrite score_modifyScore by assumption. simpl.
    change (parts (score (emit StartEdit w))) with (parts (score w)). rewrite Hps.
    rewrite modifyFirst_split by (assumption || reflexivity).
    unfold retitled. now rewrite ChangePart_primaryFirst.
Qed.

Lemma updatePartTitles_loop :
  forall (todo done : list Part) (w : World),
    parts (score w) = map retitled done ++ todo ->
    NoDup (map partId (done ++ todo)) ->
    Forall primaryFirst todo ->
    parts (score (fold_left
                    (fun w p => setPartName (partId p) (formatPartName p) w) todo w)) =
    map retitled (done ++ todo).
Proof.
  induction todo as [|p todo IH]; intros done w Hps Hnd Hprim.
  - simpl. now rewrite app_nil_r in *.
  - cbn [fold_left]. inversion Hprim as [|? ? Hp1 Hrest]; subst.
    assert (Hpre : hasPart (partId p) (map retitled done) = false).
    { rewrite hasPart_map_same_id by reflexivity. now apply NoDup_split_hasPart in Hnd. }
    pose proof (parts_setPartName_retitled p (map retitled done) todo w Hps Hpre Hp1) as H1.
    replace (done ++ p :: todo) with ((done ++ [p]) ++ todo) by now rewrite <- app_assoc.
    apply IH.
    + rewrite H1, map_app, <- app_assoc. reflexivity.
    + now rewrite <- app_assoc.
    + exact Hrest.
Qed.

Lemma updatePartTitles_nothing_to_do (l : list Part) (w : World) :
  (forall p, In p l -> part (partId p) w = Some p /\ partName p = formatPartName p) ->
  fold_left (fun w p => setPartName (partId p) (formatPartName p) w) l w = w.
Proof.
  induction l as [|p l IH]; intros H; [reflexivity|]. cbn [fold_left].
  destruct (H p (or_introl eq_refl)) as [Hp Hn].
  assert (E : setPartName (partId p) (formatPartName p) w = w).
  { unfold setPartName. rewrite Hp, Hn. now rewrite String.eqb_refl. }
  rewrite E. apply IH. intros q Hq. apply H. now right.
Qed.

(** X4.  [updatePartTitles] on a score whose parts have distinct
    identifiers and their primary instruments in place: afterwards every
    part of the score carries the name that [formatPartName] derives from its
    instruments, the parts keep their identifiers, instrument mappings and
    order, and a second run finds nothing to rename and leaves the world,
    trace included, as it is. *)
Theorem updatePartTitles_names_every_part (w : World) :
  NoDup (map partId (parts (score w))) ->
  Forall primaryFirst (parts (score w)) ->
  Forall (fun p => partName p = formatPartName p) (parts (score (updatePartTitles w))) /\
  map idAndInstruments (parts (score (updatePartTitles w))) =
    map idAndInstruments (parts (score w)) /\
  updatePartTitles (updatePartTitles w) = updatePartTitles w.
Proof.
  intros Hnd Hprim.
  assert (Hps : parts (score (updatePartTitles w)) = map retitled (parts (score w))).
  { unfold updatePartTitles. now apply (updatePartTitles_loop (parts (score w)) [] w). }
  assert (Hf : Forall (fun p => partName p = formatPartName p)
                 (parts (score (updatePartTitles w)))).
  { rewrite Hps. apply Forall_forall. intros q Hq. apply in_map_iff in Hq.
    destruct Hq as [p [<- _]]. reflexivity. }
  split; [exact Hf|]. split.
  - rewrite Hps, map_map. now apply map_ext.
  - unfold updatePartTitles at 1. apply updatePartTitles_nothing_to_do.
    intros p Hp. split.
    + apply part_of_score; [|assumption]. rewrite Hps, map_map.
      now rewrite (map_ext _ partId) by reflexivity.
    + rewrite Forall_forall in Hf. now apply Hf.
Qed.

Lemma updatePartTitles_names_every_part_witness :
  Forall (fun p => partName p = formatPartName p)
    (parts (score (updatePartTitles duoWorld))) /\
  map idAndInstruments (parts (score (updatePartTitles duoWorld))) =
    map idAndInstruments (parts (score duoWorld)) /\
  updatePartTitles (updatePartTitles duoWorld) = updatePartTitles duoWorld.
Proof.
  apply (updatePartTitles_names_every_part duoWorld).
  - vm_compute. repeat constructor; simpl; intuition discriminate.
  - repeat constructor.
Defined.

(** ** Removing parts *)

Lemma trace_doRemoveParts (R : IDList) (w : World) :
  trace (doRemoveParts R w) = trace w.
Proof.
  unfold doRemoveParts. revert w. induction R as [|pid R IH]; intros w; [reflexivity|].
  cbn [fold_left]. rewrite IH.
  destruct (negb (isMaster (modifyScore (cmdRemovePart pid) w))); [reflexivity|].
  assert (G : forall (l : list nat) (w1 : World),
            trace (fold_left
                     (fun w0 k => if Nat.eqb k (current w0) then w0
                                  else modifyScoreAt k (cmdRemovePart pid) w0) l w1) =
            trace w1).
  { induction l as [|k l IHl]; intros w1; [reflexivity|]. cbn [fold_left].
    rewrite IHl. now destruct (Nat.eqb k (current w1)). }
  now rewrite G.
Qed.

(** X5.  [removeParts] with a list that is not empty, in a world whose
    scores have parts with distinct identifiers: the current score keeps, in
    their order, exactly the parts whose identifier is not in the list; when
    the current score is the master, no score of the score list holds a
    listed part any more; and the call is one transaction followed by the
    parts-changed notification. *)
Theorem removeParts_removes_listed_parts (ids : IDList) (w : World) :
  current w < List.length (scores w) ->
  Forall (fun s => NoDup (map partId (parts s))) (scores w) ->
  ids <> [] ->
  parts (score (removeParts ids w)) =
    filter (fun p => negb (contains ids (partId p))) (parts (score w)) /\
  (isMaster w = true ->
   forall pid k, In pid ids -> In k (scoreList w) ->
                 hasPart pid (parts (scoreAt k (removeParts ids w))) = false) /\
  trace (removeParts ids w) = trace w ++ [StartEdit; Apply; PartsChangedNotify].
Proof.
  intros Hr Hall Hne. pose proof (distinctIds_wellFormed w Hall) as Hd.
  unfold removeParts. destruct ids as [|x ids]; [congruence|]. cbn [isEmpty].
  cbv zeta. set (R := x :: ids) in *.
  destruct (doRemoveParts_spec R (startEdit w) Hr Hd) as [w' [E [S3 [K3 [P3 A3]]]]].
  rewrite E. split; [exact P3|]. split.
  - intros M pid k Hpid Hk. now apply A3.
  - rewrite <- E. unfold apply, emit, set_trace. cbn [trace].
    rewrite trace_doRemoveParts. unfold startEdit, emit, set_trace. cbn [trace].
    now rewrite <- !app_assoc.
Qed.

Lemma removeParts_removes_listed_parts_witness :
  parts (score (removeParts ["Flute"%string] masterWorld)) =
    filter (fun p => negb (contains ["Flute"%string] (partId p)))
      (parts (score masterWorld)) /\
  (isMaster masterWorld = true ->
   forall pid k, In pid ["Flute"%string] -> In k (scoreList masterWorld) ->
                 hasPart pid (parts (scoreAt k (removeParts ["Flute"%string] masterWorld))) =
                   false) /\
  trace (removeParts ["Flute"%string] masterWorld) =
    trace masterWorld ++ [StartEdit; Apply; PartsChangedNotify].
Proof.
  apply (removeParts_removes_listed_parts ["Flute"%string] masterWorld).
  - simpl. lia.
  - repeat constructor; simpl; intuition discriminate.
  - discriminate.
Defined.

(** ** Removing instruments from a part *)

Lemma part_doRemoveInstruments_same (pid : ID) (ids : IDList) :
  forall (w : World) (p : Part),
    part pid w = Some p ->
    part pid (doRemoveInstruments ids pid w) =
    Some (set_partInstruments
            (fold_left (fun m x => qmap_removeInstrument x m) ids (partInstruments p)) p).
Proof.
  intros w. unfold doRemoveInstruments.
  generalize (instrumentChangeElements pid (score w)) as ice. intros ice. revert w.
  induction ids as [|x ids IH]; intros w p Hp.
  - cbn [fold_left]. now rewrite set_partInstruments_same.
  - cbn [fold_left]. rewrite Hp.
    assert (Hid : partId p = pid).
    { unfold part, partIn in Hp. now apply find_partId in Hp. }
    assert (Hi : instrumentInfo x (Some p) =
                 find (fun e => String.eqb (instrumentId (snd e)) x) (partInstruments p)).
    { unfold instrumentInfo. now rewrite instruments_all. }
    rewrite Hi.
    destruct (find (fun e => String.eqb (instrumentId (snd e)) x) (partInstruments p))
      as [[t i]|] eqn:Fi.
    + cbv zeta.
      set (w1 := match qmap_value t ice with
                 | Some instrumentChange =>
                     modifyScore (undoRemoveElement (elAddr instrumentChange)) w
                 | None => w
                 end).
      assert (H1 : part pid w1 = Some p).
      { unfold w1. destruct (qmap_value t ice); [|assumption].
        now rewrite part_modifyScore_parts. }
      rewrite (IH _ (Part_removeInstrument x p)); [reflexivity|].
      now apply part_modifyPart_same.
    + rewrite (IH w p Hp). now rewrite (qmap_removeInstrument_absent _ _ Fi).
Qed.

Lemma qmap_removeInstrument_filter (x : ID) (m : QMap MsInstrument) :
  NoDup (map instrumentId (values m)) ->
  qmap_removeInstrument x m =
  filter (fun e => negb (String.eqb (instrumentId (snd e)) x)) m.
Proof.
  induction m as [|[k i] m IH]; simpl; intros Hn; [reflexivity|].
  inversion Hn as [|? ? Hi Hm]; subst.
  destruct (String.eqb_spec (instrumentId i) x) as [E|N]; simpl.
  - symmetry. apply filter_all. apply Forall_forall. intros e He.
    destruct (String.eqb_spec (instrumentId (snd e)) x) as [E'|]; [|reflexivity].
    exfalso. apply Hi. rewrite E, <- E'. unfold values. now apply in_map, in_map.
  - now rewrite IH.
Qed.

Lemma fold_remove_filter (ids : IDList) :
  forall m : QMap MsInstrument,
    NoDup (map instrumentId (values m)) ->
    fold_left (fun m x => qmap_removeInstrument x m) ids m =
    filter (fun e => negb (contains ids (instrumentId (snd e)))) m.
Proof.
  induction ids as [|x ids IH]; intros m Hn.
  - simpl. now rewrite filter_true.
  - cbn [fold_left]. rewrite qmap_removeInstrument_filter by assumption.
    rewrite IH.
    + rewrite filter_filter. apply filter_ext. intros e.
      rewrite contains_cons, Bool.negb_orb. reflexivity.
    + unfold values in *. rewrite map_map in *.
      now apply (filter_map_NoDup (fun e => instrumentId (snd e))).
Qed.

(** X6.  [removeInstruments] on a part that [part] finds, whose
    instruments have distinct identifiers and whose primary instrument is in
    place and not among those to remove: the part keeps, in tick order,
    exactly the instruments whose identifier is not listed; it is renamed
    after them (their track names joined by " & "); its identifier and staves
    stay, and so does every other part. *)
Theorem removeInstruments_removes_listed (ids : IDList) (pid : ID) (w : World) (p : Part) :
  part pid w = Some p ->
  NoDup (map instrumentId (values (partInstruments p))) ->
  primaryFirst p ->
  ~ In (Part_instrumentId p) ids ->
  exists p',
    part pid (removeInstruments ids pid w) = Some p' /\
    partInstruments p' =
      filter (fun e => negb (contains ids (instrumentId (snd e)))) (partInstruments p) /\
    partName p' = String.concat " & " (map trackName (values (partInstruments p'))) /\
    partId p' = partId p /\
    partStaves p' = partStaves p /\
    (forall q, q <> pid -> part q (removeInstruments ids pid w) = part q w).
Proof.
  intros Hp Hn Hprim Hmain.
  set (p1 := set_partInstruments
               (fold_left (fun m x => qmap_removeInstrument x m) ids (partInstruments p)) p).
  assert (Hm1 : partInstruments p1 =
                filter (fun e => negb (contains ids (instrumentId (snd e))))
                  (partInstruments p)).
  { simpl. now apply fold_remove_filter. }
  assert (Hprim1 : primaryFirst p1).
  { unfold primaryFirst. rewrite Hm1.
    destruct (primaryFirst_inv p Hprim) as [i0 [m E]].
    unfold Part_instrumentId in Hmain. rewrite (instrument_primaryFirst p i0 m E) in Hmain.
    apply contains_false in Hmain. rewrite E. simpl. now rewrite Hmain. }
  exists (set_partName (formatPartName p1) p1).
  unfold removeInstruments. rewrite Hp. cbv zeta.
  split; [|split; [|split; [|split; [|split]]]].
  - unfold apply. rewrite !part_emit. apply part_renamePart_primary; [|exact Hprim1].
    apply part_doRemoveInstruments_same. exact Hp.
  - exact Hm1.
  - simpl. unfold formatPartName. now rewrite instruments_all.
  - reflexivity.
  - reflexivity.
  - intros q Hq. unfold apply. rewrite !part_emit.
    rewrite part_renamePart_other by congruence.
    rewrite part_doRemoveInstruments_other by congruence. reflexivity.
Qed.

Lemma removeInstruments_removes_listed_witness :
  exists p',
    part "A" (removeInstruments ["oboe"%string; "tuba"%string] "A" abWorld) = Some p' /\
    partInstruments p' =
      filter (fun e => negb (contains ["oboe"%string; "tuba"%string]
                               (instrumentId (snd e)))) (partInstruments partA) /\
    partName p' = String.concat " & " (map trackName (values (partInstruments p'))) /\
    partId p' = partId partA /\
    partStaves p' = partStaves partA /\
    (forall q, q <> "A"%string ->
               part q (removeInstruments ["oboe"%string; "tuba"%string] "A" abWorld) =
               part q abWorld).
Proof.
  apply (removeInstruments_removes_listed ["oboe"%string; "tuba"%string] "A" abWorld partA).
  - reflexivity.
  - repeat constructor; simpl; intuition discriminate.
  - reflexivity.
  - simpl. intuition discriminate.
Defined.

(** ** What [setInstruments] leaves *)

Lemma setInstruments_create_fold_keeps (Q : ID * QMap MsInstrument -> Prop) (E : IDList) :
  forall (l : list Instrument) (w : World),
    current w < List.length (scores w) ->
    (forall n i, In i l -> Q (makeId n, [(PRIMARY_TICK, convertInstrument i)])) ->
    Forall Q (map idAndInstruments (parts (score w))) ->
    Forall Q (map idAndInstruments
                (parts (score (fold_left (setInstruments_create E) l w)))).
Proof.
  induction l as [|i l IH]; intros w Hr Hnew HQ; [exact HQ|].
  cbn [fold_left].
  destruct (setInstruments_create_spec E w i Hr) as [F1 [[_ Ew]|[_ P1]]].
  - rewrite Ew. apply IH; [assumption | | assumption].
    intros n j Hj. apply Hnew. now right.
  - apply IH.
    + now apply (frame_in_range w).
    + intros n j Hj. apply Hnew. now right.
    + apply (Permutation_Forall
               (x := (makeId (nextAddr w), [(PRIMARY_TICK, convertInstrument i)])
                       :: map idAndInstruments (parts (score w)))); [now symmetry|].
      constructor; [|assumption]. apply Hnew. now left.
Qed.

(** The parts of the current score when [setInstruments] returns: their
    identifiers are distinct, each is a part of the old score without its
    unwanted instruments or a new part with one wanted instrument, and every
    wanted instrument is carried by one of them. *)
Lemma setInstruments_score_parts (Q : ID * QMap MsInstrument -> Prop)
  (l : list Instrument) (w w1 : World) :
  wellFormed w ->
  setInstruments l w = Done w1 ->
  (forall p, In p (parts (score w)) -> allMissing (map instrument_id l) p = false ->
             Q (idAndInstruments (prunePart (map instrument_id l) p))) ->
  (forall n i, In i l -> Q (makeId n, [(PRIMARY_TICK, convertInstrument i)])) ->
  NoDup (map partId (parts (score w1))) /\
  Forall Q (map idAndInstruments (parts (score w1))) /\
  (forall x, In x (map instrument_id l) ->
     exists p, In p (parts (score w1)) /\
               In x (map instrumentId (values (partInstruments p)))).
Proof.
  intros Hwf H Hold Hnew. set (ids := map instrument_id l) in *.
  assert (Hwf0 : wellFormed (startEdit w)) by exact Hwf.
  destruct (removeMissingInstruments_spec ids (startEdit w) Hwf0) as [SR [_ [PR AR]]].
  destruct Hwf as [Hr [Hall [Hex Hfresh]]].
  pose proof (distinctIds_wellFormed w Hall) as Hd.
  assert (Hn0 : NoDup (map partId (parts (score w)))) by apply Hd.
  unfold setInstruments in H. fold ids in H.
  set (wr := removeMissingInstruments ids (startEdit w)) in *.
  change (parts (score (startEdit w))) with (parts (score w)) in *.
  destruct SR as [Cr [Er [Nr Lr]]].
  change (current (startEdit w)) with (current w) in Cr.
  change (excerpts (startEdit w)) with (excerpts w) in Er.
  change (nextAddr (startEdit w)) with (nextAddr w) in Nr.
  change (List.length (scores (startEdit w))) with (List.length (scores w)) in Lr.
  assert (Rr : current wr < List.length (scores wr)) by now rewrite Cr, Lr.
  assert (Sr : forall sg, In sg (map idAndInstruments (parts (score wr))) <->
                          exists p, In p (parts (score w)) /\ allMissing ids p = false /\
                                    sg = idAndInstruments (prunePart ids p)).
  { intros sg. rewrite PR, map_map, in_map_iff. split.
    - intros [p [<- Hp]]. apply filter_In in Hp. destruct Hp as [Hp Ha].
      exists p. split; [assumption|]. split; [|reflexivity].
      now destruct (allMissing ids p).
    - intros [p [Hp [Ha ->]]]. exists p. split; [reflexivity|].
      apply filter_In. split; [assumption | now rewrite Ha]. }
  assert (Nr' : NoDup (map fst (map idAndInstruments (parts (score wr))))).
  { rewrite <- map_partId_idAndInstruments, PR, map_map. simpl.
    apply (filter_map_NoDup partId). exact Hn0. }
  assert (Fr' : Forall (fun sg => String.length (fst sg) <= nextAddr wr)
                  (map idAndInstruments (parts (score wr)))).
  { apply Forall_forall. intros sg Hsg. apply Sr in Hsg.
    destruct Hsg as [p [Hp [_ ->]]]. simpl. rewrite Nr.
    rewrite Forall_forall in Hfresh. now apply Hfresh. }
  assert (Cr' : Forall (cleanEntry ids) (map idAndInstruments (parts (score wr)))).
  { apply Forall_forall. intros sg Hsg. apply Sr in Hsg.
    destruct Hsg as [p [Hp [Ha ->]]]. now apply prune_clean. }
  assert (Qr : Forall Q (map idAndInstruments (parts (score wr)))).
  { apply Forall_forall. intros sg Hsg. apply Sr in Hsg.
    destruct Hsg as [p [Hp [Ha ->]]]. now apply Hold. }
  destruct (setInstruments_create_fold (allInstrumentsIds wr) ids l wr Rr Nr' Fr' Cr'
              (fun i Hi => in_map instrument_id l i Hi)) as [Fc [Nc [_ [Ic Vc]]]].
  pose proof (setInstruments_create_fold_keeps Q (allInstrumentsIds wr) l wr Rr Hnew Qr)
    as Qc.
  set (wc := fold_left (setInstruments_create (allInstrumentsIds wr)) l wr) in *.
  assert (Rc : current wc < List.length (scores wc)) by now apply (frame_in_range wr).
  set (wm := if isEmpty (measures (score wc)) then modifyScore insertMeasure wc else wc)
    in *.
  assert (Hm : frame wc wm /\ parts (score wm) = parts (score wc)).
  { unfold wm. destruct (measures (score wc)) as [|m ms] eqn:Em; cbn [isEmpty].
    - split; [apply frame_modifyScore|]. now rewrite score_modifyScore.
    - split; [apply frame_refl | reflexivity]. }
  destruct Hm as [Fm Pm].
  assert (Rm : current wm < List.length (scores wm)) by now apply (frame_in_range wc).
  destruct (sortParts ids wm) as [ws|] eqn:Hs; [|discriminate].
  cbn [andThen] in H. injection H as <-.
  unfold sortParts in Hs.
  destruct (Nat.eqb_spec (List.length (parts (score wm))) (List.length ids)) as [Hlen|];
    [|discriminate].
  assert (Nm : NoDup (map partId (parts (score wm)))).
  { rewrite Pm, map_partId_idAndInstruments. exact Nc. }
  destruct (sortParts_loop_spec ids 0 wm ws Rm Nm Hs) as [_ [_ [_ [Ps _]]]].
  cbn [skipn] in Ps. rewrite Pm in Ps.
  change (parts (score (emit PartsChangedNotify
                          (emit PartsNotifierChanged (apply (removeEmptyExcerpts ws))))))
    with (parts (score ws)).
  split; [|split].
  - rewrite map_partId_idAndInstruments.
    apply (Permutation_NoDup (l := map fst (map idAndInstruments (parts (score wc)))));
      [|assumption].
    apply Permutation_map. now symmetry.
  - apply (Permutation_Forall (x := map idAndInstruments (parts (score wc))));
      [now symmetry | assumption].
  - intros x Hx. unfold ids in Hx. apply in_map_iff in Hx. destruct Hx as [i [<- Hi]].
    assert (Hsg : exists sg, In sg (map idAndInstruments (parts (score wc))) /\
                             In (instrument_id i) (map instrumentId (values (snd sg)))).
    { destruct (Vc i Hi) as [Hex1|Hsg]; [|exact Hsg].
      apply andb_true_iff in Hex1. destruct Hex1 as [_ Hc].
      apply contains_In in Hc. unfold allInstrumentsIds in Hc.
      apply in_flat_map in Hc. destruct Hc as [p [Hp Hxp]].
      rewrite instruments_all in Hxp.
      unfold partList in Hp. apply partList_loop_incl in Hp.
      unfold availableParts, scoreParts in Hp. fold (score wr) in Hp.
      assert (Hcase : In p (parts (score wr)) \/ In p (parts (score w))).
      { apply in_app_or in Hp. destruct Hp as [Hp|Hp]; [now left|]. right.
        unfold excerptParts in Hp. rewrite Cr, Er in Hp.
        rewrite Forall_forall in Hex. now apply Hex. }
      destruct Hcase as [Hp'|Hp'].
      - exists (idAndInstruments p). split; [|exact Hxp].
        apply Ic. now apply in_map.
      - unfold values in Hxp. rewrite map_map in Hxp. apply in_map_iff in Hxp.
        destruct Hxp as [e [Hxe He]].
        assert (Hpr : In e (prune ids (partInstruments p))).
        { apply filter_In. split; [assumption|]. rewrite Hxe. apply contains_In.
          unfold ids. now apply in_map. }
        destruct (allMissing ids p) eqn:Ha.
        + apply allMissing_prune in Ha. rewrite Ha in Hpr. contradiction.
        + exists (idAndInstruments (prunePart ids p)). split.
          * apply Ic. apply Sr. now exists p.
          * simpl. unfold values. rewrite map_map. apply in_map_iff. now exists e. }
    destruct Hsg as [sg [Hsg Hxs]].
    apply (Permutation_in (l' := map idAndInstruments (parts (score ws)))) in Hsg;
      [|now symmetry].
    apply in_map_iff in Hsg. destruct Hsg as [q [Hq Hin]].
    exists q. split; [assumption|]. now rewrite <- Hq in Hxs.
Qed.

(** X7.  What [setInstruments] leaves when it returns, in a well-formed
    world: the current score has as many parts as the list has entries, with
    distinct identifiers; every part has at least one instrument and only
    instruments of the list; every instrument of the list is carried by a
    part of the score; the score has a measure; and no excerpt is left whose
    part score has no staff. *)
Theorem setInstruments_postcondition (l : list Instrument) (w w1 : World) :
  wellFormed w ->
  setInstruments l w = Done w1 ->
  NoDup (map partId (parts (score w1))) /\
  List.length (parts (score w1)) = List.length l /\
  Forall (fun p => partInstruments p <> [] /\
                   Forall (fun e => In (instrumentId (snd e)) (map instrument_id l))
                     (partInstruments p))
    (parts (score w1)) /\
  Forall (fun x => exists p, In p (parts (score w1)) /\
                             In x (map instrumentId (values (partInstruments p))))
    (map instrument_id l) /\
  measures (score w1) <> [] /\
  Forall (fun e => scoreStaves (scoreAt (Excerpt_partScore e) w1) <> []) (excerpts w1).
Proof.
  intros Hwf H.
  destruct (setInstruments_score_parts (cleanEntry (map instrument_id l)) l w w1 Hwf H)
    as [Hn [Hc Hv]].
  { intros p _ Ha. now apply prune_clean. }
  { intros n i Hi. split; [discriminate|]. constructor; [|constructor].
    simpl. apply contains_In. now apply in_map. }
  destruct (setInstruments_settles l w w1 Hwf H) as [_ [_ [HC [HD [_ HE]]]]].
  split; [exact Hn|]. split; [now rewrite HD, length_map|]. split; [|split; [|split]].
  - apply Forall_forall. intros p Hp. rewrite Forall_forall in Hc.
    destruct (Hc (idAndInstruments p) (in_map _ _ _ Hp)) as [Hne Hall].
    split; [exact Hne|]. eapply Forall_impl; [|exact Hall].
    intros e He. now apply contains_In.
  - apply Forall_forall. exact Hv.
  - exact HC.
  - eapply Forall_impl; [|exact HE]. intros e He E. cbv beta in He. rewrite E in He.
    discriminate.
Qed.

Lemma setInstruments_postcondition_witness :
  NoDup (map partId (parts (score masterWorldSettled))) /\
  List.length (parts (score masterWorldSettled)) = List.length [violinSpec; violaSpec] /\
  Forall (fun p => partInstruments p <> [] /\
                   Forall (fun e => In (instrumentId (snd e))
                                      (map instrument_id [violinSpec; violaSpec]))
                     (partInstruments p))
    (parts (score masterWorldSettled)) /\
  Forall (fun x => exists p, In p (parts (score masterWorldSettled)) /\
                             In x (map instrumentId (values (partInstruments p))))
    (map instrument_id [violinSpec; violaSpec]) /\
  measures (score masterWorldSettled) <> [] /\
  Forall (fun e => scoreStaves (scoreAt (Excerpt_partScore e) masterWorldSettled) <> [])
    (excerpts masterWorldSettled).
Proof.
  apply (setInstruments_postcondition [violinSpec; violaSpec] masterWorld masterWorldSettled).
  - split; [simpl; lia|]. split; [|split].
    + repeat constructor; simpl; intuition discriminate.
    + repeat constructor; simpl; tauto.
    + repeat constructor; simpl; lia.
  - reflexivity.
Defined.

Lemma stable_exact (ids : IDList) :
  forall (i : nat) (M : IDList),
    stable i ids M ->
    List.length M = i + List.length ids ->
    NoDup (firstn i M ++ ids) ->
    (forall x, In x ids -> In x M) ->
    skipn i M = ids.
Proof.
  induction ids as [|x ids IH]; intros i M Hst Hlen Hnd Hin.
  - apply skipn_all2. simpl in Hlen. lia.
  - destruct Hst as [[m [Hm Hor]] Hst].
    destruct (nth_error_split _ _ Hm) as [l1 [l2 [-> Hl1]]]. subst i.
    rewrite firstn_length_app in Hnd. rewrite skipn_length_app in *.
    assert (Hx : m = x).
    { destruct Hor as [E|Hno]; [exact E|]. exfalso.
      specialize (Hin x (or_introl eq_refl)). apply in_app_or in Hin.
      destruct Hin as [Hin|Hin]; [|contradiction].
      apply NoDup_remove_2 in Hnd. apply Hnd. apply in_or_app. now left. }
    subst m. f_equal.
    assert (E : l1 ++ x :: l2 = (l1 ++ [x]) ++ l2) by now rewrite <- app_assoc.
    assert (Hl : S (List.length l1) = List.length (l1 ++ [x])).
    { rewrite length_app. simpl. lia. }
    specialize (IH (S (List.length l1)) (l1 ++ x :: l2) Hst).
    rewrite E, Hl, skipn_length_app, firstn_length_app in IH. apply IH.
    + rewrite <- E, <- Hl. simpl in Hlen. lia.
    + now rewrite <- app_assoc.
    + intros y Hy. rewrite <- E. apply Hin. now right.
Qed.

(** X8.  The order [setInstruments] leaves.  When the instruments of the list
    have distinct identifiers and no part of the score carries more than one
    instrument, each at the primary tick, the parts of the score, after
    [setInstruments] has returned, have as their main instruments the
    instruments of the list, in the order of the list. *)
Theorem setInstruments_orders_parts (l : list Instrument) (w w1 : World) :
  wellFormed w ->
  setInstruments l w = Done w1 ->
  NoDup (map instrument_id l) ->
  Forall (fun p => List.length (partInstruments p) <= 1) (parts (score w)) ->
  Forall (fun p => Forall (fun k => k = PRIMARY_TICK) (keys (partInstruments p)))
    (parts (score w)) ->
  map mainInstrumentId (parts (score w1)) = map instrument_id l.
Proof.
  intros Hwf H Hnd Hone Hprim.
  destruct (setInstruments_score_parts
              (fun sg => cleanEntry (map instrument_id l) sg /\
                         List.length (snd sg) <= 1 /\
                         Forall (fun k => k = PRIMARY_TICK) (keys (snd sg)))
              l w w1 Hwf H) as [_ [Hc Hv]].
  { intros p Hp Ha. split; [now apply prune_clean|]. simpl. split.
    - rewrite Forall_forall in Hone. specialize (Hone p Hp).
      pose proof (length_instrumentsToRemoveOf (map instrument_id l) p). lia.
    - rewrite Forall_forall in Hprim. specialize (Hprim p Hp).
      rewrite Forall_forall in Hprim. apply Forall_forall. intros k Hk.
      apply Hprim. unfold keys, prune in *. apply in_map_iff in Hk.
      destruct Hk as [e [<- He]]. apply filter_In in He. now apply in_map. }
  { intros n i Hi. split; [|split; [simpl; lia | repeat constructor]].
    split; [discriminate|].
    constructor; [|constructor]. simpl. apply contains_In. now apply in_map. }
  destruct (setInstruments_settles l w w1 Hwf H) as [_ [_ [_ [HD [HS _]]]]].
  apply (stable_exact (map instrument_id l) 0 (map mainInstrumentId (parts (score w1)))).
  - exact HS.
  - now rewrite length_map.
  - exact Hnd.
  - intros x Hx. destruct (Hv x Hx) as [p [Hp Hxp]].
    rewrite Forall_forall in Hc.
    destruct (Hc (idAndInstruments p) (in_map _ _ _ Hp)) as [[Hne _] [Hl1 Hk]].
    simpl in Hne, Hl1, Hk. apply in_map_iff. exists p. split; [|assumption].
    unfold mainInstrumentId, instrument.
    destruct (partInstruments p) as [|[t i] [|e m]]; simpl in *; try congruence; try lia.
    inversion Hk as [|? ? Ht _]; subst. simpl.
    destruct Hxp as [E|[]]. exact E.
Qed.

Lemma setInstruments_orders_parts_witness :
  map mainInstrumentId (parts (score masterWorldSettled)) =
  map instrument_id [violinSpec; violaSpec].
Proof.
  apply (setInstruments_orders_parts [violinSpec; violaSpec] masterWorld masterWorldSettled).
  - split; [simpl; lia|]. split; [|split].
    + repeat constructor; simpl; intuition discriminate.
    + repeat constructor; simpl; tauto.
    + repeat constructor; simpl; lia.
  - reflexivity.
  - repeat constructor; simpl; intuition discriminate.
  - repeat constructor; simpl; lia.
  - repeat constructor.
Defined.

(** ** Assigning an instrument and asking again *)

Lemma qmap_value_values {V : Type} (k : Fraction) (m : QMap V) (v : V) :
  qmap_value k m = Some v -> In v (values m).
Proof.
  induction m as [|[k1 v1] m IH]; simpl; [discriminate|].
  destruct (Z.eqb k k1); [intros H; injection H as ->; now left|].
  intros H. right. now apply IH.
Qed.

(** The annotations of one segment only write the key of the segment. *)
Lemma instrumentChangeElements_segment_other (pid : ID) (t k : Fraction)
  (l : list (option Element)) :
  k <> t ->
  forall result,
    qmap_value k
      (fold_left
         (fun result e =>
            match e with
            | None => result
            | Some el =>
                if negb (String.eqb (elPart el) pid) then result
                else match elKind el with
                     | InstrumentChangeKind _ _ => qmap_insert t el result
                     | _ => result
                     end
            end) l result) = qmap_value k result.
Proof.
  intros Hk. induction l as [|e l IH]; intros result; [reflexivity|].
  cbn [fold_left]. rewrite IH. destruct e as [el|]; [|reflexivity].
  destruct (negb (String.eqb (elPart el) pid)); [reflexivity|].
  destruct (elKind el); try reflexivity.
  rewrite qmap_value_insert. destruct (Z.eqb_spec k t); [contradiction | reflexivity].
Qed.

Lemma instrumentChangeElements_segment_last (pid : ID) (t : Fraction)
  (l : list (option Element)) (el : Element) (i : MsInstrument) (b : bool) :
  elPart el = pid ->
  elKind el = InstrumentChangeKind i b ->
  forall result,
    qmap_value t
      (fold_left
         (fun result e =>
            match e with
            | None => result
            | Some el =>
                if negb (String.eqb (elPart el) pid) then result
                else match elKind el with
                     | InstrumentChangeKind _ _ => qmap_insert t el result
                     | _ => result
                     end
            end) (l ++ [Some el]) result) = Some el.
Proof.
  intros Hp Hk result. rewrite fold_left_app. cbn [fold_left].
  rewrite Hp, String.eqb_refl, Hk. cbn [negb]. rewrite qmap_value_insert.
  now rewrite Z.eqb_refl.
Qed.

Lemma instrumentChangeElements_loop_other (pid : ID) (k : Fraction) (gs : list Segment) :
  ~ In k (map segTick gs) ->
  forall result,
    qmap_value k
      (fold_left
         (fun result g =>
            fold_left
              (fun result e =>
                 match e with
                 | None => result
                 | Some el =>
                     if negb (String.eqb (elPart el) pid) then result
                     else match elKind el with
                          | InstrumentChangeKind _ _ => qmap_insert (segTick g) el result
                          | _ => result
                          end
                 end) (annotations g) result) gs result) = qmap_value k result.
Proof.
  induction gs as [|g gs IH]; intros Hk result; [reflexivity|].
  cbn [fold_left]. rewrite IH by (simpl in Hk; tauto).
  apply instrumentChangeElements_segment_other. simpl in Hk. intros E. apply Hk. now left.
Qed.

Lemma addAnnotation_split (tick : Fraction) (el : Element) (gs : list Segment) :
  In tick (map segTick gs) ->
  exists g1 g g2,
    gs = g1 ++ g :: g2 /\ segTick g = tick /\
    addAnnotation tick el gs =
      g1 ++ set_annotations (annotations g ++ [Some el]) g :: g2.
Proof.
  induction gs as [|g gs IH]; simpl; [contradiction|].
  destruct (Z.eqb_spec (segTick g) tick) as [E|N].
  - intros _. exists [], g, gs. now repeat split.
  - intros [E|Hin]; [contradiction|].
    destruct (IH Hin) as [g1 [g0 [g2 [-> [Ht Ha]]]]].
    exists (g :: g1), g0, g2. rewrite Ha. now repeat split.
Qed.

Lemma map_segTick_addAnnotation (tick : Fraction) (el : Element) (gs : list Segment) :
  map segTick (addAnnotation tick el gs) = map segTick gs.
Proof.
  induction gs as [|g gs IH]; simpl; [reflexivity|].
  destruct (Z.eqb (segTick g) tick); simpl; [reflexivity | now rewrite IH].
Qed.

(** An InstrumentChange added at the tick of a segment is what
    [instrumentChangeElements] holds for that tick. *)
Lemma instrumentChangeElements_added (pid : ID) (tick : Fraction) (el : Element)
  (i : MsInstrument) (b : bool) (s : Score) :
  In tick (map segTick (segments s)) ->
  NoDup (map segTick (segments s)) ->
  elPart el = pid ->
  elKind el = InstrumentChangeKind i b ->
  qmap_value tick (instrumentChangeElements pid (undoAddElement tick el s)) = Some el.
Proof.
  intros Hin Hnd Hp Hk. unfold instrumentChangeElements, undoAddElement. simpl.
  destruct (addAnnotation_split tick el (segments s) Hin) as [g1 [g [g2 [Hs [Ht ->]]]]].
  rewrite fold_left_app. cbn [fold_left].
  rewrite instrumentChangeElements_loop_other.
  - cbn [annotations set_annotations segTick]. rewrite Ht.
    now apply (instrumentChangeElements_segment_last pid tick _ el i b).
  - rewrite Hs, map_app in Hnd. simpl in Hnd. apply NoDup_remove_2 in Hnd.
    intros H. apply Hnd. apply in_or_app. right. now rewrite Ht.
Qed.

Lemma segments_modifyPart (pid : ID) (f : Part -> Part) (w : World) :
  segments (score (modifyPart pid f w)) = segments (score w).
Proof.
  unfold modifyPart. destruct (hasPart pid (parts (score w))) eqn:E.
  - pose proof (hasPart_current_in_range _ _ E) as Hr.
    now rewrite score_modifyScore.
  - now destruct (isMaster w).
Qed.

Lemma in_range_modifyPart (pid : ID) (f : Part -> Part) (w : World) :
  current w < List.length (scores w) ->
  current (modifyPart pid f w) < List.length (scores (modifyPart pid f w)).
Proof.
  intros Hr. unfold modifyPart. destruct (hasPart pid (parts (score w))).
  - apply (frame_in_range w); [apply frame_modifyScore | assumption].
  - now destruct (isMaster w).
Qed.

(** X9.  Once [assignIstrumentToSelectedChord] has run with a chord
    selected, the instrument needs no chord any more.  In a score whose
    ChordRest segments have distinct ticks, one of them at the tick of the
    selected chord: after the call [needAssignInstrumentToChord] answers
    false for the instrument and the part of the chord, so
    [resolveCanChangeInstrumentVisibility] answers true whatever is
    selected. *)
Theorem assignIstrumentToSelectedChord_settles_need (i : MsInstrument) (w : World)
  (c : ChordRest) :
  selection (score w) = Some c ->
  In (crTick c) (map segTick (segments (score w))) ->
  NoDup (map segTick (segments (score w))) ->
  needAssignInstrumentToChord (instrumentId i) (crPart c)
    (assignIstrumentToSelectedChord i w) = false /\
  fst (resolveCanChangeInstrumentVisibility (instrumentId i) (crPart c)
         (assignIstrumentToSelectedChord i w)) = true.
Proof.
  intros Hsel Hin Hnd.
  assert (Hr : current w < List.length (scores w)).
  { destruct (Nat.lt_ge_cases (current w) (List.length (scores w))) as [L|G];
      [assumption|].
    unfold score in Hin. rewrite scoreAt_beyond in Hin by assumption. contradiction. }
  assert (Hneed : needAssignInstrumentToChord (instrumentId i) (crPart c)
                    (assignIstrumentToSelectedChord i w) = false).
  { unfold assignIstrumentToSelectedChord, selectedChord, getSelectedChordRest.
    fold (score w). rewrite Hsel.
    set (w0 := match error w with
               | NO_NOTE_REST_SELECTED => set_error MS_NO_ERROR w
               | _ => w
               end).
    assert (H0 : score w0 = score w /\ current w0 < List.length (scores w0)).
    { unfold w0. destruct (error w); now split. }
    destruct H0 as [S0 R0]. cbv zeta.
    set (w3 := modifyPart (crPart c) (Part_setInstrument i (crTick c))
                 (modifyPart (crPart c) (Part_removeInstrument (instrumentId i))
                    (startEdit w0))).
    assert (R3 : current w3 < List.length (scores w3)).
    { unfold w3. apply in_range_modifyPart. apply in_range_modifyPart. exact R0. }
    assert (S3 : segments (score w3) = segments (score w)).
    { unfold w3. rewrite !segments_modifyPart. now rewrite <- S0. }
    set (ic := mkElement (nextAddr w3) (crPart c) (crTrack c / VOICES * VOICES)
                 (InstrumentChangeKind i true)).
    set (w5 := modifyScore (undoAddElement (crTick c) ic)
                 (set_nextAddr (S (nextAddr w3)) w3)).
    assert (S5 : score w5 = undoAddElement (crTick c) ic (score w3)).
    { unfold w5. now rewrite score_modifyScore. }
    unfold needAssignInstrumentToChord. unfold apply. rewrite !part_emit.
    destruct (part (crPart c) w5) as [p|]; [|reflexivity].
    destruct (String.eqb (Part_instrumentId p) (instrumentId i)); [reflexivity|].
    change (score (emit PartsChangedNotify
                     (emit (PartNotifierItemChanged (crPart c) (instrumentId i))
                        (emit Apply w5)))) with (score w5).
    rewrite S5.
    assert (Hv : qmap_value (crTick c)
                   (instrumentChangeElements (crPart c)
                      (undoAddElement (crTick c) ic (score w3))) = Some ic).
    { apply (instrumentChangeElements_added (crPart c) (crTick c) ic i true);
        try reflexivity; now rewrite S3. }
    apply qmap_value_values in Hv.
    assert (Ex : existsb
                   (fun instrumentChange =>
                      match elKind instrumentChange with
                      | InstrumentChangeKind i0 _ =>
                          String.eqb (instrumentId i0) (instrumentId i)
                      | _ => false
                      end)
                   (values (instrumentChangeElements (crPart c)
                              (undoAddElement (crTick c) ic (score w3)))) = true).
    { apply existsb_exists. exists ic. split; [exact Hv|]. simpl.
      apply String.eqb_refl. }
    now rewrite Ex. }
  split; [exact Hneed|].
  unfold resolveCanChangeInstrumentVisibility. now rewrite Hneed.
Qed.

Lemma assignIstrumentToSelectedChord_settles_need_witness :
  needAssignInstrumentToChord (instrumentId viola) "Flute"
    (assignIstrumentToSelectedChord viola duoWorld) = false /\
  fst (resolveCanChangeInstrumentVisibility (instrumentId viola) "Flute"
         (assignIstrumentToSelectedChord viola duoWorld)) = true.
Proof.
  apply (assignIstrumentToSelectedChord_settles_need viola duoWorld
           (mkChordRest "Flute" 0%Z 4)).
  - reflexivity.
  - simpl. now left.
  - repeat constructor. simpl. tauto.
Defined.

(** ** Moving parts and staves *)

Lemma trace_doMoveStaves (l : list nat) (z : Z) (d : option ID) (w : World) :
  trace (doMoveStaves l z d w) = trace w.
Proof.
  unfold doMoveStaves.
  assert (G1 : forall (l1 : list nat) (w1 : World),
            trace (fold_left (fun w a => modifyScore (undoRemoveStaff a) w) l1 w1) =
            trace w1).
  { induction l1 as [|a l1 IH]; intros w1; [reflexivity|]. cbn [fold_left].
    now rewrite IH. }
  rewrite G1. clear G1. revert w z.
  induction l as [|a l IH]; intros w z; [reflexivity|]. cbn [fold_left].
  assert (H : exists w' z', doMoveStaves_clone d (w, z) a = (w', z') /\
                            trace w' = trace w).
  { unfold doMoveStaves_clone.
    destruct (findStaff a (score w)) as [st|]; [|now exists w, z].
    destruct (ownerOf a (parts (score w))) as [o|]; [|now exists w, z].
    eexists. eexists. split; [reflexivity|].
    now destruct (negb (staffLinked st)). }
  destruct H as [w' [z' [-> Ht]]]. now rewrite IH.
Qed.

Lemma trace_doMovePart (src dst : ID) (mode : InsertMode) (w : World) :
  trace (doMovePart src dst mode w) = trace w.
Proof.
  unfold doMovePart. destruct (part src w); [|reflexivity].
  destruct (part dst w); [|reflexivity]. cbv zeta.
  rewrite trace_modifyPart, trace_doMoveStaves. reflexivity.
Qed.

(** X10.  [moveParts] of one part in front of a part that comes before it
    in the score, in a score whose parts have distinct identifiers: the moved
    part takes the place of the destination, the parts between them shift by
    one, every part keeps its identifier and its instrument mapping, the
    measures stay, and the call is one transaction followed by the
    parts-changed notification. *)
Theorem moveParts_places_part_before (pre mid post : list Part) (cur P : Part) (w : World) :
  current w < List.length (scores w) ->
  NoDup (map partId (parts (score w))) ->
  parts (score w) = pre ++ cur :: mid ++ P :: post ->
  map idAndInstruments (parts (score (moveParts [partId P] (partId cur) Before w))) =
    map idAndInstruments (pre ++ P :: cur :: mid ++ post) /\
  measures (score (moveParts [partId P] (partId cur) Before w)) = measures (score w) /\
  trace (moveParts [partId P] (partId cur) Before w) =
    trace w ++ [StartEdit; Apply; PartsChangedNotify].
Proof.
  intros Hr Hnd Hps.
  destruct (doMovePart_spec pre mid post cur P (startEdit w) Hr Hnd Hps) as [_ [M S]].
  unfold moveParts. cbn [fold_left]. split; [exact S|]. split; [exact M|].
  unfold apply, emit, set_trace. cbn [trace]. rewrite trace_doMovePart.
  unfold startEdit, emit, set_trace. cbn [trace]. now rewrite <- !app_assoc.
Qed.

Lemma moveParts_places_part_before_witness :
  map idAndInstruments (parts (score (moveParts [partId partB] (partId partA) Before abWorld))) =
    map idAndInstruments ([] ++ partB :: partA :: [] ++ []) /\
  measures (score (moveParts [partId partB] (partId partA) Before abWorld)) =
    measures (score abWorld) /\
  trace (moveParts [partId partB] (partId partA) Before abWorld) =
    trace abWorld ++ [StartEdit; Apply; PartsChangedNotify].
Proof.
  apply (moveParts_places_part_before [] [] [] partA partB abWorld).
  - simpl. lia.
  - repeat constructor; simpl; intuition discriminate.
  - reflexivity.
Defined.

(** ** Where a part of the master score is inserted *)

Lemma resolvePartIndex_loop_spec (o : Z) (w : World) (l : list Part) :
  forall i,
    match resolvePartIndex_loop o w l i with
    | Some j =>
        exists k q,
          j = i + k /\
          Forall (fun q => (findMasterPartIndex (partId q) w < o)%Z) (firstn k l) /\
          nth_error l k = Some q /\
          (o <= findMasterPartIndex (partId q) w)%Z
    | None => Forall (fun q => (findMasterPartIndex (partId q) w < o)%Z) l
    end.
Proof.
  induction l as [|a l IH]; intros i; simpl; [constructor|].
  destruct (Z.ltb_spec (findMasterPartIndex (partId a) w) o) as [L|G].
  - specialize (IH (S i)).
    destruct (resolvePartIndex_loop o w l (S i)) as [j|].
    + destruct IH as [k [q [Hj [Hf [Hn Ho]]]]].
      exists (S k), q. split; [lia|]. split; [now constructor|]. now split.
    + now constructor.
  - exists 0, a. split; [lia|]. split; [constructor|]. now split.
Qed.

(** X12.  [resolvePartIndex] keeps the order of the master score: the index
    it gives for a part is at most the number of parts of the current score;
    every part of the current score before that index stands before the part
    in the master score; and the part at that index, if there is one, does
    not.  Without such a part the index is the end of the part list. *)
Theorem resolvePartIndex_keeps_master_order (p : Part) (w : World) :
  resolvePartIndex p w <= List.length (parts (score w)) /\
  Forall (fun q => (findMasterPartIndex (partId q) w < findMasterPartIndex (partId p) w)%Z)
    (firstn (resolvePartIndex p w) (parts (score w))) /\
  match nth_error (parts (score w)) (resolvePartIndex p w) with
  | Some q => (findMasterPartIndex (partId p) w <= findMasterPartIndex (partId q) w)%Z
  | None => resolvePartIndex p w = List.length (parts (score w))
  end.
Proof.
  unfold resolvePartIndex.
  pose proof (resolvePartIndex_loop_spec (findMasterPartIndex (partId p) w) w
                (parts (score w)) 0) as H.
  destruct (resolvePartIndex_loop (findMasterPartIndex (partId p) w) w (parts (score w)) 0)
    as [j|].
  - destruct H as [k [q [-> [Hf [Hn Ho]]]]]. simpl.
    split; [|split; [exact Hf|now rewrite Hn]].
    apply Nat.lt_le_incl. apply nth_error_Some. congruence.
  - split; [apply Nat.le_refl|]. split.
    + now rewrite firstn_all.
    + destruct (nth_error (parts (score w)) (List.length (parts (score w)))) eqn:E;
        [|reflexivity].
      exfalso. assert (Hlt : List.length (parts (score w)) < List.length (parts (score w))).
      { apply nth_error_Some. congruence. }
      lia.
Qed.

(** ** The sort phase on its own *)

Lemma sortParts_loop_total (ids : IDList) :
  forall (i : nat) (w : World),
    current w < List.length (scores w) ->
    NoDup (map partId (parts (score w))) ->
    i + List.length ids <= List.length (parts (score w)) ->
    exists ws, sortParts_loop i ids w = Done ws.
Proof.
  induction ids as [|iid rest IH]; intros i w Hr Hnd Hlen.
  - now exists w.
  - cbn [sortParts_loop]. cbn [List.length] in Hlen.
    destruct (nth_error (parts (score w)) i) as [cur|] eqn:Hn.
    2:{ apply nth_error_None in Hn. lia. }
    destruct (String.eqb (mainInstrumentId cur) iid) eqn:Em.
    + apply IH; [assumption | assumption | lia].
    + destruct (find (fun p => String.eqb (mainInstrumentId p) iid)
                  (skipn i (parts (score w)))) as [P|] eqn:Fd.
      * destruct (nth_error_split _ _ Hn) as [pre [tl_ [Hps Hl]]].
        assert (Hsk : skipn i (parts (score w)) = cur :: tl_).
        { rewrite Hps, <- Hl. apply skipn_length_app. }
        rewrite Hsk in Fd. simpl in Fd. rewrite Em in Fd.
        apply find_some in Fd. destruct Fd as [Hin _].
        apply in_split in Hin. destruct Hin as [mid [post ->]].
        destruct (doMovePart_spec pre mid post cur P w Hr Hnd Hps) as [Fm [_ Sm]].
        set (w2 := doMovePart (partId P) (partId cur) doMovePart_defaultMode w) in *.
        apply IH.
        -- now apply (frame_in_range w).
        -- rewrite map_partId_idAndInstruments, Sm, <- map_partId_idAndInstruments.
           apply (Permutation_NoDup (l := map partId (parts (score w)))); [|assumption].
           rewrite Hps. apply Permutation_map.
           change (pre ++ cur :: mid ++ P :: post) with (pre ++ (cur :: mid) ++ P :: post).
           change (pre ++ P :: cur :: mid ++ post) with (pre ++ P :: (cur :: mid) ++ post).
           apply Permutation_app_head. symmetry. apply Permutation_middle.
        -- rewrite <- (length_map idAndInstruments (parts (score w2))), Sm, length_map.
           rewrite Hps in Hlen. rewrite !length_app in *. cbn [List.length] in *.
           rewrite !length_app in *. cbn [List.length] in *. lia.
      * apply IH; [assumption | assumption | lia].
Qed.

(** X13.  [sortParts] on its own.  With as many identifiers as the current
    score has parts (and distinct part identifiers) it returns; the parts it
    leaves are the parts it found, with their identifiers and instrument
    mappings, in some order; the measures stay; and a second run on the
    result returns the result: the loop finds nothing more to move. *)
Theorem sortParts_returns_a_permutation (ids : IDList) (w : World) :
  current w < List.length (scores w) ->
  NoDup (map partId (parts (score w))) ->
  List.length (parts (score w)) = List.length ids ->
  exists ws,
    sortParts ids w = Done ws /\
    Permutation (map idAndInstruments (parts (score ws)))
                (map idAndInstruments (parts (score w))) /\
    measures (score ws) = measures (score w) /\
    sortParts ids ws = Done ws.
Proof.
  intros Hr Hnd Hlen. unfold sortParts. rewrite Hlen, Nat.eqb_refl.
  destruct (sortParts_loop_total ids 0 w Hr Hnd) as [ws Hs]; [simpl; lia|].
  exists ws. split; [exact Hs|].
  destruct (sortParts_loop_spec ids 0 w ws Hr Hnd Hs) as [_ [M [_ [P St]]]].
  split; [exact P|]. split; [exact M|].
  assert (Hl : List.length (parts (score ws)) = List.length ids).
  { rewrite <- Hlen. rewrite <- (length_map idAndInstruments (parts (score ws))).
    rewrite <- (length_map idAndInstruments (parts (score w))).
    now apply Permutation_length. }
  rewrite Hl, Nat.eqb_refl. now apply sortParts_loop_stable.
Qed.

Lemma sortParts_returns_a_permutation_witness :
  exists ws,
    sortParts ["flute"%string; "violin"%string] abWorld = Done ws /\
    Permutation (map idAndInstruments (parts (score ws)))
                (map idAndInstruments (parts (score abWorld))) /\
    measures (score ws) = measures (score abWorld) /\
    sortParts ["flute"%string; "violin"%string] ws = Done ws.
Proof.
  apply (sortParts_returns_a_permutation ["flute"%string; "violin"%string] abWorld).
  - simpl. lia.
  - repeat constructor; simpl; intuition discriminate.
  - reflexivity.
Defined.

(** ** Changing one staff *)

Lemma scoreStaves_modifyStaff (a : nat) (f : Staff -> Staff) (s : Score) :
  scoreStaves (modifyStaff a f s) =
  map (fun st => if Nat.eqb (staffAddr st) a then f st else st) (scoreStaves s).
Proof.
  unfold scoreStaves, modifyStaff. simpl.
  induction (parts s) as [|p ps IH]; simpl; [reflexivity|].
  now rewrite IH, map_app.
Qed.

Lemma find_map_same {A : Type} (P : A -> bool) (g : A -> A) (l : list A) :
  (forall x, P (g x) = P x) -> find P (map g l) = option_map g (find P l).
Proof.
  intros H. induction l as [|a l IH]; simpl; [reflexivity|].
  rewrite H. destruct (P a); [reflexivity | exact IH].
Qed.

Lemma staff_in_range (sid : ID) (w : World) (st : Staff) :
  staff sid w = Some st -> current w < List.length (scores w).
Proof.
  intros H. destruct (Nat.lt_ge_cases (current w) (List.length (scores w))) as [L|G];
    [assumption|].
  unfold staff, score in H. rewrite scoreAt_beyond in H by assumption. discriminate.
Qed.

Lemma ownerOf_modifyStaff (a b : nat) (f : Staff -> Staff) (s : Score) :
  (forall x, staffAddr (f x) = staffAddr x) ->
  ownerOf b (parts (modifyStaff a f s)) = ownerOf b (parts s).
Proof.
  intros Hf. unfold modifyStaff. simpl.
  induction (parts s) as [|p ps IH]; simpl; [reflexivity|]. rewrite IH.
  assert (E : existsb (fun st => Nat.eqb (staffAddr st) b)
                (map (fun st => if Nat.eqb (staffAddr st) a then f st else st)
                   (partStaves p)) =
              existsb (fun st => Nat.eqb (staffAddr st) b) (partStaves p)).
  { induction (partStaves p) as [|st l IHl]; simpl; [reflexivity|]. rewrite IHl.
    destruct (Nat.eqb (staffAddr st) a); [now rewrite Hf | reflexivity]. }
  now rewrite E.
Qed.

Lemma ownerOf_hasPart (a : nat) (ps : list Part) (o : ID) :
  ownerOf a ps = Some o -> hasPart o ps = true.
Proof.
  induction ps as [|p ps IH]; simpl; [discriminate|].
  destruct (existsb (fun st => Nat.eqb (staffAddr st) a) (partStaves p)).
  - intros H. injection H as <-. now rewrite String.eqb_refl.
  - intros H. rewrite (IH H). apply Bool.orb_true_r.
Qed.

(** The pattern of the staff setters: a change of the staff behind an
    identifier, through its pointer, and the notification about the staff. *)
Lemma staff_setter_spec (sid : ID) (f : Staff -> Staff) (w : World) (st : Staff) :
  staff sid w = Some st ->
  (forall x, staffId (f x) = staffId x) ->
  (forall x, staffAddr (f x) = staffAddr x) ->
  NoDup (map staffAddr (scoreStaves (score w))) ->
  staff sid (modifyScore (modifyStaff (staffAddr st) f) (startEdit w)) = Some (f st) /\
  (forall sid', sid' <> sid ->
     staff sid' (modifyScore (modifyStaff (staffAddr st) f) (startEdit w)) = staff sid' w) /\
  map idAndInstruments
    (parts (score (modifyScore (modifyStaff (staffAddr st) f) (startEdit w)))) =
    map idAndInstruments (parts (score w)) /\
  exists o p,
    ownerOf (staffAddr st) (parts (score w)) = Some o /\
    part o w = Some p /\
    notifyAboutStaffChanged sid
      (apply (modifyScore (modifyStaff (staffAddr st) f) (startEdit w))) =
    emit (InstrumentNotifierItemChanged o (Part_instrumentId p) sid)
      (apply (modifyScore (modifyStaff (staffAddr st) f) (startEdit w))).
Proof.
  intros Hst Hid Haddr Hnd.
  pose proof (staff_in_range sid w st Hst) as Hr.
  set (g := fun x => if Nat.eqb (staffAddr x) (staffAddr st) then f x else x).
  set (w1 := modifyScore (modifyStaff (staffAddr st) f) (startEdit w)).
  assert (S1 : score w1 = modifyStaff (staffAddr st) f (score w)).
  { unfold w1. now rewrite score_modifyScore. }
  assert (Hg : forall sid', staff sid' w1 = option_map g (staff sid' w)).
  { intros sid'. unfold staff, Score_staff. rewrite S1, scoreStaves_modifyStaff.
    apply find_map_same. intros x. unfold g.
    destruct (Nat.eqb (staffAddr x) (staffAddr st)); [now rewrite Hid | reflexivity]. }
  assert (H1 : staff sid w1 = Some (f st)).
  { rewrite Hg, Hst. simpl. unfold g. now rewrite Nat.eqb_refl. }
  destruct (staff_In sid w st Hst) as [Hin Hsid].
  split; [exact H1|]. split; [|split].
  - intros sid' Hne. rewrite Hg. destruct (staff sid' w) as [st'|] eqn:E; [|reflexivity].
    simpl. f_equal. unfold g.
    destruct (Nat.eqb_spec (staffAddr st') (staffAddr st)) as [Ea|]; [|reflexivity].
    exfalso. destruct (staff_In sid' w st' E) as [Hin' Hsid'].
    assert (st' = st) by now apply (NoDup_map_eq staffAddr (scoreStaves (score w))).
    subst st'. congruence.
  - rewrite S1. unfold modifyStaff. simpl. now apply idAndInstruments_map.
  - assert (Hfs : findStaff (staffAddr st) (score w) = Some st).
    { unfold findStaff. now apply find_by_addr. }
    destruct (findStaff_ownerOf _ _ _ Hfs) as [o Ho].
    pose proof (ownerOf_hasPart _ _ _ Ho) as Hh.
    apply hasPart_find in Hh. destruct Hh as [p Hp].
    exists o, p. split; [exact Ho|]. split.
    + rewrite part_unfold. now rewrite Hp.
    + unfold notifyAboutStaffChanged.
      change (staff sid (apply w1)) with (staff sid w1). rewrite H1.
      change (parts (score (apply w1))) with (parts (score w1)). rewrite S1.
      rewrite Haddr, ownerOf_modifyStaff by assumption. rewrite Ho.
      change (part o (apply w1)) with (part o w1).
      rewrite part_unfold, S1. unfold modifyStaff at 1. simpl.
      rewrite find_map_same by reflexivity. rewrite Hp. reflexivity.
Qed.

(** X14.  [setCutawayEnabled] on a staff that exists, in a score whose staff
    objects are distinct: the staff behind the identifier has the cutaway
    flag as asked and is otherwise unchanged; every other staff is what it
    was; no part loses or gains an instrument; and the call is one
    transaction, the notification about the staff to the notifier of its
    part's main instrument, and the parts-changed notification. *)
Theorem setCutawayEnabled_sets_the_flag (sid : ID) (enabled : bool) (w : World) (st : Staff) :
  staff sid w = Some st ->
  NoDup (map staffAddr (scoreStaves (score w))) ->
  staff sid (setCutawayEnabled sid enabled w) = Some (set_staffCutaway enabled st) /\
  (forall sid', sid' <> sid -> staff sid' (setCutawayEnabled sid enabled w) = staff sid' w) /\
  map idAndInstruments (parts (score (setCutawayEnabled sid enabled w))) =
    map idAndInstruments (parts (score w)) /\
  exists o p,
    ownerOf (staffAddr st) (parts (score w)) = Some o /\
    part o w = Some p /\
    trace (setCutawayEnabled sid enabled w) =
      trace w ++ [StartEdit; Apply;
                  InstrumentNotifierItemChanged o (Part_instrumentId p) sid;
                  PartsChangedNotify].
Proof.
  intros Hst Hnd.
  destruct (staff_setter_spec sid (set_staffCutaway enabled) w st Hst
              (fun _ => eq_refl) (fun _ => eq_refl) Hnd) as [H1 [H2 [H3 [o [p [Ho [Hp Hn]]]]]]].
  unfold setCutawayEnabled. rewrite Hst. cbv zeta. rewrite Hn.
  split; [exact H1|]. split; [exact H2|]. split; [exact H3|].
  exists o, p. split; [exact Ho|]. split; [exact Hp|].
  simpl. now rewrite <- !app_assoc.
Qed.

Lemma setCutawayEnabled_sets_the_flag_witness :
  staff "staff-2" (setCutawayEnabled "staff-2" true duoWorld) =
    Some (set_staffCutaway true (exampleStaff 2 "staff-2" [(0%Z, "e5"%string)])) /\
  (forall sid', sid' <> "staff-2"%string ->
                staff sid' (setCutawayEnabled "staff-2" true duoWorld) = staff sid' duoWorld) /\
  map idAndInstruments (parts (score (setCutawayEnabled "staff-2" true duoWorld))) =
    map idAndInstruments (parts (score duoWorld)) /\
  exists o p,
    ownerOf (staffAddr (exampleStaff 2 "staff-2" [(0%Z, "e5"%string)]))
      (parts (score duoWorld)) = Some o /\
    part o duoWorld = Some p /\
    trace (setCutawayEnabled "staff-2" true duoWorld) =
      trace duoWorld ++ [StartEdit; Apply;
                         InstrumentNotifierItemChanged o (Part_instrumentId p) "staff-2";
                         PartsChangedNotify].
Proof.
  apply (setCutawayEnabled_sets_the_flag "staff-2" true duoWorld
           (exampleStaff 2 "staff-2" [(0%Z, "e5"%string)])).
  - reflexivity.
  - repeat constructor; simpl; intuition discriminate.
Defined.

(** X15.  [setSmallStaff] on a staff that exists and has a staff type, in a
    score whose staff objects are distinct: the call returns; the staff
    behind the identifier has the small flag as asked and is otherwise
    unchanged; every other staff is what it was; and the call is one
    transaction, the notification about the staff to the notifier of its
    part's main instrument, and the parts-changed notification. *)
Theorem setSmallStaff_sets_the_flag (sid : ID) (smallStaff : bool) (w : World) (st : Staff)
  (t : StaffType) :
  staff sid w = Some st ->
  staffType st = Some t ->
  NoDup (map staffAddr (scoreStaves (score w))) ->
  exists w' o p,
    setSmallStaff sid smallStaff w = Done w' /\
    staff sid w' = Some (set_staffType (Some (mkStaffType smallStaff)) st) /\
    (forall sid', sid' <> sid -> staff sid' w' = staff sid' w) /\
    ownerOf (staffAddr st) (parts (score w)) = Some o /\
    part o w = Some p /\
    trace w' =
      trace w ++ [StartEdit; Apply;
                  InstrumentNotifierItemChanged o (Part_instrumentId p) sid;
                  PartsChangedNotify].
Proof.
  intros Hst Ht Hnd. unfold setSmallStaff. rewrite Hst, Ht. cbv zeta.
  destruct (staff_setter_spec sid (set_staffType (Some (mkStaffType smallStaff))) w st Hst
              (fun _ => eq_refl) (fun _ => eq_refl) Hnd)
    as [H1 [H2 [_ [o [p [Ho [Hp Hn]]]]]]].
  rewrite Hn. eexists. exists o, p. split; [reflexivity|].
  split; [exact H1|]. split; [exact H2|]. split; [exact Ho|]. split; [exact Hp|].
  simpl. now rewrite <- !app_assoc.
Qed.

Lemma setSmallStaff_sets_the_flag_witness :
  exists w' o p,
    setSmallStaff "staff-2" true duoWorld = Done w' /\
    staff "staff-2" w' =
      Some (set_staffType (Some (mkStaffType true))
              (exampleStaff 2 "staff-2" [(0%Z, "e5"%string)])) /\
    (forall sid', sid' <> "staff-2"%string -> staff sid' w' = staff sid' duoWorld) /\
    ownerOf (staffAddr (exampleStaff 2 "staff-2" [(0%Z, "e5"%string)]))
      (parts (score duoWorld)) = Some o /\
    part o duoWorld = Some p /\
    trace w' =
      trace duoWorld ++ [StartEdit; Apply;
                         InstrumentNotifierItemChanged o (Part_instrumentId p) "staff-2";
                         PartsChangedNotify].
Proof.
  apply (setSmallStaff_sets_the_flag "staff-2" true duoWorld
           (exampleStaff 2 "staff-2" [(0%Z, "e5"%string)]) (mkStaffType false)).
  - reflexivity.
  - reflexivity.
  - repeat constructor; simpl; intuition discriminate.
Defined.

(** ** Whether the visibility of an instrument can be changed *)

Lemma sameKey_refl (k : InstrumentKey) : sameKey k k = true.
Proof. unfold sameKey. now rewrite !String.eqb_refl. Qed.

(** X16.  [canChangeInstrumentVisibility] hands its two identifiers to
    [resolveCanChangeInstrumentVisibility] in the other order: the part is
    looked up under the identifier of the instrument.  So for a key that is
    not in the hash yet, whenever no part carries the identifier of the
    instrument as its own, the answer is true and the world is not touched;
    the answer is stored under the key, and every later call with that key
    answers true from the hash, whatever the world has become. *)
Theorem canChangeInstrumentVisibility_looks_up_the_instrument_as_part
  (iid pid : ID) (h : VisibilityHash) (w : World) :
  hashValue (pid, iid) h = None ->
  part iid w = None ->
  canChangeInstrumentVisibility iid pid h w = (true, ((pid, iid), true) :: h, w) /\
  forall w2,
    canChangeInstrumentVisibility iid pid (((pid, iid), true) :: h) w2 =
    (true, ((pid, iid), true) :: h, w2).
Proof.
  intros Hh Hp. split.
  - unfold canChangeInstrumentVisibility. rewrite Hh.
    unfold resolveCanChangeInstrumentVisibility, needAssignInstrumentToChord.
    now rewrite Hp.
  - intros w2. unfold canChangeInstrumentVisibility. cbn [hashValue].
    now rewrite sameKey_refl.
Qed.

Lemma canChangeInstrumentVisibility_looks_up_the_instrument_as_part_witness :
  (canChangeInstrumentVisibility "viola" "Violin" [] duoWorld =
     (true, [(("Violin"%string, "viola"%string), true)], duoWorld) /\
   forall w2,
     canChangeInstrumentVisibility "viola" "Violin"
       [(("Violin"%string, "viola"%string), true)] w2 =
     (true, [(("Violin"%string, "viola"%string), true)], w2)) /\
  fst (resolveCanChangeInstrumentVisibility "viola" "Violin" duoWorld) = false.
Proof.
  split.
  - apply (canChangeInstrumentVisibility_looks_up_the_instrument_as_part
             "viola" "Violin" [] duoWorld); reflexivity.
  - reflexivity.
Defined.

(** ** Showing and hiding a part of the score *)

Lemma set_partShow_same (p : Part) : set_partShow (partShow p) p = p.
Proof. now destruct p. Qed.

(** X17.  [setPartVisible] on a part that [part] finds: the call returns;
    the part has the visibility asked for and is otherwise unchanged; the
    other parts and all the staves are what they were; and the same call on
    the result changes nothing, not even the trace. *)
Theorem setPartVisible_of_a_listed_part (pid : ID) (visible : bool) (w : World) (p : Part) :
  part pid w = Some p ->
  exists w',
    setPartVisible pid visible w = Done w' /\
    part pid w' = Some (set_partShow visible p) /\
    (forall q, q <> pid -> part q w' = part q w) /\
    scoreStaves (score w') = scoreStaves (score w) /\
    setPartVisible pid visible w' = Done w'.
Proof.
  intros Hp.
  assert (Hid : partId p = pid).
  { unfold part, partIn in Hp. now apply find_partId in Hp. }
  unfold setPartVisible at 1. rewrite Hp.
  destruct (Bool.eqb (partShow p) visible) eqn:E.
  - apply Bool.eqb_prop in E. exists w. split; [reflexivity|].
    split; [now rewrite <- E, set_partShow_same|]. split; [reflexivity|].
    split; [reflexivity|]. unfold setPartVisible. rewrite Hp, E.
    now rewrite Bool.eqb_reflx.
  - cbv zeta. eexists. split; [reflexivity|].
    assert (H1 : part pid (modifyPart pid (set_partShow visible) (startEdit w)) =
                 Some (set_partShow visible p)).
    { apply part_modifyPart_same; [exact Hp | exact Hid]. }
    split; [exact H1|]. split; [|split].
    + intros q Hq. unfold apply. rewrite !part_emit.
      rewrite part_modifyPart_other by (congruence || reflexivity). reflexivity.
    + change (score (emit PartsChangedNotify
                       (emit (PartsNotifierItemChanged pid)
                          (apply (modifyPart pid (set_partShow visible) (startEdit w))))))
        with (score (modifyPart pid (set_partShow visible) (startEdit w))).
      now rewrite scoreStaves_modifyPart.
    + unfold setPartVisible. unfold apply at 1. rewrite !part_emit, H1. simpl.
      now rewrite Bool.eqb_reflx.
Qed.

Lemma setPartVisible_of_a_listed_part_witness :
  exists w',
    setPartVisible "Flute" false duoWorld = Done w' /\
    part "Flute" w' = Some (set_partShow false flutePart) /\
    (forall q, q <> "Flute"%string -> part q w' = part q duoWorld) /\
    scoreStaves (score w') = scoreStaves (score duoWorld) /\
    setPartVisible "Flute" false w' = Done w'.
Proof.
  apply (setPartVisible_of_a_listed_part "Flute" false duoWorld flutePart).
  reflexivity.
Defined.

Lemma NoDup_app_disjoint {A : Type} (l1 l2 : list A) (a : A) :
  NoDup (l1 ++ l2) -> In a l1 -> In a l2 -> False.
Proof.
  induction l1 as [|x l1 IH]; simpl; intros Hn H1 H2; [contradiction|].
  inversion Hn as [|? ? Hx Hn']; subst. destruct H1 as [->|H1].
  - apply Hx. apply in_or_app. now right.
  - now apply IH.
Qed.

Lemma staves_of_parts_disjoint (ps : list Part) :
  NoDup (map staffAddr (flat_map partStaves ps)) ->
  forall p q s t,
    In p ps -> In q ps -> partId p <> partId q ->
    In s (partStaves p) -> In t (partStaves q) -> staffAddr s <> staffAddr t.
Proof.
  induction ps as [|x ps IH]; simpl; intros Hn p q s t Hp Hq Hpq Hs Ht E;
    [contradiction|].
  rewrite map_app in Hn.
  assert (Hrest : forall r u, In r ps -> In u (partStaves r) ->
                              In (staffAddr u) (map staffAddr (flat_map partStaves ps))).
  { intros r u Hr Hu. apply in_map. apply in_flat_map. now exists r. }
  destruct Hp as [->|Hp], Hq as [->|Hq].
  - now apply Hpq.
  - apply (NoDup_app_disjoint _ _ (staffAddr s) Hn); [now apply in_map|].
    rewrite E. now apply (Hrest q).
  - apply (NoDup_app_disjoint _ _ (staffAddr t) Hn); [now apply in_map|].
    rewrite <- E. now apply (Hrest p).
  - apply NoDup_app_r in Hn. exact (IH Hn p q s t Hp Hq Hpq Hs Ht E).
Qed.

Lemma hideAmong_nil (b : bool) (p : Part) : hideAmong [] b p = p.
Proof.
  unfold hideAmong. cbn [existsb]. rewrite map_id. apply set_partStaves_same.
Qed.

Lemma hideAmong_cons (a : nat) (addrs : list nat) (b : bool) (p : Part) :
  hideAmong addrs b
    (set_partStaves
       (map (fun st => if Nat.eqb (staffAddr st) a then Staff_setInvisible b st else st)
          (partStaves p)) p) =
  hideAmong (a :: addrs) b p.
Proof.
  unfold hideAmong, set_partStaves. destruct p as [i n s m sts].
  cbn [partId partName partShow partInstruments partStaves]. f_equal.
  rewrite map_map. apply map_ext. intros st.
  cbn [existsb]. destruct (Nat.eqb (staffAddr st) a) eqn:Ea; cbn [orb].
  - destruct st as [sa si sv sc sy sb sl sn]. cbn [Staff_setInvisible staffAddr].
    now destruct (existsb (Nat.eqb sa) addrs).
  - reflexivity.
Qed.

Lemma doSetStaffVisible_fold (visible : bool) :
  forall (sts : list Staff) (w : World),
    current w < List.length (scores w) ->
    exists w',
      fold_left (fun w st => doSetStaffVisible (staffAddr st) visible w) sts w = w' /\
      frame w w' /\
      trace w' = trace w /\
      parts (score w') =
        map (hideAmong (map staffAddr sts) (negb visible)) (parts (score w)).
Proof.
  induction sts as [|st sts IH]; intros w Hr.
  - exists w. split; [reflexivity|]. split; [apply frame_refl|]. split; [reflexivity|].
    simpl. symmetry. apply map_unchanged. apply Forall_forall. intros p _.
    apply hideAmong_nil.
  - cbn [fold_left map].
    set (w1 := doSetStaffVisible (staffAddr st) visible w).
    assert (F1 : frame w w1) by apply frame_modifyScore.
    assert (R1 : current w1 < List.length (scores w1)) by now apply (frame_in_range w).
    assert (P1 : parts (score w1) =
                 map (fun p =>
                        set_partStaves
                          (map (fun s => if Nat.eqb (staffAddr s) (staffAddr st)
                                         then Staff_setInvisible (negb visible) s else s)
                             (partStaves p)) p) (parts (score w))).
    { unfold w1, doSetStaffVisible. now rewrite score_modifyScore. }
    destruct (IH w1 R1) as [w' [E [F [T P]]]].
    exists w'. split; [exact E|]. split; [now apply (frame_trans w w1)|].
    split; [exact T|].
    rewrite P, P1, map_map. apply map_ext. intros p. apply hideAmong_cons.
Qed.

Lemma hideAmong_own (b : bool) (p : Part) :
  hideAmong (map staffAddr (partStaves p)) b p = withStavesInvisible b p.
Proof.
  unfold hideAmong, withStavesInvisible. f_equal. apply map_ext_in. intros st Hst.
  replace (existsb (Nat.eqb (staffAddr st)) (map staffAddr (partStaves p))) with true;
    [reflexivity|].
  symmetry. apply existsb_exists. exists (staffAddr st).
  split; [now apply in_map | apply Nat.eqb_refl].
Qed.

Lemma hideAmong_foreign (b : bool) (p q : Part) :
  (forall s t, In s (partStaves p) -> In t (partStaves q) -> staffAddr s <> staffAddr t) ->
  hideAmong (map staffAddr (partStaves p)) b q = q.
Proof.
  intros Hd. unfold hideAmong.
  rewrite (map_unchanged _ (partStaves q)); [apply set_partStaves_same|].
  apply Forall_forall. intros t Ht.
  destruct (existsb (Nat.eqb (staffAddr t)) (map staffAddr (partStaves p))) eqn:Ex;
    [|reflexivity].
  apply existsb_exists in Ex. destruct Ex as [a [Ha Ea]].
  apply Nat.eqb_eq in Ea. apply in_map_iff in Ha. destruct Ha as [s [Hs Hin]].
  exfalso. apply (Hd s t Hin Ht). congruence.
Qed.

(** X18.  [setInstrumentVisible] never writes the visibility of the part it
    tests.  For a part of the current score whose visibility differs from the
    one asked for, and an instrument of it that needs no chord: every staff
    of the part, whatever its instrument, gets the invisible flag, the part
    itself and all other parts stay as they are, the call is one transaction
    followed by the notification for the instrument and by the parts-changed
    notification, and the opposite call on the result does nothing, so that
    it cannot bring the staves back. *)
Theorem setInstrumentVisible_flags_staves_only (iid pid : ID) (visible : bool) (w : World)
  (p : Part) (t : Fraction) (i : MsInstrument) :
  part pid w = Some p ->
  In p (parts (score w)) ->
  NoDup (map staffAddr (scoreStaves (score w))) ->
  partShow p = negb visible ->
  instrumentInfo iid (Some p) = Some (t, i) ->
  needAssignInstrumentToChord iid pid w = false ->
  part pid (setInstrumentVisible iid pid visible w) =
    Some (withStavesInvisible (negb visible) p) /\
  (forall q, q <> pid -> part q (setInstrumentVisible iid pid visible w) = part q w) /\
  trace (setInstrumentVisible iid pid visible w) =
    trace w ++ [StartEdit; Apply; PartNotifierItemChanged pid (instrumentId i);
                PartsChangedNotify] /\
  setInstrumentVisible iid pid (negb visible)
    (setInstrumentVisible iid pid visible w) =
  setInstrumentVisible iid pid visible w.
Proof.
  intros Hp Hin Hn Hshow Hi Hneed.
  assert (Hid : partId p = pid).
  { unfold part, partIn in Hp. now apply find_partId in Hp. }
  assert (Hr : current w < List.length (scores w)).
  { apply (hasPart_current_in_range pid). apply hasPart_In. rewrite <- Hid. now apply in_map. }
  destruct (doSetStaffVisible_fold visible (stavesOfPart p iid) (startEdit w) Hr)
    as [wf [E [F [T P]]]].
  assert (Hw : setInstrumentVisible iid pid visible w =
               emit PartsChangedNotify
                 (emit (PartNotifierItemChanged pid (instrumentId i)) (apply wf))).
  { unfold setInstrumentVisible. rewrite Hp, Hshow, Hi, Hneed.
    destruct visible; cbn [negb Bool.eqb]; now rewrite E. }
  assert (Hparts : forall q,
            part q (setInstrumentVisible iid pid visible w) =
            match find (fun x => String.eqb (partId x) q) (parts (score w)) with
            | Some x => Some (hideAmong (map staffAddr (partStaves p)) (negb visible) x)
            | None => find (fun x => String.eqb (partId x) q) (excerptParts (current w) w)
            end).
  { intros q. rewrite Hw.
    change (part q (emit PartsChangedNotify
                      (emit (PartNotifierItemChanged pid (instrumentId i)) (apply wf))))
      with (part q wf).
    rewrite part_unfold, P. change (parts (score (startEdit w))) with (parts (score w)).
    rewrite find_map_same by reflexivity.
    destruct (find (fun x => String.eqb (partId x) q) (parts (score w))); simpl;
      [reflexivity|].
    destruct F as [Fc [Fe _]]. unfold excerptParts. now rewrite Fc, Fe. }
  assert (Hfind : find (fun x => String.eqb (partId x) pid) (parts (score w)) = Some p).
  { rewrite part_unfold in Hp.
    destruct (find (fun x => String.eqb (partId x) pid) (parts (score w))) as [p0|] eqn:Ef;
      [exact Hp|].
    exfalso. apply (find_none _ _ Ef p) in Hin. rewrite Hid, String.eqb_refl in Hin.
    discriminate. }
  assert (Hnew : part pid (setInstrumentVisible iid pid visible w) =
                 Some (withStavesInvisible (negb visible) p)).
  { rewrite Hparts, Hfind. now rewrite hideAmong_own. }
  split; [exact Hnew|]. split; [|split].
  - intros q Hq. rewrite Hparts, (part_unfold q w).
    destruct (find (fun x => String.eqb (partId x) q) (parts (score w))) as [x|] eqn:Ex;
      [|reflexivity].
    f_equal. apply hideAmong_foreign. intros s u Hs Hu.
    apply find_some in Ex. destruct Ex as [Hx Hxq]. apply String.eqb_eq in Hxq.
    apply (staves_of_parts_disjoint (parts (score w)) Hn p x s u Hin Hx); try assumption.
    congruence.
  - rewrite Hw. unfold apply. unfold emit at 1 2 3. unfold set_trace. cbn [trace].
    rewrite T. unfold startEdit, emit, set_trace. cbn [trace].
    now rewrite <- !app_assoc.
  - unfold setInstrumentVisible at 1. rewrite Hnew.
    unfold withStavesInvisible. destruct p as [a b c d e]. simpl in *. subst c.
    now rewrite Bool.eqb_reflx.
Qed.

Lemma setInstrumentVisible_flags_staves_only_witness :
  part "Flute" (setInstrumentVisible "flute" "Flute" false duoWorld) =
    Some (withStavesInvisible true flutePart) /\
  setInstrumentVisible "flute" "Flute" true
    (setInstrumentVisible "flute" "Flute" false duoWorld) =
  setInstrumentVisible "flute" "Flute" false duoWorld.
Proof.
  assert (Hn : NoDup (map staffAddr (scoreStaves (score duoWorld)))).
  { simpl. repeat constructor; simpl; intuition discriminate. }
  destruct (setInstrumentVisible_flags_staves_only "flute" "Flute" false duoWorld
              flutePart 0%Z flute eq_refl (or_intror (or_introl eq_refl)) Hn eq_refl
              eq_refl eq_refl) as [H1 [_ [_ H4]]].
  split; [exact H1 | exact H4].
Defined.

Lemma keepsLayout_refl (w : World) : keepsLayout w w.
Proof. repeat split. Qed.

Lemma keepsLayout_trans (w1 w2 w3 : World) :
  keepsLayout w1 w2 -> keepsLayout w2 w3 -> keepsLayout w1 w3.
Proof.
  intros [C1 [L1 [O1 [P1 [M1 E1]]]]] [C2 [L2 [O2 [P2 [M2 E2]]]]].
  split; [congruence|]. split; [congruence|]. split.
  - intros k Hk. rewrite O2 by congruence. now apply O1.
  - split; [congruence|]. split; congruence.
Qed.

Lemma keepsLayout_emit (e : Event) (w : World) : keepsLayout w (emit e w).
Proof. repeat split. Qed.

Lemma keepsLayout_set_nextAddr (n : nat) (w : World) : keepsLayout w (set_nextAddr n w).
Proof. repeat split. Qed.

Lemma keepsLayout_set_error (e : MsError) (w : World) : keepsLayout w (set_error e w).
Proof. repeat split. Qed.

Lemma keepsLayout_modifyScore (f : Score -> Score) (w : World) :
  (forall s, map layoutOf (parts (f s)) = map layoutOf (parts s) /\
             measures (f s) = measures s) ->
  keepsLayout w (modifyScore f w).
Proof.
  intros Hf. destruct (frame_modifyScore f w) as [C [E [L O]]].
  destruct (Nat.lt_ge_cases (current w) (List.length (scores w))) as [Hr|Hr].
  - split; [exact C|]. split; [exact L|]. split; [exact O|].
    rewrite score_modifyScore by assumption.
    split; [apply Hf|]. split; [apply Hf | now rewrite E].
  - unfold modifyScore. rewrite modifyScoreAt_beyond by assumption.
    apply keepsLayout_refl.
Qed.

Lemma layoutOf_modifyFirst (pid : ID) (f : Part -> Part) (ps : list Part) :
  (forall p, layoutOf (f p) = layoutOf p) ->
  map layoutOf (modifyFirst pid f ps) = map layoutOf ps.
Proof.
  intros Hf. induction ps as [|q ps IH]; simpl; [reflexivity|].
  destruct (String.eqb (partId q) pid); simpl; [now rewrite Hf | now rewrite IH].
Qed.

Lemma excerptLayout_modifyFirstExcerpt (pid : ID) (f : Part -> Part) (es : list Excerpt) :
  (forall p, layoutOf (f p) = layoutOf p) ->
  map excerptLayout (modifyFirstExcerpt pid f es) = map excerptLayout es.
Proof.
  intros Hf. induction es as [|e es IH]; simpl; [reflexivity|].
  destruct (hasPart pid (Excerpt_parts e)); simpl; [|now rewrite IH].
  unfold excerptLayout at 1 3. simpl. now rewrite layoutOf_modifyFirst.
Qed.

Lemma keepsLayout_modifyPart (pid : ID) (f : Part -> Part) (w : World) :
  (forall p, layoutOf (f p) = layoutOf p) ->
  keepsLayout w (modifyPart pid f w).
Proof.
  intros Hf. unfold modifyPart.
  destruct (hasPart pid (parts (score w))).
  - apply keepsLayout_modifyScore. intros s. simpl.
    split; [now apply layoutOf_modifyFirst | reflexivity].
  - destruct (isMaster w); [|apply keepsLayout_refl].
    repeat split. simpl. now apply excerptLayout_modifyFirstExcerpt.
Qed.

Lemma keepsLayout_fold {A : Type} (step : World -> A -> World) :
  (forall w x, keepsLayout w (step w x)) ->
  forall l w, keepsLayout w (fold_left step l w).
Proof.
  intros Hs. induction l as [|x l IH]; intros w; simpl; [apply keepsLayout_refl|].
  apply (keepsLayout_trans w (step w x)); [apply Hs | apply IH].
Qed.

Lemma keepsLayout_renamePart (pid : ID) (w : World) : keepsLayout w (renamePart pid w).
Proof.
  unfold renamePart, doSetPartName. destruct (part pid w); [|apply keepsLayout_refl].
  now apply keepsLayout_modifyPart.
Qed.

Lemma keepsLayout_undoAddElement (t : Fraction) (e : Element) (w : World) :
  keepsLayout w (modifyScore (undoAddElement t e) w).
Proof. apply keepsLayout_modifyScore. intros s. now split. Qed.

Lemma keepsLayout_undoRemoveElement (a : nat) (w : World) :
  keepsLayout w (modifyScore (undoRemoveElement a) w).
Proof. apply keepsLayout_modifyScore. intros s. now split. Qed.

Lemma keepsLayout_setInstrument (pid : ID) (i : MsInstrument) (t : Fraction) (w : World) :
  keepsLayout w (modifyPart pid (Part_setInstrument i t) w).
Proof. now apply keepsLayout_modifyPart. Qed.

Lemma keepsLayout_removeInstrument (pid iid : ID) (w : World) :
  keepsLayout w (modifyPart pid (Part_removeInstrument iid) w).
Proof. now apply keepsLayout_modifyPart. Qed.

Create HintDb layout.
#[local] Hint Resolve keepsLayout_refl keepsLayout_emit keepsLayout_set_nextAddr
  keepsLayout_set_error keepsLayout_renamePart keepsLayout_undoAddElement
  keepsLayout_undoRemoveElement keepsLayout_setInstrument
  keepsLayout_removeInstrument : layout.

(** One step back along a sequence of operations: the last operation keeps
    the layout, what remains is the sequence before it. *)
Ltac layout_step :=
  eapply keepsLayout_trans; [|solve [auto with layout]].

Lemma keepsLayout_doRemoveInstruments (ids : IDList) (pid : ID) (w : World) :
  keepsLayout w (doRemoveInstruments ids pid w).
Proof.
  unfold doRemoveInstruments. generalize (instrumentChangeElements pid (score w)).
  intros m. apply keepsLayout_fold. intros w0 iid.
  destruct (instrumentInfo iid (part pid w0)) as [[t i]|]; [|apply keepsLayout_refl].
  layout_step. destruct (qmap_value t m); auto with layout.
Qed.

Lemma keepsLayout_doInsertInstruments (m : QMap MsInstrument) (pid y : ID)
  (mode : InsertMode) (w : World) :
  keepsLayout w (doInsertInstruments m pid y mode w).
Proof.
  unfold doInsertInstruments. destruct (part pid w) as [d|]; [|apply keepsLayout_refl].
  cbv zeta. layout_step.
  match goal with
  | |- keepsLayout _ (fold_left _ _ ?w1) => apply (keepsLayout_trans w w1)
  end.
  - match goal with |- context [if ?c then _ else _] => destruct c end;
      auto with layout.
  - match goal with
    | |- keepsLayout ?w1 (fold_left _ _ ?w1) => generalize w1
    end.
    intros w1. generalize (instrumentChangeElements pid (score w1)).
    intros ice. apply keepsLayout_fold. intros w0 [i t].
    unfold doInsertInstruments_assign.
    destruct (qmap_value t ice) as [ic|].
    + repeat layout_step. auto with layout.
    + destruct (chordRest t pid (score w0)) as [c|].
      * repeat layout_step. auto with layout.
      * layout_step. auto with layout.
Qed.

Lemma keepsLayout_notifyAboutInstrumentsChanged (pid : ID) (w : World) :
  keepsLayout w (notifyAboutInstrumentsChanged pid w).
Proof.
  unfold notifyAboutInstrumentsChanged. destruct (part pid w); [|apply keepsLayout_refl].
  apply keepsLayout_fold. intros w0 i. apply keepsLayout_emit.
Qed.

Lemma keepsLayout_staves (w w' : World) :
  keepsLayout w w' -> scoreStaves (score w') = scoreStaves (score w).
Proof.
  intros [_ [_ [_ [P _]]]]. unfold scoreStaves.
  rewrite !flat_map_concat_map.
  replace (map partStaves (parts (score w')))
    with (map snd (map layoutOf (parts (score w')))) by (rewrite map_map; reflexivity).
  rewrite P, map_map. reflexivity.
Qed.

#[local] Hint Resolve keepsLayout_doRemoveInstruments keepsLayout_doInsertInstruments
  keepsLayout_notifyAboutInstrumentsChanged : layout.

Lemma keepsLayout_selectedChord (w : World) : keepsLayout w (snd (selectedChord w)).
Proof.
  unfold selectedChord, getSelectedChordRest.
  destruct (selection (scoreAt (current w) w)); simpl.
  - destruct (error w); auto with layout.
  - repeat split.
Qed.

(** X19.  The operations on instruments work on names and instruments only.
    Whatever their arguments, [moveInstruments], [removeInstruments],
    [appendDoublingInstrument] and [assignIstrumentToSelectedChord] leave the
    parts of the score in their order with their identifiers, visibility and
    staves, and the measures; the excerpts keep their parts in the same
    layout; and the other scores of the store are not touched.  So the staves
    of the score are the same after a move of instruments. *)
Theorem instrument_operations_keep_layout (w : World) :
  (forall ids a b y mode, keepsLayout w (moveInstruments ids a b y mode w)) /\
  (forall ids a, keepsLayout w (removeInstruments ids a w)) /\
  (forall i a, keepsLayout w (appendDoublingInstrument i a w)) /\
  (forall i, keepsLayout w (assignIstrumentToSelectedChord i w)) /\
  (forall ids a b y mode,
     scoreStaves (score (moveInstruments ids a b y mode w)) = scoreStaves (score w)).
Proof.
  assert (H : forall ids a b y mode, keepsLayout w (moveInstruments ids a b y mode w)).
  { intros ids a b y mode. unfold moveInstruments.
    destruct (part a w) as [A|]; [|apply keepsLayout_refl].
    destruct (part b w) as [B|]; [|apply keepsLayout_refl].
    cbv zeta. unfold apply, startEdit.
    destruct (String.eqb a b); cbn [negb]; repeat layout_step; auto with layout. }
  split; [exact H|]. split; [|split; [|split]].
  - intros ids a. unfold removeInstruments.
    destruct (part a w); [|apply keepsLayout_refl].
    cbv zeta. unfold apply, startEdit. repeat layout_step. auto with layout.
  - intros i a. unfold appendDoublingInstrument.
    destruct (part a w); [|apply keepsLayout_refl].
    cbv zeta. unfold apply, startEdit. repeat layout_step. auto with layout.
  - intros i. unfold assignIstrumentToSelectedChord.
    pose proof (keepsLayout_selectedChord w) as Hs.
    destruct (selectedChord w) as [[c|] w0]; simpl in Hs; [|exact Hs].
    cbv zeta. unfold apply, startEdit. repeat layout_step. exact Hs.
  - intros ids a b y mode. apply keepsLayout_staves. apply H.
Qed.

(** ** When [setInstruments] returns *)

Lemma length_filter_split {A : Type} (f : A -> bool) (l : list A) :
  List.length (filter f l) + List.length (filter (fun x => negb (f x)) l) = List.length l.
Proof.
  induction l as [|x l IH]; simpl; [reflexivity|].
  destruct (f x); simpl; lia.
Qed.

Lemma length_filter_present (K L : IDList) :
  NoDup K -> NoDup L -> incl K L ->
  List.length (filter (contains K) L) = List.length K.
Proof.
  intros HK HL Hi. apply Permutation_length. apply NoDup_Permutation.
  - now apply NoDup_filter.
  - exact HK.
  - intros x. rewrite filter_In, contains_In. split; [tauto|].
    intros Hx. split; [now apply Hi | exact Hx].
Qed.

Lemma length_flat_map_singletons {A B : Type} (f : A -> list B) (l : list A) :
  Forall (fun x => List.length (f x) = 1) l ->
  List.length (flat_map f l) = List.length l.
Proof.
  induction 1 as [|x l Hx _ IH]; simpl; [reflexivity|].
  rewrite length_app. lia.
Qed.

Lemma NoDup_flat_map_filter {A B : Type} (f : A -> list B) (g : A -> bool) (l : list A) :
  NoDup (flat_map f l) -> NoDup (flat_map f (filter g l)).
Proof.
  induction l as [|x l IH]; simpl; intros Hn; [constructor|].
  pose proof (NoDup_app_l _ _ Hn) as H1. pose proof (NoDup_app_r _ _ Hn) as H2.
  destruct (g x); simpl; [|now apply IH].
  apply NoDup_app; [assumption | now apply IH|].
  intros a Ha Hb. apply (NoDup_app_disjoint _ _ a Hn Ha).
  apply in_flat_map in Hb. destruct Hb as [y [Hy Hay]].
  apply in_flat_map. exists y. split; [|assumption].
  apply filter_In in Hy. tauto.
Qed.

Lemma partList_loop_keeps (ex : list Part) :
  forall (ps : list Part) (seen : IDList),
    NoDup (map partId ps) ->
    (forall p, In p ps -> ~ In (partId p) seen) ->
    incl ps (partList_loop seen (ps ++ ex)).
Proof.
  induction ps as [|p ps IH]; intros seen Hn Hs q Hq; [contradiction|].
  simpl. inversion Hn as [|? ? Hp Hn']; subst.
  replace (contains seen (partId p)) with false
    by (symmetry; apply contains_false; apply Hs; now left).
  destruct Hq as [->|Hq]; [now left|]. right.
  apply IH; [assumption| |assumption].
  intros r Hr [E|Hin].
  - apply Hp. rewrite E. now apply in_map.
  - apply (Hs r); [now right | assumption].
Qed.

Lemma length_setInstruments_create_fold (E : IDList) :
  forall (l : list Instrument) (w : World),
    current w < List.length (scores w) ->
    List.length (parts (score (fold_left (setInstruments_create E) l w))) =
    List.length (parts (score w)) +
    List.length
      (filter (fun i => negb (negb (isEmpty E) && contains E (instrument_id i))) l).
Proof.
  induction l as [|i l IH]; intros w Hr; [simpl; lia|].
  cbn [fold_left filter].
  destruct (setInstruments_create_spec E w i Hr) as [F [[Hflag Hw]|[_ Hperm]]].
  - rewrite Hw, Hflag. cbn [negb]. now apply IH.
  - rewrite IH by now apply (frame_in_range w).
    apply Permutation_length in Hperm. cbn [List.length] in Hperm.
    rewrite !length_map in Hperm. rewrite Hperm.
    destruct (negb (isEmpty E) && contains E (instrument_id i)) eqn:Hflag; cbn [negb].
    + exfalso. unfold setInstruments_create in Hperm. rewrite Hflag in Hperm. lia.
    + cbn [List.length]. lia.
Qed.

(** A part with at most one instrument comes out of the removal phase as it
    went in, or not at all. *)
Lemma single_instrument_kept (ids : IDList) (p : Part) :
  List.length (partInstruments p) <= 1 ->
  allMissing ids p = false ->
  prunePart ids p = p /\
  List.length (partInstruments p) = 1 /\
  Forall (fun x => In x ids) (map instrumentId (values (partInstruments p))).
Proof.
  intros Hlen Ha.
  assert (Hne : prune ids (partInstruments p) <> []).
  { intros E. apply allMissing_prune in E. congruence. }
  unfold prunePart. destruct (partInstruments p) as [|e [|e' m]] eqn:Ep.
  - now elim Hne.
  - unfold prune in *. cbn [filter] in *.
    destruct (contains ids (instrumentId (snd e))) eqn:Hc; [|now elim Hne].
    split; [|split; [reflexivity|]].
    + rewrite <- Ep. apply set_partInstruments_same.
    + repeat constructor. now apply contains_In.
  - simpl in Hlen. lia.
Qed.

(** X20.  [setInstruments] returns, that is, the size assertion of
    [sortParts] holds, in a well-formed world whenever the identifiers of
    the list are distinct, no part of the score carries more than one
    instrument and no instrument is carried by two parts. *)
Theorem setInstruments_returns (l : list Instrument) (w : World) :
  wellFormed w ->
  NoDup (map instrument_id l) ->
  Forall (fun p => List.length (partInstruments p) <= 1) (parts (score w)) ->
  NoDup (flat_map (fun p => map instrumentId (values (partInstruments p)))
           (parts (score w))) ->
  exists w1, setInstruments l w = Done w1.
Proof.
  intros Hwf Hnl Hone Hnd. set (ids := map instrument_id l) in *.
  assert (Hwf0 : wellFormed (startEdit w)) by exact Hwf.
  destruct (removeMissingInstruments_spec ids (startEdit w) Hwf0) as [SR [_ [PR _]]].
  destruct Hwf as [Hr [Hall [Hex Hfresh]]].
  pose proof (distinctIds_wellFormed w Hall) as Hd.
  assert (Hn0 : NoDup (map partId (parts (score w)))) by apply Hd.
  unfold setInstruments. fold ids.
  set (wr := removeMissingInstruments ids (startEdit w)) in *.
  change (parts (score (startEdit w))) with (parts (score w)) in *.
  destruct SR as [Cr [Er [Nr Lr]]].
  change (current (startEdit w)) with (current w) in Cr.
  change (excerpts (startEdit w)) with (excerpts w) in Er.
  change (nextAddr (startEdit w)) with (nextAddr w) in Nr.
  change (List.length (scores (startEdit w))) with (List.length (scores w)) in Lr.
  assert (Rr : current wr < List.length (scores wr)) by now rewrite Cr, Lr.
  set (kept := filter (fun p => negb (allMissing ids p)) (parts (score w))) in *.
  assert (Hkept : forall p, In p kept ->
            In p (parts (score w)) /\ prunePart ids p = p /\
            List.length (partInstruments p) = 1 /\
            Forall (fun x => In x ids) (map instrumentId (values (partInstruments p)))).
  { intros p Hp. apply filter_In in Hp. destruct Hp as [Hp Ha].
    split; [assumption|]. apply single_instrument_kept.
    - rewrite Forall_forall in Hone. now apply Hone.
    - now destruct (allMissing ids p). }
  assert (PR' : parts (score wr) = kept).
  { rewrite PR. apply map_unchanged. apply Forall_forall. intros p Hp.
    now apply Hkept. }
  set (K := flat_map (fun p => map instrumentId (values (partInstruments p))) kept).
  assert (HK1 : List.length K = List.length kept).
  { apply length_flat_map_singletons. apply Forall_forall. intros p Hp.
    unfold values. rewrite !length_map. now apply Hkept. }
  assert (HK2 : NoDup K) by now apply NoDup_flat_map_filter.
  assert (HK3 : incl K ids).
  { intros x Hx. apply in_flat_map in Hx. destruct Hx as [p [Hp Hx]].
    destruct (Hkept p Hp) as [_ [_ [_ Hf]]]. rewrite Forall_forall in Hf.
    now apply Hf. }
  assert (Nk : NoDup (map partId kept)) by now apply (filter_map_NoDup partId).
  set (E := allInstrumentsIds wr).
  assert (HE : forall x, In x ids -> contains E x = contains K x).
  { intros x Hx. destruct (contains K x) eqn:Hc.
    - apply contains_In in Hc. apply contains_In.
      apply in_flat_map in Hc. destruct Hc as [p [Hp Hxp]].
      unfold E, allInstrumentsIds. apply in_flat_map. exists p.
      split; [|now rewrite instruments_all].
      unfold partList, availableParts, scoreParts. fold (score wr). rewrite PR'.
      apply partList_loop_keeps; [assumption | intros ? _ [] | assumption].
    - apply contains_false in Hc. apply contains_false. intros Hin. apply Hc.
      unfold E, allInstrumentsIds in Hin. apply in_flat_map in Hin.
      destruct Hin as [p [Hp Hxp]]. rewrite instruments_all in Hxp.
      unfold partList in Hp. apply partList_loop_incl in Hp.
      unfold availableParts, scoreParts in Hp. fold (score wr) in Hp.
      assert (Hp0 : In p kept \/ In p (parts (score w))).
      { apply in_app_or in Hp. destruct Hp as [Hp|Hp]; [left; now rewrite <- PR'|].
        right. unfold excerptParts in Hp. rewrite Cr, Er in Hp.
        rewrite Forall_forall in Hex. now apply Hex. }
      apply in_flat_map. exists p. split; [|assumption].
      destruct Hp0 as [Hp0|Hp0]; [assumption|].
      apply filter_In. split; [assumption|].
      destruct (allMissing ids p) eqn:Ha; [|reflexivity]. exfalso.
      apply allMissing_prune in Ha.
      unfold values in Hxp. rewrite map_map in Hxp. apply in_map_iff in Hxp.
      destruct Hxp as [e [Hxe He]].
      assert (Hpr : In e (prune ids (partInstruments p))).
      { apply filter_In. split; [assumption|]. rewrite Hxe. now apply contains_In. }
      rewrite Ha in Hpr. contradiction. }
  assert (Hflag : forall i, In i l ->
            negb (negb (isEmpty E) && contains E (instrument_id i)) =
            negb (contains K (instrument_id i))).
  { intros i Hi. f_equal. rewrite <- (HE (instrument_id i)) by now apply in_map.
    destruct (contains E (instrument_id i)) eqn:Hc; [|apply andb_false_r].
    apply contains_In in Hc. destruct E; [contradiction | reflexivity]. }
  assert (Nr' : NoDup (map fst (map idAndInstruments (parts (score wr))))).
  { rewrite <- map_partId_idAndInstruments, PR'. exact Nk. }
  assert (Fr' : Forall (fun sg => String.length (fst sg) <= nextAddr wr)
                  (map idAndInstruments (parts (score wr)))).
  { apply Forall_forall. intros sg Hsg. rewrite PR' in Hsg.
    apply in_map_iff in Hsg. destruct Hsg as [p [<- Hp]]. simpl. rewrite Nr.
    rewrite Forall_forall in Hfresh. apply Hfresh. now apply Hkept. }
  assert (Cr' : Forall (cleanEntry ids) (map idAndInstruments (parts (score wr)))).
  { apply Forall_forall. intros sg Hsg. rewrite PR' in Hsg.
    apply in_map_iff in Hsg. destruct Hsg as [p [<- Hp]].
    destruct (Hkept p Hp) as [_ [Hpp _]]. rewrite <- Hpp. apply prune_clean.
    apply filter_In in Hp. destruct Hp as [_ Ha]. now destruct (allMissing ids p). }
  destruct (setInstruments_create_fold E ids l wr Rr Nr' Fr' Cr'
              (fun i Hi => in_map instrument_id l i Hi)) as [Fc [Nc _]].
  pose proof (length_setInstruments_create_fold E l wr Rr) as Lc.
  set (wc := fold_left (setInstruments_create E) l wr) in *.
  assert (Rc : current wc < List.length (scores wc)) by now apply (frame_in_range wr).
  assert (Hlen : List.length (parts (score wc)) = List.length ids).
  { rewrite Lc, PR', <- HK1.
    rewrite (filter_ext_in _ (fun i => negb (contains K (instrument_id i))) l Hflag).
    rewrite <- (length_filter_present K ids HK2 Hnl HK3).
    unfold ids at 1. rewrite filter_map_comm, length_map.
    unfold ids. rewrite length_map. apply length_filter_split. }
  set (wm := if isEmpty (measures (score wc)) then modifyScore insertMeasure wc else wc).
  assert (Hm : frame wc wm /\ parts (score wm) = parts (score wc)).
  { unfold wm. destruct (measures (score wc)) as [|m ms] eqn:Em; cbn [isEmpty].
    - split; [apply frame_modifyScore|]. now rewrite score_modifyScore.
    - split; [apply frame_refl | reflexivity]. }
  destruct Hm as [Fm Pm].
  assert (Rm : current wm < List.length (scores wm)) by now apply (frame_in_range wc).
  assert (Nm : NoDup (map partId (parts (score wm)))).
  { rewrite Pm, map_partId_idAndInstruments. exact Nc. }
  destruct (sortParts_loop_total ids 0 wm Rm Nm) as [ws Hs];
    [rewrite Pm, Hlen; simpl; lia|].
  unfold sortParts. rewrite Pm, Hlen, Nat.eqb_refl, Hs. cbn [andThen].
  eexists. reflexivity.
Qed.

Lemma setInstruments_returns_witness :
  exists w1, setInstruments [violinSpec; violaSpec] masterWorld = Done w1.
Proof.
  apply setInstruments_returns.
  - split; [simpl; lia|]. split; [|split].
    + repeat constructor; simpl; intuition discriminate.
    + repeat constructor; simpl; tauto.
    + repeat constructor; simpl; lia.
  - repeat constructor; simpl; intuition discriminate.
  - repeat constructor; simpl; lia.
  - repeat constructor; simpl; intuition discriminate.
Defined.

(** ** Removing the primary instrument *)

Lemma qmap_primary_absent (v : MsInstrument) (m : QMap MsInstrument) :
  Forall (fun k => (PRIMARY_TICK < k)%Z) (keys m) ->
  qmap_value PRIMARY_TICK m = None /\
  qmap_insert PRIMARY_TICK v m = (PRIMARY_TICK, v) :: m.
Proof.
  intros H. split.
  - induction m as [|[k i] m IH]; [reflexivity|].
    inversion H as [|? ? Hk Hm]; subst. cbn [qmap_value].
    destruct (Z.eqb_spec PRIMARY_TICK k) as [E|_]; [|now apply IH].
    cbn [fst] in Hk. lia.
  - destruct m as [|[k i] m]; [reflexivity|].
    inversion H as [|? ? Hk Hm]; subst. cbn [qmap_insert].
    destruct (Z.ltb_spec PRIMARY_TICK k) as [_|E]; [reflexivity|].
    cbn [fst] in Hk. lia.
Qed.

(** X21.  [removeInstruments] that removes the primary instrument of a
    part.  The part has its primary instrument in place and its other
    instruments at later ticks, all with distinct identifiers.  The rename
    that ends the call hands [ChangePart] the instrument that
    [part->instrument()] answers once the primary entry is gone, a
    default-constructed one: the part ends up with that instrument at the
    primary tick, followed by the instruments that were not listed, and it is
    named after the instruments that were not listed only. *)
Theorem removeInstruments_of_the_primary_instrument (ids : IDList) (pid : ID) (w : World)
  (p : Part) (i0 : MsInstrument) (m : QMap MsInstrument) :
  part pid w = Some p ->
  partInstruments p = (PRIMARY_TICK, i0) :: m ->
  Forall (fun k => (PRIMARY_TICK < k)%Z) (keys m) ->
  NoDup (map instrumentId (values (partInstruments p))) ->
  In (instrumentId i0) ids ->
  exists p',
    part pid (removeInstruments ids pid w) = Some p' /\
    partInstruments p' =
      (PRIMARY_TICK, defaultInstrument)
        :: filter (fun e => negb (contains ids (instrumentId (snd e)))) m /\
    partName p' =
      String.concat " & "
        (map trackName
           (values (filter (fun e => negb (contains ids (instrumentId (snd e)))) m))).
Proof.
  intros Hp Hm Hlate Hn Hin.
  set (rest := filter (fun e => negb (contains ids (instrumentId (snd e)))) m).
  set (p1 := set_partInstruments
               (fold_left (fun m x => qmap_removeInstrument x m) ids (partInstruments p)) p).
  assert (Hm1 : partInstruments p1 = rest).
  { simpl. rewrite fold_remove_filter by assumption. rewrite Hm. simpl.
    apply contains_In in Hin. now rewrite Hin. }
  assert (Hlate1 : Forall (fun k => (PRIMARY_TICK < k)%Z) (keys rest)).
  { apply Forall_forall. intros k Hk. unfold keys, rest in Hk. apply in_map_iff in Hk.
    destruct Hk as [e [<- He]]. apply filter_In in He. destruct He as [He _].
    rewrite Forall_forall in Hlate. apply Hlate. now apply in_map. }
  destruct (qmap_primary_absent defaultInstrument rest Hlate1) as [Hnone Hins].
  assert (Hi1 : instrument p1 = defaultInstrument).
  { unfold instrument. now rewrite Hm1, Hnone. }
  exists (ChangePart (instrument p1) (formatPartName p1) p1).
  split; [|split].
  - unfold removeInstruments. rewrite Hp. cbv zeta.
    unfold apply. rewrite !part_emit. apply part_renamePart_same.
    apply part_doRemoveInstruments_same. exact Hp.
  - rewrite Hi1. unfold ChangePart, Part_setInstrument.
    change (partInstruments (set_partName (formatPartName p1)
              (set_partInstruments
                 (qmap_insert (ticks PRIMARY_TICK) defaultInstrument (partInstruments p1))
                 p1)))
      with (qmap_insert PRIMARY_TICK defaultInstrument (partInstruments p1)).
    now rewrite Hm1.
  - change (partName (ChangePart (instrument p1) (formatPartName p1) p1))
      with (formatPartName p1).
    unfold formatPartName. now rewrite instruments_all, Hm1.
Qed.

Lemma removeInstruments_of_the_primary_instrument_witness :
  exists p',
    part "A" (removeInstruments ["violin"%string] "A" abWorld) = Some p' /\
    partInstruments p' =
      (PRIMARY_TICK, defaultInstrument)
        :: filter (fun e => negb (contains ["violin"%string] (instrumentId (snd e))))
             [(2%Z, oboe); (3%Z, horn)] /\
    partName p' =
      String.concat " & "
        (map trackName
           (values (filter (fun e => negb (contains ["violin"%string]
                                             (instrumentId (snd e))))
                      [(2%Z, oboe); (3%Z, horn)]))).
Proof.
  apply (removeInstruments_of_the_primary_instrument ["violin"%string] "A" abWorld partA
           violin [(2%Z, oboe); (3%Z, horn)]).
  - reflexivity.
  - reflexivity.
  - repeat constructor.
  - repeat constructor; simpl; intuition discriminate.
  - now left.
Defined.
